(** * The ICE candidate engine of iris (IceComponent::Private)

    A shallow embedding of [src/irisnet/noncore/icecomponent.cpp]: the
    per-component engine that drives the local UDP transports and the TCP
    TURN transport, forms Host / ServerReflexive / Relayed / PeerReflexive
    candidates, eliminates redundant ones and signals gathering completion.

    The engine is a single-threaded Qt object.  Every slot, lambda and public
    method is embedded as a computation in a small state / writer / error
    monad over the fields of [IceComponent::Private]:
    - the state is the record [Private];
    - the writer collects, in order, the signals the engine emits on [q] and
      the calls it makes on its child objects;
    - the error is a failed [Q_ASSERT] (or the undefined behaviour the
      assertion guards).

    Signal consumers are taken not to destroy the engine from inside a slot,
    so every [watch.isValid()] test of the source yields true. *)

From Stdlib Require Import ZArith List Bool Lia String.
From stdpp Require Import gmap.
Import ListNotations.
Local Open Scope Z_scope.

(** ** Addresses *)

Inductive NetworkLayerProtocol :=
| IPv4Protocol
| IPv6Protocol
| UnknownNetworkLayerProtocol.

Definition protocol_eqb (a b : NetworkLayerProtocol) : bool :=
  match a, b with
  | IPv4Protocol, IPv4Protocol => true
  | IPv6Protocol, IPv6Protocol => true
  | UnknownNetworkLayerProtocol, UnknownNetworkLayerProtocol => true
  | _, _ => false
  end.

(** Modelled from the spec: [QHostAddress] is Qt's; an address is its
    protocol, its bits and, for IPv6, a zone (scope) id.  Equality compares
    protocol and bits; the zone id does not take part. *)
Module QHostAddress.
Record t := mk { protocol : NetworkLayerProtocol; bits : Z; scopeId : string }.

Definition null : t := mk UnknownNetworkLayerProtocol 0 EmptyString.

Definition isNull (a : t) : bool :=
  protocol_eqb (protocol a) UnknownNetworkLayerProtocol.

Definition eqb (a b : t) : bool :=
  protocol_eqb (protocol a) (protocol b) && (bits a =? bits b).

Definition setScopeId (z : string) (a : t) : t :=
  mk (protocol a) (bits a) z.
End QHostAddress.

(** Modelled from the spec: [TransportAddress] (transportaddress.h is not
    part of the sources) is a host address and a port; it is valid when the
    host address is not null, and two are equal when addresses and ports
    are. *)
Module TransportAddress.
Record t := mk { addr : QHostAddress.t; port : Z }.

Definition invalid : t := mk QHostAddress.null 0.

Definition isValid (a : t) : bool := negb (QHostAddress.isNull (addr a)).

Definition eqb (a b : t) : bool :=
  QHostAddress.eqb (addr a) (addr b) && (port a =? port b).
End TransportAddress.

(** ** Ice176::LocalAddress and Ice176::ExternalAddress (ice176.h) *)

Module LocalAddress.
Record t := mk { addr : QHostAddress.t; network : Z; isVpn : bool }.
End LocalAddress.

Module ExternalAddress.
Record t := mk { base : LocalAddress.t; addr : QHostAddress.t; portBase : Z }.
End ExternalAddress.

(** ** Candidates *)

Inductive CandidateType :=
| HostType
| PeerReflexiveType
| ServerReflexiveType
| RelayedType.

Definition CandidateType_eqb (a b : CandidateType) : bool :=
  match a, b with
  | HostType, HostType => true
  | PeerReflexiveType, PeerReflexiveType => true
  | ServerReflexiveType, ServerReflexiveType => true
  | RelayedType, RelayedType => true
  | _, _ => false
  end.

Inductive SocketType := UdpSocket | TcpSocket.

(** [IceAgent::instance()->foundation(...)] lives outside the sources; a
    foundation is kept as the arguments of that call. *)
Inductive Foundation :=
| foundation (type : CandidateType) (baseAddr : QHostAddress.t)
| foundation_via (type : CandidateType) (baseAddr : QHostAddress.t)
                 (server : QHostAddress.t) (proto : SocketType).

Module CandidateInfo.
Record t := mk {
  addr : TransportAddress.t;
  type : CandidateType;
  priority : Z;
  foundation : option Foundation;
  componentId : Z;
  base : TransportAddress.t;
  related : TransportAddress.t;
  network : Z
}.
End CandidateInfo.

(** A [QSharedPointer<IceTransport>] points either to the IceLocalTransport
    of a local transport or to the IceTurnTransport; objects are named by the
    number they got when they were created. *)
Inductive IceTransportRef :=
| LocalRef (h : nat)
| TurnRef (h : nat).

Definition IceTransportRef_eqb (a b : IceTransportRef) : bool :=
  match a, b with
  | LocalRef x, LocalRef y => Nat.eqb x y
  | TurnRef x, TurnRef y => Nat.eqb x y
  | _, _ => false
  end.

Module Candidate.
Record t := mk {
  id : Z;
  info : CandidateInfo.t;
  iceTransport : IceTransportRef;
  path : Z
}.
End Candidate.

(** ** The child objects, as far as the engine reads them *)

Module QUdpSocket.
Record t := mk { localAddress : QHostAddress.t; localPort : Z }.
End QUdpSocket.

(** Modelled from the spec: the implementation of [IceLocalTransport] is not
    part of the sources (only icelocaltransport.h is).  The engine reads the
    service addresses it has set itself, the local address of the adopted
    socket, and what the STUN/TURN clients have discovered so far. *)
Module IceLocalTransport.
Record t := mk {
  localAddress : TransportAddress.t;
  stunBindServiceAddress : TransportAddress.t;
  stunRelayServiceAddress : TransportAddress.t;
  serverReflexiveAddress : TransportAddress.t;
  reflexiveAddressSource : QHostAddress.t;
  relayedAddress : TransportAddress.t;
  isStunAlive : bool;
  isTurnAlive : bool
}.

Definition create : t :=
  mk TransportAddress.invalid TransportAddress.invalid TransportAddress.invalid
     TransportAddress.invalid QHostAddress.null TransportAddress.invalid false false.

Definition setStunBindService (a : TransportAddress.t) (x : t) : t :=
  mk (localAddress x) a (stunRelayServiceAddress x) (serverReflexiveAddress x)
     (reflexiveAddressSource x) (relayedAddress x) (isStunAlive x) (isTurnAlive x).

Definition setStunRelayService (a : TransportAddress.t) (x : t) : t :=
  mk (localAddress x) (stunBindServiceAddress x) a (serverReflexiveAddress x)
     (reflexiveAddressSource x) (relayedAddress x) (isStunAlive x) (isTurnAlive x).

(** [start] on a [QUdpSocket]: adopt an already bound socket. *)
Definition start (qsock : QUdpSocket.t) (x : t) : t :=
  mk (TransportAddress.mk (QUdpSocket.localAddress qsock) (QUdpSocket.localPort qsock))
     (stunBindServiceAddress x) (stunRelayServiceAddress x) (serverReflexiveAddress x)
     (reflexiveAddressSource x) (relayedAddress x) (isStunAlive x) (isTurnAlive x).

(** What the STUN and TURN clients of the transport report; it changes
    outside the engine. *)
Record Discovered := mkDiscovered {
  d_serverReflexiveAddress : TransportAddress.t;
  d_reflexiveAddressSource : QHostAddress.t;
  d_relayedAddress : TransportAddress.t;
  d_isStunAlive : bool;
  d_isTurnAlive : bool
}.

Definition discover (d : Discovered) (x : t) : t :=
  mk (localAddress x) (stunBindServiceAddress x) (stunRelayServiceAddress x)
     (d_serverReflexiveAddress d) (d_reflexiveAddressSource d) (d_relayedAddress d)
     (d_isStunAlive d) (d_isTurnAlive d).
End IceLocalTransport.

(** Modelled from the spec: [IceTurnTransport] (iceturntransport.h is not
    part of the sources), as far as the engine reads it. *)
Module IceTurnTransport.
Record t := mk {
  handle : nat;
  isStarted : bool;
  relayedAddress : TransportAddress.t;
  reflexiveAddress : TransportAddress.t
}.

Definition create (h : nat) : t :=
  mk h false TransportAddress.invalid TransportAddress.invalid.

Definition observe (started : bool) (relayed reflexive : TransportAddress.t) (x : t) : t :=
  mk (handle x) started relayed reflexive.
End IceTurnTransport.

(** ** IceComponent::Private::Config *)

Module Config.
Record t := mk {
  localAddrs : list LocalAddress.t;
  extAddrs : list ExternalAddress.t;
  stunBindAddr : TransportAddress.t;
  stunRelayUdpAddr : TransportAddress.t;
  stunRelayUdpUser : string;
  stunRelayUdpPass : string;
  stunRelayTcpAddr : TransportAddress.t;
  stunRelayTcpUser : string;
  stunRelayTcpPass : string
}.

Definition empty : t :=
  mk [] [] TransportAddress.invalid TransportAddress.invalid EmptyString EmptyString
     TransportAddress.invalid EmptyString EmptyString.

Definition set_localAddrs (v : list LocalAddress.t) (c : t) : t :=
  mk v (extAddrs c) (stunBindAddr c) (stunRelayUdpAddr c) (stunRelayUdpUser c)
     (stunRelayUdpPass c) (stunRelayTcpAddr c) (stunRelayTcpUser c) (stunRelayTcpPass c).

Definition set_extAddrs (v : list ExternalAddress.t) (c : t) : t :=
  mk (localAddrs c) v (stunBindAddr c) (stunRelayUdpAddr c) (stunRelayUdpUser c)
     (stunRelayUdpPass c) (stunRelayTcpAddr c) (stunRelayTcpUser c) (stunRelayTcpPass c).

Definition set_stunBindAddr (v : TransportAddress.t) (c : t) : t :=
  mk (localAddrs c) (extAddrs c) v (stunRelayUdpAddr c) (stunRelayUdpUser c)
     (stunRelayUdpPass c) (stunRelayTcpAddr c) (stunRelayTcpUser c) (stunRelayTcpPass c).

Definition set_stunRelayUdp (a : TransportAddress.t) (u p : string) (c : t) : t :=
  mk (localAddrs c) (extAddrs c) (stunBindAddr c) a u p
     (stunRelayTcpAddr c) (stunRelayTcpUser c) (stunRelayTcpPass c).

Definition set_stunRelayTcp (a : TransportAddress.t) (u p : string) (c : t) : t :=
  mk (localAddrs c) (extAddrs c) (stunBindAddr c) (stunRelayUdpAddr c) (stunRelayUdpUser c)
     (stunRelayUdpPass c) a u p.
End Config.

(** ** IceComponent::Private::LocalTransport

    [sock] is the IceLocalTransport the record owns; [handle] names the pair
    (the source compares [a->sock == sock]). *)
Module LocalTransport.
Record t := mk {
  handle : nat;
  qsock : QUdpSocket.t;
  addr : QHostAddress.t;
  sock : IceLocalTransport.t;
  network : Z;
  isVpn : bool;
  started : bool;
  stun_started : bool;
  stun_finished : bool;
  turn_finished : bool;
  extAddr : QHostAddress.t;
  ext_finished : bool;
  borrowed : bool
}.

Definition set_sock (v : IceLocalTransport.t) (x : t) : t :=
  mk (handle x) (qsock x) (addr x) v (network x) (isVpn x) (started x) (stun_started x)
     (stun_finished x) (turn_finished x) (extAddr x) (ext_finished x) (borrowed x).

Definition set_started (v : bool) (x : t) : t :=
  mk (handle x) (qsock x) (addr x) (sock x) (network x) (isVpn x) v (stun_started x)
     (stun_finished x) (turn_finished x) (extAddr x) (ext_finished x) (borrowed x).

Definition set_stun_started (v : bool) (x : t) : t :=
  mk (handle x) (qsock x) (addr x) (sock x) (network x) (isVpn x) (started x) v
     (stun_finished x) (turn_finished x) (extAddr x) (ext_finished x) (borrowed x).

Definition set_stun_finished (v : bool) (x : t) : t :=
  mk (handle x) (qsock x) (addr x) (sock x) (network x) (isVpn x) (started x) (stun_started x)
     v (turn_finished x) (extAddr x) (ext_finished x) (borrowed x).

Definition set_turn_finished (v : bool) (x : t) : t :=
  mk (handle x) (qsock x) (addr x) (sock x) (network x) (isVpn x) (started x) (stun_started x)
     (stun_finished x) v (extAddr x) (ext_finished x) (borrowed x).

Definition set_extAddr (v : QHostAddress.t) (x : t) : t :=
  mk (handle x) (qsock x) (addr x) (sock x) (network x) (isVpn x) (started x) (stun_started x)
     (stun_finished x) (turn_finished x) v (ext_finished x) (borrowed x).

Definition set_ext_finished (v : bool) (x : t) : t :=
  mk (handle x) (qsock x) (addr x) (sock x) (network x) (isVpn x) (started x) (stun_started x)
     (stun_finished x) (turn_finished x) (extAddr x) v (borrowed x).
End LocalTransport.


(** ** What the engine does to the outside *)

(** The signals of [IceComponent], emitted as [emit q->...]. *)
Module q.
Inductive DebugLine :=
| unable_to_bind
| starting_transport (la : QHostAddress.t) (port : Z) (component : Z)
| starting_turn_transport (server : TransportAddress.t) (component : Z)
| stopping_local_transport (local : TransportAddress.t)
| forwarded (line : string).

Inductive Signal :=
| candidateAdded (c : Candidate.t)
| candidateRemoved (c : Candidate.t)
| localFinished
| gatheringComplete
| stopped
| debugLine (line : DebugLine).
End q.

(** The calls on child objects and on the port reserver. *)
Inductive Call :=
| sock_start (h : nat) (qsock : QUdpSocket.t)
| sock_stunStart (h : nat)
| sock_stop (h : nat)
| tcpTurn_start (h : nat) (server : TransportAddress.t) (user pass : string)
| tcpTurn_stop (h : nat)
| iceTransport_addChannelPeer (t : IceTransportRef) (peer : TransportAddress.t)
| portReserver_returnSockets (qsock : QUdpSocket.t).

Inductive Effect :=
| Emit (sig : q.Signal)
| Invoke (c : Call).

(** Calls queued with [sess.defer] or [QTimer::singleShot(0, ...)]; they run
    later, one at a time, oldest first. *)
Inductive Deferred :=
| defer_localFinished
| defer_tryGatheringComplete
| defer_postStop
| defer_ensureExt.

(** ** IceComponent::Private

    [sess] and [nextHandle] are the only fields the source does not spell
    out: the queue of the ObjectSession (and of the zero timers) and the
    allocator of object identities.  [clientSoftware], [proxy],
    [portReserver] and [debugLevel] are handed to the children unread and
    are left out. *)
Record Private := mkPrivate {
  id : Z;
  pending : Config.t;
  config : Config.t;
  stopping : bool;
  udpTransports : list LocalTransport.t;
  tcpTurn : option IceTurnTransport.t;
  localCandidates : list Candidate.t;
  channelPeers : gmap Z (list TransportAddress.t);
  useLocal : bool;
  useStunBind : bool;
  useStunRelayUdp : bool;
  useStunRelayTcp : bool;
  localFinished : bool;
  gatheringComplete : bool;
  sess : list Deferred;
  nextHandle : nat
}.

(** [IceComponent::IceComponent(id, parent)] *)
Definition IceComponent (componentId : Z) : Private :=
  mkPrivate componentId Config.empty Config.empty false [] None [] ∅
            true true true true false false [] 0%nat.

Definition set_pending v s :=
  mkPrivate (id s) v (config s) (stopping s) (udpTransports s) (tcpTurn s)
    (localCandidates s) (channelPeers s) (useLocal s) (useStunBind s) (useStunRelayUdp s)
    (useStunRelayTcp s) (localFinished s) (gatheringComplete s) (sess s) (nextHandle s).
Definition set_config v s :=
  mkPrivate (id s) (pending s) v (stopping s) (udpTransports s) (tcpTurn s)
    (localCandidates s) (channelPeers s) (useLocal s) (useStunBind s) (useStunRelayUdp s)
    (useStunRelayTcp s) (localFinished s) (gatheringComplete s) (sess s) (nextHandle s).
Definition set_stopping v s :=
  mkPrivate (id s) (pending s) (config s) v (udpTransports s) (tcpTurn s)
    (localCandidates s) (channelPeers s) (useLocal s) (useStunBind s) (useStunRelayUdp s)
    (useStunRelayTcp s) (localFinished s) (gatheringComplete s) (sess s) (nextHandle s).
Definition set_udpTransports v s :=
  mkPrivate (id s) (pending s) (config s) (stopping s) v (tcpTurn s)
    (localCandidates s) (channelPeers s) (useLocal s) (useStunBind s) (useStunRelayUdp s)
    (useStunRelayTcp s) (localFinished s) (gatheringComplete s) (sess s) (nextHandle s).
Definition set_tcpTurn v s :=
  mkPrivate (id s) (pending s) (config s) (stopping s) (udpTransports s) v
    (localCandidates s) (channelPeers s) (useLocal s) (useStunBind s) (useStunRelayUdp s)
    (useStunRelayTcp s) (localFinished s) (gatheringComplete s) (sess s) (nextHandle s).
Definition set_localCandidates v s :=
  mkPrivate (id s) (pending s) (config s) (stopping s) (udpTransports s) (tcpTurn s)
    v (channelPeers s) (useLocal s) (useStunBind s) (useStunRelayUdp s)
    (useStunRelayTcp s) (localFinished s) (gatheringComplete s) (sess s) (nextHandle s).
Definition set_channelPeers v s :=
  mkPrivate (id s) (pending s) (config s) (stopping s) (udpTransports s) (tcpTurn s)
    (localCandidates s) v (useLocal s) (useStunBind s) (useStunRelayUdp s)
    (useStunRelayTcp s) (localFinished s) (gatheringComplete s) (sess s) (nextHandle s).
Definition set_useLocal v s :=
  mkPrivate (id s) (pending s) (config s) (stopping s) (udpTransports s) (tcpTurn s)
    (localCandidates s) (channelPeers s) v (useStunBind s) (useStunRelayUdp s)
    (useStunRelayTcp s) (localFinished s) (gatheringComplete s) (sess s) (nextHandle s).
Definition set_useStunBind v s :=
  mkPrivate (id s) (pending s) (config s) (stopping s) (udpTransports s) (tcpTurn s)
    (localCandidates s) (channelPeers s) (useLocal s) v (useStunRelayUdp s)
    (useStunRelayTcp s) (localFinished s) (gatheringComplete s) (sess s) (nextHandle s).
Definition set_useStunRelayUdp v s :=
  mkPrivate (id s) (pending s) (config s) (stopping s) (udpTransports s) (tcpTurn s)
    (localCandidates s) (channelPeers s) (useLocal s) (useStunBind s) v
    (useStunRelayTcp s) (localFinished s) (gatheringComplete s) (sess s) (nextHandle s).
Definition set_useStunRelayTcp v s :=
  mkPrivate (id s) (pending s) (config s) (stopping s) (udpTransports s) (tcpTurn s)
    (localCandidates s) (channelPeers s) (useLocal s) (useStunBind s) (useStunRelayUdp s)
    v (localFinished s) (gatheringComplete s) (sess s) (nextHandle s).
Definition set_localFinished v s :=
  mkPrivate (id s) (pending s) (config s) (stopping s) (udpTransports s) (tcpTurn s)
    (localCandidates s) (channelPeers s) (useLocal s) (useStunBind s) (useStunRelayUdp s)
    (useStunRelayTcp s) v (gatheringComplete s) (sess s) (nextHandle s).
Definition set_gatheringComplete v s :=
  mkPrivate (id s) (pending s) (config s) (stopping s) (udpTransports s) (tcpTurn s)
    (localCandidates s) (channelPeers s) (useLocal s) (useStunBind s) (useStunRelayUdp s)
    (useStunRelayTcp s) (localFinished s) v (sess s) (nextHandle s).
Definition set_sess v s :=
  mkPrivate (id s) (pending s) (config s) (stopping s) (udpTransports s) (tcpTurn s)
    (localCandidates s) (channelPeers s) (useLocal s) (useStunBind s) (useStunRelayUdp s)
    (useStunRelayTcp s) (localFinished s) (gatheringComplete s) v (nextHandle s).
Definition set_nextHandle v s :=
  mkPrivate (id s) (pending s) (config s) (stopping s) (udpTransports s) (tcpTurn s)
    (localCandidates s) (channelPeers s) (useLocal s) (useStunBind s) (useStunRelayUdp s)
    (useStunRelayTcp s) (localFinished s) (gatheringComplete s) (sess s) v.

(** ** The monad of slots *)

Inductive Result (A : Type) :=
| Ok (a : A)
| AssertFailed.
Arguments Ok {A} a.
Arguments AssertFailed {A}.

Definition M (A : Type) : Type := Private -> Result (A * Private * list Effect).

Definition ret {A} (a : A) : M A := fun s => Ok (a, s, []).

Definition bind {A B} (m : M A) (f : A -> M B) : M B :=
  fun s =>
    match m s with
    | Ok (a, s1, e1) =>
        match f a s1 with
        | Ok (b, s2, e2) => Ok (b, s2, e1 ++ e2)
        | AssertFailed => AssertFailed
        end
    | AssertFailed => AssertFailed
    end.

Notation "'do' x <- m ; k" := (bind m (fun x => k))
  (at level 10, x name, m at level 100, k at level 200).
Notation "m ;; k" := (bind m (fun _ => k))
  (at level 100, k at level 200, right associativity, only parsing).

Definition gets {A} (f : Private -> A) : M A := fun s => Ok (f s, s, []).
Definition modify (f : Private -> Private) : M unit := fun s => Ok (tt, f s, []).
Definition tell (e : Effect) : M unit := fun s => Ok (tt, s, [e]).
Definition emit (sig : q.Signal) : M unit := tell (Emit sig).
Definition invoke (c : Call) : M unit := tell (Invoke c).
Definition Q_ASSERT (b : bool) : M unit :=
  fun s => if b then Ok (tt, s, []) else AssertFailed.
Definition when (b : bool) (m : M unit) : M unit := if b then m else ret tt.

(** [for (x : as_const(l)) body] *)
Fixpoint for_each {X} (l : list X) (body : X -> M unit) : M unit :=
  match l with
  | [] => ret tt
  | x :: l' => body x;; for_each l' body
  end.

(** [sess.defer(...)] and [QTimer::singleShot(0, ...)] *)
Definition defer (d : Deferred) : M unit := modify (fun s => set_sess (sess s ++ [d]) s).

(** ** Helpers of IceComponent::Private *)

Definition INT_WRAP : Z := 2 ^ 32.

(** Arithmetic on [int] (two's complement, 32 bits). *)
Definition wrap_int (z : Z) : Z := (z + 2 ^ 31) mod INT_WRAP - 2 ^ 31.

(** Conversion of an [int] to the unsigned 32-bit [priority] field. *)
Definition to_quint32 (z : Z) : Z := z mod INT_WRAP.

(** [static int calc_priority(int typePref, int localPref, int componentId)] *)
Definition calc_priority (typePref localPref componentId : Z) : M Z :=
  Q_ASSERT ((0 <=? typePref) && (typePref <=? 126));;
  Q_ASSERT ((0 <=? localPref) && (localPref <=? 65535));;
  Q_ASSERT ((1 <=? componentId) && (componentId <=? 256));;
  let priority := wrap_int (Z.shiftl 1 24 * typePref) in
  let priority := wrap_int (priority + wrap_int (Z.shiftl 1 8 * localPref)) in
  let priority := wrap_int (priority + wrap_int (256 - componentId)) in
  ret priority.

(** [static int choose_default_priority(CandidateType type, int localPref,
    bool isVpn, int componentId)] *)
Definition choose_default_priority (type : CandidateType) (localPref : Z)
    (isVpn : bool) (componentId : Z) : M Z :=
  let typePref :=
    match type with
    | HostType => if isVpn then 0 else 126
    | PeerReflexiveType => 110
    | ServerReflexiveType => 100
    | RelayedType => 0
    end in
  calc_priority typePref localPref componentId.

(** [takeFromSocketList]: the first socket bound to [addr] leaves the list. *)
Fixpoint takeFromSocketList (socketList : list QUdpSocket.t) (addr : QHostAddress.t)
    : option (QUdpSocket.t * list QUdpSocket.t) :=
  match socketList with
  | [] => None
  | x :: l =>
      if QHostAddress.eqb (QUdpSocket.localAddress x) addr then Some (x, l)
      else match takeFromSocketList l addr with
           | Some (y, l') => Some (y, x :: l')
           | None => None
           end
  end.

(** [getId]: the outer loop [for (n = 0;; ++n)] started at [n]; it stops at
    the first [n] no candidate carries.  [fuel] bounds the iterations. *)
Fixpoint getId_from (fuel : nat) (n : Z) (cs : list Candidate.t) : Z :=
  match fuel with
  | O => n
  | S fuel' =>
      if existsb (fun c => Candidate.id c =? n) cs then getId_from fuel' (n + 1) cs
      else n
  end.

Definition getId (s : Private) : Z :=
  getId_from (S (length (localCandidates s))) 0 (localCandidates s).

(** [findLocalAddr]: index of the first configured local address equal to
    [addr], or -1. *)
Fixpoint findLocalAddr_from (n : Z) (l : list LocalAddress.t) (addr : QHostAddress.t) : Z :=
  match l with
  | [] => -1
  | la :: l' =>
      if QHostAddress.eqb (LocalAddress.addr la) addr then n
      else findLocalAddr_from (n + 1) l' addr
  end.

Definition findLocalAddr (addr : QHostAddress.t) (s : Private) : Z :=
  findLocalAddr_from 0 (Config.localAddrs (config s)) addr.

(** [std::find_if(udpTransports.begin(), udpTransports.end(), a->sock == sock)] *)
Definition find_lt (h : nat) (l : list LocalTransport.t) : option LocalTransport.t :=
  find (fun a => Nat.eqb (LocalTransport.handle a) h) l.

(** Reading through a [LocalTransport *]; the pointer must be in the list. *)
Definition deref_lt (h : nat) : M LocalTransport.t :=
  fun s =>
    match find_lt h (udpTransports s) with
    | Some lt => Ok (lt, s, [])
    | None => AssertFailed
    end.

(** Writing through a [LocalTransport *]. *)
Definition update_lt (h : nat) (f : LocalTransport.t -> LocalTransport.t)
    (l : list LocalTransport.t) : list LocalTransport.t :=
  map (fun a => if Nat.eqb (LocalTransport.handle a) h then f a else a) l.

Definition assign_lt (h : nat) (f : LocalTransport.t -> LocalTransport.t) : M unit :=
  modify (fun s => set_udpTransports (update_lt h f (udpTransports s)) s).

(** [udpTransports.removeOne(lt)] *)
Fixpoint removeOne (h : nat) (l : list LocalTransport.t) : list LocalTransport.t :=
  match l with
  | [] => []
  | a :: l' => if Nat.eqb (LocalTransport.handle a) h then l' else a :: removeOne h l'
  end.

(** The predicate of the redundancy scan (RFC 8445 5.1.3). *)
Definition redundant_with (c cc : Candidate.t) : bool :=
  TransportAddress.eqb (CandidateInfo.addr (Candidate.info cc)) (CandidateInfo.addr (Candidate.info c))
  && TransportAddress.eqb (CandidateInfo.base (Candidate.info cc)) (CandidateInfo.base (Candidate.info c))
  && (CandidateInfo.priority (Candidate.info c) <=? CandidateInfo.priority (Candidate.info cc)).

(** [localCandidates += c] *)
Definition append_candidate (c : Candidate.t) : M unit :=
  modify (fun s => set_localCandidates (localCandidates s ++ [c]) s).

(** [storeLocalNotReduntantCandidate] *)
Definition storeLocalNotReduntantCandidate (c : Candidate.t) : M unit :=
  do cs <- gets localCandidates;
  match find (redundant_with c) cs with
  | None => append_candidate c;; emit (q.candidateAdded c)
  | Some _ => ret tt
  end.

(** [ensureExt] *)
Definition ensureExt (h : nat) (addrAt : Z) : M unit :=
  do lt <- deref_lt h;
  if negb (QHostAddress.isNull (LocalTransport.extAddr lt)) && negb (LocalTransport.ext_finished lt)
  then
    do cid <- gets id;
    do prio <- choose_default_priority ServerReflexiveType (65535 - addrAt)
                 (LocalTransport.isVpn lt) cid;
    let local := IceLocalTransport.localAddress (LocalTransport.sock lt) in
    let ci := CandidateInfo.mk
                (TransportAddress.mk (LocalTransport.extAddr lt) (TransportAddress.port local))
                ServerReflexiveType (to_quint32 prio)
                (Some (foundation ServerReflexiveType (TransportAddress.addr local)))
                cid local local (LocalTransport.network lt) in
    do n <- gets getId;
    let c := Candidate.mk n ci (LocalRef h) 0 in
    assign_lt h (LocalTransport.set_ext_finished true);;
    storeLocalNotReduntantCandidate c
  else ret tt.

(** [removeLocalCandidates]: the loop over the index [n]; a removed element
    shifts the rest down, so [n] stays ([--n] then [++n]).  [fuel] bounds
    the iterations. *)
Fixpoint removeLocalCandidates_from (fuel : nat) (sock : IceTransportRef) (n : nat) : M unit :=
  match fuel with
  | O => ret tt
  | S fuel' =>
      do cs <- gets localCandidates;
      match nth_error cs n with
      | None => ret tt
      | Some c =>
          if IceTransportRef_eqb (Candidate.iceTransport c) sock then
            modify (fun s => set_localCandidates (firstn n cs ++ skipn (S n) cs) s);;
            modify (fun s => set_channelPeers (delete (Candidate.id c) (channelPeers s)) s);;
            emit (q.candidateRemoved c);;
            removeLocalCandidates_from fuel' sock n
          else removeLocalCandidates_from fuel' sock (S n)
      end
  end.

Definition removeLocalCandidates (sock : IceTransportRef) : M unit :=
  do cs <- gets localCandidates;
  removeLocalCandidates_from (length cs) sock 0.

Definition allStopped (s : Private) : bool :=
  match udpTransports s, tcpTurn s with
  | [], None => true
  | _, _ => false
  end.

Definition postStop : M unit :=
  modify (set_stopping false);;
  emit q.stopped.

Definition tryStopped : M unit :=
  do all <- gets allStopped;
  when all postStop.

(** [eraseLocalTransport]: true when the component is still alive after the
    transport has gone. *)
Definition eraseLocalTransport (h : nat) : M bool :=
  do lt <- deref_lt h;
  emit (q.debugLine (q.stopping_local_transport
                       (IceLocalTransport.localAddress (LocalTransport.sock lt))));;
  removeLocalCandidates (LocalRef h);;
  when (LocalTransport.borrowed lt)
       (invoke (portReserver_returnSockets (LocalTransport.qsock lt)));;
  modify (fun s => set_udpTransports (removeOne h (udpTransports s)) s);;
  ret true.

(** The lambda [checkFinished] of [tryGatheringComplete]. *)
Definition checkFinished (lt : LocalTransport.t) : bool :=
  LocalTransport.started lt
  && (negb (TransportAddress.isValid
              (IceLocalTransport.stunBindServiceAddress (LocalTransport.sock lt)))
      || LocalTransport.stun_finished lt)
  && (negb (TransportAddress.isValid
              (IceLocalTransport.stunRelayServiceAddress (LocalTransport.sock lt)))
      || LocalTransport.turn_finished lt).

Definition tcpTurn_not_started (s : Private) : bool :=
  match tcpTurn s with
  | Some t => negb (IceTurnTransport.isStarted t)
  | None => false
  end.

(** [tryGatheringComplete] *)
Definition tryGatheringComplete : M unit :=
  do done <- gets gatheringComplete;
  do waiting <- gets tcpTurn_not_started;
  if done || waiting then ret tt
  else
    do ts <- gets udpTransports;
    let allFinished := forallb checkFinished ts in
    when allFinished
         (modify (set_gatheringComplete true);;
          emit q.gatheringComplete).

(** ** Public methods *)

Definition stun_coordinates_pending (p c : Config.t) : bool :=
  (TransportAddress.isValid (Config.stunBindAddr p)
   && negb (TransportAddress.isValid (Config.stunBindAddr c)))
  || (TransportAddress.isValid (Config.stunRelayUdpAddr p)
      && negb (TransportAddress.isValid (Config.stunRelayUdpAddr c)))
  || (TransportAddress.isValid (Config.stunRelayTcpAddr p)
      && negb (TransportAddress.isValid (Config.stunRelayTcpAddr c))).

(** The seven assignments guarded by "only allow setting stun stuff once". *)
Definition copy_stun_coordinates (p c : Config.t) : Config.t :=
  Config.set_stunRelayTcp (Config.stunRelayTcpAddr p) (Config.stunRelayTcpUser p)
    (Config.stunRelayTcpPass p)
    (Config.set_stunRelayUdp (Config.stunRelayUdpAddr p) (Config.stunRelayUdpUser p)
       (Config.stunRelayUdpPass p)
       (Config.set_stunBindAddr (Config.stunBindAddr p) c)).

Definition update_stun : M unit :=
  do p <- gets pending;
  do c <- gets config;
  when (stun_coordinates_pending p c)
       (modify (set_config (copy_stun_coordinates p c))).

(** [createLocalTransport]: the new object gets the next identity. *)
Definition createLocalTransport (socket : QUdpSocket.t) (la : LocalAddress.t)
    : M LocalTransport.t :=
  do h <- gets nextHandle;
  modify (set_nextHandle (S h));;
  ret (LocalTransport.mk h socket (LocalAddress.addr la) IceLocalTransport.create
         (LocalAddress.network la) (LocalAddress.isVpn la)
         false false false false QHostAddress.null false false).

Definition isEmpty_string (x : string) : bool :=
  match x with
  | EmptyString => true
  | _ => false
  end.

(** The services a fresh transport gets, then [start(qsock)]. *)
Definition configure_sock (s : Private) (lt : LocalTransport.t) (qsock : QUdpSocket.t)
    : IceLocalTransport.t :=
  let c := config s in
  let x := LocalTransport.sock lt in
  let x :=
    if protocol_eqb (QHostAddress.protocol (LocalTransport.addr lt)) IPv6Protocol then x
    else
      let x := if useStunBind s && TransportAddress.isValid (Config.stunBindAddr c)
               then IceLocalTransport.setStunBindService (Config.stunBindAddr c) x
               else x in
      if useStunRelayUdp s && TransportAddress.isValid (Config.stunRelayUdpAddr c)
         && negb (isEmpty_string (Config.stunRelayUdpUser c))
      then IceLocalTransport.setStunRelayService (Config.stunRelayUdpAddr c) x
      else x in
  IceLocalTransport.start qsock x.

(** The loop of [update] over [pending.localAddrs].  [socketList] is the
    caller's list (null when [None]); [bindTo] tells, for an address, the
    port a fresh socket binds to, or that binding fails. *)
Fixpoint update_localAddrs (las : list LocalAddress.t)
    (socketList : option (list QUdpSocket.t))
    (bindTo : QHostAddress.t -> option Z) : M unit :=
  match las with
  | [] => ret tt
  | la :: rest =>
      do known <- gets (findLocalAddr (LocalAddress.addr la));
      if negb (known =? -1) then update_localAddrs rest socketList bindTo
      else
        do local <- gets useLocal;
        let taken :=
          match socketList with
          | Some l => if local then takeFromSocketList l (LocalAddress.addr la) else None
          | None => None
          end in
        let socketList' :=
          match taken with
          | Some (_, l') => Some l'
          | None => socketList
          end in
        let bound :=
          match taken with
          | Some (qsock, _) => Some (qsock, true)
          | None =>
              match bindTo (LocalAddress.addr la) with
              | Some port => Some (QUdpSocket.mk (LocalAddress.addr la) port, false)
              | None => None
              end
          end in
        match bound with
        | None =>
            emit (q.debugLine q.unable_to_bind);;
            update_localAddrs rest socketList' bindTo
        | Some (qsock, borrowedSocket) =>
            modify (fun s =>
                      set_config (Config.set_localAddrs
                                    (Config.localAddrs (config s) ++ [la]) (config s)) s);;
            do lt <- createLocalTransport qsock la;
            do sock <- gets (fun s => configure_sock s lt qsock);
            let lt :=
              LocalTransport.mk (LocalTransport.handle lt) qsock (LocalTransport.addr lt) sock
                (LocalTransport.network lt) (LocalTransport.isVpn lt) false false false false
                QHostAddress.null false borrowedSocket in
            modify (fun s => set_udpTransports (udpTransports s ++ [lt]) s);;
            invoke (sock_start (LocalTransport.handle lt) qsock);;
            do cid <- gets id;
            emit (q.debugLine (q.starting_transport (LocalAddress.addr la)
                                 (QUdpSocket.localPort qsock) cid));;
            update_localAddrs rest socketList' bindTo
        end
  end.

(** The lambda of the [find_if] over [config.extAddrs]. *)
Definition ext_matches (laddr : TransportAddress.t) (ea : ExternalAddress.t) : bool :=
  QHostAddress.eqb (LocalAddress.addr (ExternalAddress.base ea)) (TransportAddress.addr laddr)
  && ((ExternalAddress.portBase ea =? -1)
      || (ExternalAddress.portBase ea =? TransportAddress.port laddr)).

(** The loop of [update] that hands out external addresses; it yields
    [need_doExt]. *)
Fixpoint update_extAddrs (hs : list nat) (need_doExt : bool) : M bool :=
  match hs with
  | [] => ret need_doExt
  | h :: rest =>
      do lt <- deref_lt h;
      if negb (QHostAddress.isNull (LocalTransport.extAddr lt))
      then update_extAddrs rest need_doExt
      else
        let laddr := IceLocalTransport.localAddress (LocalTransport.sock lt) in
        if protocol_eqb (QHostAddress.protocol (TransportAddress.addr laddr)) IPv6Protocol
        then update_extAddrs rest need_doExt
        else
          do exts <- gets (fun s => Config.extAddrs (config s));
          match find (ext_matches laddr) exts with
          | Some ea =>
              assign_lt h (LocalTransport.set_extAddr (ExternalAddress.addr ea));;
              update_extAddrs rest (if LocalTransport.started lt then true else need_doExt)
          | None => update_extAddrs rest need_doExt
          end
  end.

(** The lambda [update] hands to [QTimer::singleShot]. *)
Definition deferred_ensureExt : M unit :=
  do stop <- gets stopping;
  if stop then ret tt
  else
    do ts <- gets udpTransports;
    for_each (map LocalTransport.handle ts) (fun h =>
      do lt <- deref_lt h;
      when (LocalTransport.started lt)
           (do addrAt <- gets (findLocalAddr (LocalTransport.addr lt));
            Q_ASSERT (negb (addrAt =? -1));;
            ensureExt h addrAt)).

Definition isEmpty {X} (l : list X) : bool :=
  match l with
  | [] => true
  | _ => false
  end.

Definition isNone {X} (o : option X) : bool :=
  match o with
  | None => true
  | Some _ => false
  end.

(** [update(QList<QUdpSocket *> *socketList)] *)
Definition update (socketList : option (list QUdpSocket.t))
    (bindTo : QHostAddress.t -> option Z) : M unit :=
  do stop <- gets stopping;
  Q_ASSERT (negb stop);;
  update_stun;;
  do p <- gets pending;
  do c <- gets config;
  when (negb (isEmpty (Config.localAddrs p)) && isEmpty (Config.localAddrs c))
       (update_localAddrs (Config.localAddrs p) socketList bindTo);;
  do c <- gets config;
  when (negb (isEmpty (Config.extAddrs p)) && isEmpty (Config.extAddrs c))
       (modify (fun s => set_config (Config.set_extAddrs (Config.extAddrs p) (config s)) s);;
        do ts <- gets udpTransports;
        do need_doExt <- update_extAddrs (map LocalTransport.handle ts) false;
        when need_doExt (defer defer_ensureExt));;
  do s <- gets (fun s => s);
  when (useStunRelayTcp s && TransportAddress.isValid (Config.stunRelayTcpAddr (config s))
        && negb (isEmpty_string (Config.stunRelayTcpUser (config s))) && isNone (tcpTurn s))
       (let h := nextHandle s in
        modify (set_nextHandle (S h));;
        modify (set_tcpTurn (Some (IceTurnTransport.create h)));;
        invoke (tcpTurn_start h (Config.stunRelayTcpAddr (config s))
                  (Config.stunRelayTcpUser (config s)) (Config.stunRelayTcpPass (config s)));;
        emit (q.debugLine (q.starting_turn_transport (Config.stunRelayTcpAddr (config s)) (id s))));;
  do s <- gets (fun s => s);
  when (isEmpty (udpTransports s) && negb (localFinished s))
       (modify (set_localFinished true);;
        defer defer_localFinished);;
  defer defer_tryGatheringComplete.

(** The body of [stop] below its assertion. *)
Definition stop_body : M unit :=
  modify (set_stopping true);;
  do all <- gets allStopped;
  if all then defer defer_postStop
  else
    do ts <- gets udpTransports;
    for_each ts (fun lt => invoke (sock_stop (LocalTransport.handle lt)));;
    do turn <- gets tcpTurn;
    match turn with
    | Some t => invoke (tcpTurn_stop (IceTurnTransport.handle t))
    | None => ret tt
    end.

(** [stop()] *)
Definition stop : M unit :=
  do stop <- gets stopping;
  Q_ASSERT (negb stop);;
  stop_body.

(** [QHash::operator[]]: a missing key gets a default-constructed value. *)
Definition QHash_index (k : Z) (m : gmap Z (list TransportAddress.t))
    : list TransportAddress.t * gmap Z (list TransportAddress.t) :=
  match m !! k with
  | Some v => (v, m)
  | None => ([], <[k := []]> m)
  end.

Definition QSet_contains (addr : TransportAddress.t) (l : list TransportAddress.t) : bool :=
  existsb (TransportAddress.eqb addr) l.

(** [flagPathAsLowOverhead(int id, const TransportAddress &addr)] *)
Definition flagPathAsLowOverhead (cid : Z) (addr : TransportAddress.t) : M unit :=
  do cs <- gets localCandidates;
  match find (fun c => Candidate.id c =? cid) cs with
  | None => Q_ASSERT false
  | Some c =>
      do peers <- gets channelPeers;
      let (addrs, peers) := QHash_index (Candidate.id c) peers in
      if QSet_contains addr addrs
      then modify (set_channelPeers peers)
      else
        modify (set_channelPeers (<[Candidate.id c := addrs ++ [addr]]> peers));;
        invoke (iceTransport_addChannelPeer (Candidate.iceTransport c) addr)
  end.

(** The lambda of the [find_if] in [addLocalPeerReflexiveCandidate]. *)
Definition is_base_host (base : CandidateInfo.t) (c : Candidate.t) : bool :=
  TransportAddress.eqb (CandidateInfo.base (Candidate.info c)) (CandidateInfo.base base)
  && CandidateType_eqb (CandidateInfo.type (Candidate.info c)) HostType.

(** [addLocalPeerReflexiveCandidate(addr, base, priority)]; when the lookup
    ends at [localCandidates.end()] the assertion fails (and the iterator
    must not be dereferenced). *)
Definition addLocalPeerReflexiveCandidate (addr : TransportAddress.t)
    (base : CandidateInfo.t) (priority : Z) : M unit :=
  let ci := CandidateInfo.mk
              (TransportAddress.mk (QHostAddress.setScopeId EmptyString (TransportAddress.addr addr))
                                   (TransportAddress.port addr))
              PeerReflexiveType priority
              (Some (foundation PeerReflexiveType
                       (TransportAddress.addr (CandidateInfo.addr base))))
              (CandidateInfo.componentId base)
              (CandidateInfo.addr base) (CandidateInfo.addr base)
              (CandidateInfo.network base) in
  do cs <- gets localCandidates;
  match find (is_base_host base) cs with
  | None => Q_ASSERT false
  | Some baseCand =>
      do n <- gets getId;
      let c := Candidate.mk n ci (Candidate.iceTransport baseCand) 0 in
      append_candidate c;;
      emit (q.candidateAdded c)
  end.

(** ** Slots *)

(** [lt_started]; [h] is the sender. *)
Definition lt_started (h : nat) : M unit :=
  do lt <- deref_lt h;
  assign_lt h (LocalTransport.set_started true);;
  do addrAt <- gets (findLocalAddr (LocalTransport.addr lt));
  Q_ASSERT (negb (addrAt =? -1));;
  do local <- gets useLocal;
  when local
       (do cid <- gets id;
        do prio <- choose_default_priority HostType (65535 - addrAt) (LocalTransport.isVpn lt) cid;
        let addr := IceLocalTransport.localAddress (LocalTransport.sock lt) in
        let ci := CandidateInfo.mk addr HostType (to_quint32 prio)
                    (Some (foundation HostType (TransportAddress.addr addr)))
                    cid addr TransportAddress.invalid (LocalTransport.network lt) in
        do n <- gets getId;
        let c := Candidate.mk n ci (LocalRef h) 0 in
        append_candidate c;;
        emit (q.candidateAdded c);;
        ensureExt h addrAt);;
  do lt <- deref_lt h;
  when (negb (LocalTransport.stun_started lt))
       (assign_lt h (LocalTransport.set_stun_started true);;
        do bind_enabled <- gets useStunBind;
        if bind_enabled
           && (TransportAddress.isValid
                 (IceLocalTransport.stunBindServiceAddress (LocalTransport.sock lt))
               || TransportAddress.isValid
                    (IceLocalTransport.stunRelayServiceAddress (LocalTransport.sock lt)))
        then invoke (sock_stunStart h)
        else
          assign_lt h (LocalTransport.set_stun_finished true);;
          assign_lt h (LocalTransport.set_turn_finished true));;
  do finished <- gets localFinished;
  when (negb finished)
       (do ts <- gets udpTransports;
        let allStarted := forallb LocalTransport.started ts in
        when allStarted
             (modify (set_localFinished true);;
              emit q.localFinished));;
  tryGatheringComplete.

(** [lt_addressesChanged]; [h] is the sender. *)
Definition lt_addressesChanged (h : nat) : M unit :=
  do lt <- deref_lt h;
  do addrAt <- gets (findLocalAddr (LocalTransport.addr lt));
  Q_ASSERT (negb (addrAt =? -1));;
  let sock := LocalTransport.sock lt in
  do cid <- gets id;
  do bind_enabled <- gets useStunBind;
  (if bind_enabled && TransportAddress.isValid (IceLocalTransport.serverReflexiveAddress sock)
      && negb (LocalTransport.stun_finished lt)
   then
     do ts <- gets udpTransports;
     for_each (map LocalTransport.handle ts) (fun i =>
       do li <- deref_lt i;
       when (QHostAddress.isNull (LocalTransport.extAddr li)
             && TransportAddress.eqb (IceLocalTransport.localAddress (LocalTransport.sock li))
                                     (IceLocalTransport.localAddress sock))
            (assign_lt i (LocalTransport.set_extAddr
                            (TransportAddress.addr (IceLocalTransport.serverReflexiveAddress sock)));;
             when (LocalTransport.started li) (ensureExt i addrAt)));;
     do prio <- choose_default_priority ServerReflexiveType (65535 - addrAt)
                  (LocalTransport.isVpn lt) cid;
     let base := IceLocalTransport.localAddress sock in
     let ci := CandidateInfo.mk (IceLocalTransport.serverReflexiveAddress sock)
                 ServerReflexiveType (to_quint32 prio)
                 (Some (foundation_via ServerReflexiveType (TransportAddress.addr base)
                          (IceLocalTransport.reflexiveAddressSource sock) UdpSocket))
                 cid base base (LocalTransport.network lt) in
     do n <- gets getId;
     let c := Candidate.mk n ci (LocalRef h) 0 in
     assign_lt h (LocalTransport.set_stun_finished true);;
     storeLocalNotReduntantCandidate c
   else if bind_enabled && negb (IceLocalTransport.isStunAlive sock)
           && negb (LocalTransport.stun_finished lt)
   then assign_lt h (LocalTransport.set_stun_finished true)
   else ret tt);;
  (if TransportAddress.isValid (IceLocalTransport.relayedAddress sock)
      && negb (LocalTransport.turn_finished lt)
   then
     do prio <- choose_default_priority RelayedType (65535 - addrAt) (LocalTransport.isVpn lt) cid;
     let addr := IceLocalTransport.relayedAddress sock in
     let ci := CandidateInfo.mk addr RelayedType (to_quint32 prio)
                 (Some (foundation_via RelayedType (TransportAddress.addr addr)
                          (TransportAddress.addr (IceLocalTransport.stunRelayServiceAddress sock))
                          UdpSocket))
                 cid addr (IceLocalTransport.serverReflexiveAddress sock)
                 (LocalTransport.network lt) in
     do n <- gets getId;
     let c := Candidate.mk n ci (LocalRef h) 1 in
     assign_lt h (LocalTransport.set_turn_finished true);;
     storeLocalNotReduntantCandidate c
   else if negb (IceLocalTransport.isTurnAlive sock) && negb (LocalTransport.turn_finished lt)
   then assign_lt h (LocalTransport.set_turn_finished true)
   else ret tt);;
  tryGatheringComplete.

(** The error codes of IceLocalTransport the engine tells apart. *)
Inductive IceLocalTransportError :=
| ErrorGeneric
| ErrorBind
| ErrorStun
| ErrorTurn.

(** The lambda connected to [IceLocalTransport::error]. *)
Definition lt_error (h : nat) (error : IceLocalTransportError) : M unit :=
  match error with
  | ErrorStun =>
      assign_lt h (LocalTransport.set_stun_finished true);;
      tryGatheringComplete
  | ErrorTurn =>
      assign_lt h (LocalTransport.set_turn_finished true);;
      tryGatheringComplete
  | _ =>
      do alive <- eraseLocalTransport h;
      when alive tryGatheringComplete
  end.

(** The lambda connected to [IceLocalTransport::stopped]. *)
Definition lt_stopped (h : nat) : M unit :=
  do alive <- eraseLocalTransport h;
  when alive tryStopped.

(** Reading through [tcpTurn]. *)
Definition deref_tcpTurn : M IceTurnTransport.t :=
  fun s =>
    match tcpTurn s with
    | Some t => Ok (t, s, [])
    | None => AssertFailed
    end.

(** [tt_started] *)
Definition tt_started : M unit :=
  do turn <- deref_tcpTurn;
  let addrAt := 1024 in
  do cid <- gets id;
  do prio <- choose_default_priority RelayedType (65535 - addrAt) false cid;
  let addr := IceTurnTransport.relayedAddress turn in
  do server <- gets (fun s => Config.stunRelayTcpAddr (config s));
  let ci := CandidateInfo.mk addr RelayedType (to_quint32 prio)
              (Some (foundation_via RelayedType (TransportAddress.addr addr)
                       (TransportAddress.addr server) TcpSocket))
              cid addr (IceTurnTransport.reflexiveAddress turn) 0 in
  do n <- gets getId;
  let c := Candidate.mk n ci (TurnRef (IceTurnTransport.handle turn)) 0 in
  append_candidate c;;
  emit (q.candidateAdded c);;
  tryGatheringComplete.

(** [tt_stopped] *)
Definition tt_stopped : M unit :=
  do turn <- deref_tcpTurn;
  removeLocalCandidates (TurnRef (IceTurnTransport.handle turn));;
  modify (set_tcpTurn None);;
  tryStopped.

(** [tt_error] *)
Definition tt_error : M unit :=
  do turn <- deref_tcpTurn;
  removeLocalCandidates (TurnRef (IceTurnTransport.handle turn));;
  modify (set_tcpTurn None);;
  tryGatheringComplete.

(** A call queued earlier runs. *)
Definition run_deferred (d : Deferred) : M unit :=
  match d with
  | defer_localFinished => emit q.localFinished
  | defer_tryGatheringComplete => tryGatheringComplete
  | defer_postStop => postStop
  | defer_ensureExt => deferred_ensureExt
  end.

(** ** The engine as a transition system

    One step is a call of a public method, the delivery of a signal of a
    child object, the run of the oldest queued call, or a change of what a
    child has discovered.  A signal of an object that is no longer connected
    is not delivered. *)

Inductive Op :=
| setLocalAddresses (addrs : list LocalAddress.t)
| setExternalAddresses (addrs : list ExternalAddress.t)
| setStunBindService (addr : TransportAddress.t)
| setStunRelayUdpService (addr : TransportAddress.t) (user pass : string)
| setStunRelayTcpService (addr : TransportAddress.t) (user pass : string)
| setUseLocal (enabled : bool)
| setUseStunBind (enabled : bool)
| setUseStunRelayUdp (enabled : bool)
| setUseStunRelayTcp (enabled : bool)
| call_update (socketList : option (list QUdpSocket.t)) (bindTo : QHostAddress.t -> option Z)
| call_stop
| call_flagPathAsLowOverhead (cid : Z) (addr : TransportAddress.t)
| call_addLocalPeerReflexiveCandidate (addr : TransportAddress.t) (base : CandidateInfo.t)
                                      (priority : Z)
| signal_lt_started (h : nat)
| signal_lt_stopped (h : nat)
| signal_lt_addressesChanged (h : nat)
| signal_lt_error (h : nat) (error : IceLocalTransportError)
| signal_lt_debugLine (line : string)
| signal_tt_started
| signal_tt_stopped
| signal_tt_error
| event_loop
| sock_discovers (h : nat) (d : IceLocalTransport.Discovered)
| tcpTurn_reports (started : bool) (relayed reflexive : TransportAddress.t).

Definition connected_lt (h : nat) (m : M unit) : M unit :=
  do found <- gets (fun s => find_lt h (udpTransports s));
  when (negb (isNone found)) m.

Definition connected_tcpTurn (m : M unit) : M unit :=
  do turn <- gets tcpTurn;
  when (negb (isNone turn)) m.

Definition step (op : Op) : M unit :=
  match op with
  | setLocalAddresses addrs =>
      modify (fun s => set_pending (Config.set_localAddrs addrs (pending s)) s)
  | setExternalAddresses addrs =>
      modify (fun s => set_pending (Config.set_extAddrs addrs (pending s)) s)
  | setStunBindService addr =>
      modify (fun s => set_pending (Config.set_stunBindAddr addr (pending s)) s)
  | setStunRelayUdpService addr user pass =>
      modify (fun s => set_pending (Config.set_stunRelayUdp addr user pass (pending s)) s)
  | setStunRelayTcpService addr user pass =>
      modify (fun s => set_pending (Config.set_stunRelayTcp addr user pass (pending s)) s)
  | setUseLocal enabled => modify (set_useLocal enabled)
  | setUseStunBind enabled => modify (set_useStunBind enabled)
  | setUseStunRelayUdp enabled => modify (set_useStunRelayUdp enabled)
  | setUseStunRelayTcp enabled => modify (set_useStunRelayTcp enabled)
  | call_update socketList bindTo => update socketList bindTo
  | call_stop => stop
  | call_flagPathAsLowOverhead cid addr => flagPathAsLowOverhead cid addr
  | call_addLocalPeerReflexiveCandidate addr base priority =>
      addLocalPeerReflexiveCandidate addr base priority
  | signal_lt_started h => connected_lt h (lt_started h)
  | signal_lt_stopped h => connected_lt h (lt_stopped h)
  | signal_lt_addressesChanged h => connected_lt h (lt_addressesChanged h)
  | signal_lt_error h error => connected_lt h (lt_error h error)
  | signal_lt_debugLine line => emit (q.debugLine (q.forwarded line))
  | signal_tt_started => connected_tcpTurn tt_started
  | signal_tt_stopped => connected_tcpTurn tt_stopped
  | signal_tt_error => connected_tcpTurn tt_error
  | event_loop =>
      do queue <- gets sess;
      match queue with
      | [] => ret tt
      | d :: rest => modify (set_sess rest);; run_deferred d
      end
  | sock_discovers h d =>
      assign_lt h (fun lt =>
        LocalTransport.set_sock (IceLocalTransport.discover d (LocalTransport.sock lt)) lt)
  | tcpTurn_reports started relayed reflexive =>
      modify (fun s =>
        set_tcpTurn (option_map (IceTurnTransport.observe started relayed reflexive) (tcpTurn s)) s)
  end.

(** Running a list of steps from a state, collecting the effects. *)
Fixpoint run (ops : list Op) : M unit :=
  match ops with
  | [] => ret tt
  | op :: rest => step op;; run rest
  end.

(** The states the engine can be in: the freshly constructed component and
    whatever a step leads to. *)
Inductive reachable (componentId : Z) : Private -> Prop :=
| reachable_init : reachable componentId (IceComponent componentId)
| reachable_step s op s' evs :
    reachable componentId s ->
    step op s = Ok (tt, s', evs) ->
    reachable componentId s'.

(** * More of the engine *)

(** [std::find_if] over [udpTransports] for the transport whose socket is
    [h], then [std::distance] from [begin()]: the position of the first such
    transport, counted from [n]. *)
Fixpoint position_of_lt (h : nat) (n : Z) (l : list LocalTransport.t) : option Z :=
  match l with
  | [] => None
  | a :: l' =>
      if Nat.eqb (LocalTransport.handle a) h then Some n
      else position_of_lt h (n + 1) l'
  end.

(** [peerReflexivePriority(iceTransport, path)]: a const method, so the
    state is only read.  A pointer to a local transport must be in
    [udpTransports] (the assertion); a pointer that is neither a local
    transport nor [tcpTurn] leaves [addrAt] at -1. *)
Definition peerReflexivePriority (iceTransport : IceTransportRef) (path : Z) : M Z :=
  do addrAt <-
    match iceTransport with
    | LocalRef h =>
        do ts <- gets udpTransports;
        match position_of_lt h 0 ts with
        | None => Q_ASSERT false;; ret (-1)
        | Some addrAt => ret (if path =? 1 then wrap_int (addrAt + 512) else addrAt)
        end
    | TurnRef h =>
        do turn <- gets tcpTurn;
        match turn with
        | Some t => ret (if Nat.eqb (IceTurnTransport.handle t) h then 1024 else -1)
        | None => ret (-1)
        end
    end;
  do cid <- gets id;
  choose_default_priority PeerReflexiveType (wrap_int (65535 - addrAt)) false cid.

(** * The WebRTC data channel

    A shallow embedding of [jingle-webrtc-datachannel_p.cpp], as far as it
    is decided by that file: the parsing of a DATA_CHANNEL_OPEN message and
    the queue of incoming data.  The class declaration
    (jingle-webrtc-datachannel_p.h) is not part of the sources; the members
    are taken as the methods use them. *)

(** [QByteArray]: a sequence of bytes. *)
Module QByteArray.
Definition t : Type := list Byte.byte.

Definition size (a : t) : Z := Z.of_nat (length a).

Definition isEmpty (a : t) : bool :=
  match a with
  | [] => true
  | _ => false
  end.

(** [quint8(a[i])] *)
Definition byte_at (a : t) (i : nat) : Z := Z.of_N (Byte.to_N (nth i a Byte.x00)).

(** The [len] bytes from position [pos] on, as [fromUtf8(a.data() + pos,
    len)] reads them. *)
Definition mid (a : t) (pos len : Z) : t :=
  firstn (Z.to_nat len) (skipn (Z.to_nat pos) a).

(** [a.remove(0, len)] *)
Definition remove_front (len : Z) (a : t) : t := skipn (Z.to_nat len) a.
End QByteArray.

(** [qFromBigEndian<quint16>(data.data() + off)] *)
Definition qFromBigEndian16 (data : QByteArray.t) (off : nat) : Z :=
  2 ^ 8 * QByteArray.byte_at data off + QByteArray.byte_at data (off + 1).

(** [qFromBigEndian<quint32>(data.data() + off)] *)
Definition qFromBigEndian32 (data : QByteArray.t) (off : nat) : Z :=
  2 ^ 24 * QByteArray.byte_at data off + 2 ^ 16 * QByteArray.byte_at data (off + 1)
  + 2 ^ 8 * QByteArray.byte_at data (off + 2) + QByteArray.byte_at data (off + 3).

(** A [QString] is kept as the bytes [QString::fromUtf8] was given. *)
Inductive QString :=
| fromUtf8 (utf8 : QByteArray.t).

Inductive DcepState :=
| NoDcep
| DcepOpening
| DcepNegotiated.

(** [QIODevice::OpenMode], as far as the channel uses it. *)
Inductive OpenMode :=
| NotOpen
| ReadOnly
| WriteOnly
| ReadWrite.

Module WebRTCDataChannel.

(** The members the constructor and [fromChannelOpen] give a value. *)
Record Opened := mkOpened {
  channelType : Z;
  reliability : Z;
  priority : Z;
  label : QString;
  protocol : QString;
  dcepState : DcepState;
  _isRemote : bool;
  openMode : OpenMode
}.

(** [WebRTCDataChannel(association, quint8 channelType, quint32 reliability,
    quint16 priority, label, protocol, state)]: the arguments are converted
    to the types of the parameters and stored. *)
Definition create (channelType reliability priority : Z) (label protocol : QString)
    (state : DcepState) : Opened :=
  mkOpened (channelType mod 2 ^ 8) (reliability mod 2 ^ 32) (priority mod 2 ^ 16)
           label protocol state false NotOpen.

Definition set_isRemote (v : bool) (x : Opened) : Opened :=
  mkOpened (channelType x) (reliability x) (priority x) (label x) (protocol x)
           (dcepState x) v (openMode x).

Definition setOpenMode (v : OpenMode) (x : Opened) : Opened :=
  mkOpened (channelType x) (reliability x) (priority x) (label x) (protocol x)
           (dcepState x) (_isRemote x) v.

(** [fromChannelOpen(assoc, data)]: null ([None]) for a truncated message. *)
Definition fromChannelOpen (data : QByteArray.t) : option Opened :=
  if QByteArray.size data <? 12 then None
  else
    let channelType := QByteArray.byte_at data 1 in
    let priority := qFromBigEndian16 data 2 in
    let reliability := qFromBigEndian32 data 4 in
    let labelLength := qFromBigEndian16 data 8 in
    let protoOff := (12 + labelLength) + labelLength mod 4 in
    let protocolLength := qFromBigEndian16 data 10 in
    if QByteArray.size data <? protoOff + protocolLength then None
    else
      let label := fromUtf8 (QByteArray.mid data 12 labelLength) in
      let protocol := fromUtf8 (QByteArray.mid data protoOff protocolLength) in
      let channel := create channelType priority reliability label protocol DcepNegotiated in
      Some (setOpenMode ReadWrite (set_isRemote true channel)).

(** The members behind the reading side of the channel.  [_bytesAvailable]
    is a [qint64]; it is kept as an integer, the additions and subtractions
    of the methods are those of the source as long as they do not overflow
    (which the source leaves undefined). *)
Record Inbox := mkInbox {
  datagrams : list QByteArray.t;
  tail : QByteArray.t;
  _bytesAvailable : Z
}.

(** [hasPendingDatagrams()] *)
Definition hasPendingDatagrams (x : Inbox) : bool := 0 <? Z.of_nat (length (datagrams x)).

(** [readDatagram(maxSize)]: the datagram handed out (a null one when none
    is queued) and the state afterwards. *)
Definition readDatagram (x : Inbox) : option QByteArray.t * Inbox :=
  match datagrams x with
  | dg :: rest => (Some dg, mkInbox rest (tail x) (_bytesAvailable x - QByteArray.size dg))
  | [] => (None, x)
  end.

(** [onIncomingData(data, ppid)] for a ppid other than [PPID_DCEP]: the
    data is queued (and [readyRead] is emitted). *)
Definition onIncomingData (data : QByteArray.t) (x : Inbox) : Inbox :=
  mkInbox (datagrams x ++ [data]) (tail x) (_bytesAvailable x + QByteArray.size data).

(** [std::memcpy(buf + at, src, n)] *)
Definition memcpy (buf : QByteArray.t) (at_ : Z) (src : QByteArray.t) (n : Z) : QByteArray.t :=
  firstn (Z.to_nat at_) buf ++ firstn (Z.to_nat n) src
  ++ skipn (Z.to_nat at_ + Z.to_nat n) buf.

(** The [do ... while] loop of [readDataInternal]: the buffer, the bytes
    counted so far and the state; [fuel] bounds the iterations. *)
Fixpoint readDataInternal_loop (fuel : nat) (x : Inbox) (buf : QByteArray.t)
    (actualSz sz : Z) : Inbox * QByteArray.t * Z :=
  match fuel with
  | O => (x, buf, actualSz)
  | S fuel' =>
      let x :=
        match datagrams x with
        | dg :: rest =>
            if QByteArray.isEmpty (tail x) then mkInbox rest dg (_bytesAvailable x) else x
        | [] => x
        end in
      let dataSz := Z.min sz (QByteArray.size (tail x)) in
      let buf := memcpy buf actualSz (tail x) dataSz in
      if dataSz =? QByteArray.size (tail x) then
        let x := mkInbox (datagrams x) [] (_bytesAvailable x) in
        let actualSz := actualSz + dataSz in
        let sz := sz - dataSz in
        if (0 <? sz) && negb (isEmpty (datagrams x))
        then readDataInternal_loop fuel' x buf actualSz sz
        else (x, buf, actualSz)
      else
        let x := mkInbox (datagrams x) (QByteArray.remove_front dataSz (tail x))
                         (_bytesAvailable x) in
        if negb (QByteArray.isEmpty (tail x)) then (x, buf, actualSz)
        else
          let actualSz := actualSz + dataSz in
          let sz := sz - dataSz in
          if (0 <? sz) && negb (isEmpty (datagrams x))
          then readDataInternal_loop fuel' x buf actualSz sz
          else (x, buf, actualSz)
  end.

(** [readDataInternal(buf, sz)]: the state afterwards, the buffer and the
    number of bytes reported as read. *)
Definition readDataInternal (x : Inbox) (buf : QByteArray.t) (sz : Z)
    : Inbox * QByteArray.t * Z :=
  let '(x, buf, actualSz) :=
    readDataInternal_loop (S (length (datagrams x))) x buf 0 sz in
  (mkInbox (datagrams x) (tail x) (_bytesAvailable x - actualSz), buf, actualSz).
End WebRTCDataChannel.

(** * Vocabulary of the statements *)

Definition type_pref (type : CandidateType) (isVpn : bool) : Z :=
  match type with
  | HostType => if isVpn then 0 else 126
  | PeerReflexiveType => 110
  | ServerReflexiveType => 100
  | RelayedType => 0
  end.

(** The priority formula of RFC 8445 5.1.2.1 as the spec writes it. *)
Definition priority_formula (typePref localPref componentId : Z) : Z :=
  2 ^ 24 * typePref + 2 ^ 8 * localPref + (256 - componentId).

(** Concrete addresses for the examples (the ones of the spec's scenarios). *)
Definition ipv4 (bits : Z) : QHostAddress.t := QHostAddress.mk IPv4Protocol bits EmptyString.

Definition ip_192_168_1_5 : QHostAddress.t := ipv4 3232235781.
Definition ip_198_51_100_7 : QHostAddress.t := ipv4 3325256711.
Definition ip_203_0_113_9 : QHostAddress.t := ipv4 3405803785.
Definition ip_74_125_1_1 : QHostAddress.t := ipv4 1249706241.
Definition ip_74_125_1_2 : QHostAddress.t := ipv4 1249706242.
Definition ip_198_51_100_50 : QHostAddress.t := ipv4 3325256754.

Definition la_192_168_1_5 : LocalAddress.t := LocalAddress.mk ip_192_168_1_5 1 false.

(** Every fresh socket binds, to this port. *)
Definition binds_to (port : Z) : QHostAddress.t -> option Z := fun _ => Some port.

(** The engine of scenario S1 after [update]: one local address, use_local,
    no STUN, no TURN; its only transport has identity 0. *)
Definition after_update_S1 : Result (unit * Private * list Effect) :=
  run [setLocalAddresses [la_192_168_1_5]; call_update None (binds_to 40000); event_loop]
      (IceComponent 1).

Definition state_of (r : Result (unit * Private * list Effect)) (otherwise : Private) : Private :=
  match r with
  | Ok (_, s, _) => s
  | AssertFailed => otherwise
  end.

Definition effects_of (r : Result (unit * Private * list Effect)) : list Effect :=
  match r with
  | Ok (_, _, evs) => evs
  | AssertFailed => []
  end.

Definition succeeds {X} (r : Result X) : bool :=
  match r with
  | Ok _ => true
  | AssertFailed => false
  end.

(** No stored candidate makes a later one redundant: for every pair of list
    positions, the later candidate does not share address and base with the
    earlier one at a priority that is not higher. *)
Definition NoRedundant (cs : list Candidate.t) : Prop :=
  ForallOrdPairs (fun stored later => redundant_with later stored = false) cs.

(** The same, as a test. *)
Fixpoint no_redundantb (cs : list Candidate.t) : bool :=
  match cs with
  | [] => true
  | stored :: l =>
      forallb (fun later => negb (redundant_with later stored)) l && no_redundantb l
  end.

Definition is_candidateAdded (e : Effect) : bool :=
  match e with
  | Emit (q.candidateAdded _) => true
  | _ => false
  end.

(** Scenario S3 with host candidates switched off: one local address, one
    external address mapped onto it, [update], then the queued calls. *)
Definition S3_without_local : Result (unit * Private * list Effect) :=
  run [setUseLocal false;
       setLocalAddresses [la_192_168_1_5];
       setExternalAddresses [ExternalAddress.mk la_192_168_1_5 ip_198_51_100_7 (-1)];
       call_update None (binds_to 40000);
       event_loop]
      (IceComponent 1).

(** Scenario S3 as the spec has it. *)
Definition S3_updated : Result (unit * Private * list Effect) :=
  run [setLocalAddresses [la_192_168_1_5];
       setExternalAddresses [ExternalAddress.mk la_192_168_1_5 ip_198_51_100_7 (-1)];
       call_update None (binds_to 40000);
       event_loop]
      (IceComponent 1).

(** ** Relations between the state before, the state after and the effects *)

(** A slot respects [T] when every successful run of it is in [T]. *)
Definition respects {A} (T : Private -> Private -> list Effect -> Prop) (m : M A) : Prop :=
  forall s a s' evs, m s = Ok (a, s', evs) -> T s s' evs.

(** Relations that hold of doing nothing and of doing one thing after
    another. *)
Class Transition (T : Private -> Private -> list Effect -> Prop) : Prop := {
  transition_refl : forall s, T s s [];
  transition_trans : forall s1 s2 s3 e1 e2,
      T s1 s2 e1 -> T s2 s3 e2 -> T s1 s3 (e1 ++ e2)
}.

Definition is_gatheringComplete (e : Effect) : bool :=
  match e with
  | Emit q.gatheringComplete => true
  | _ => false
  end.

(** How often [gatheringComplete] is emitted in a list of effects. *)
Definition count_gatheringComplete (evs : list Effect) : nat :=
  length (List.filter is_gatheringComplete evs).

(** The completion test of the spec (4.3.6), on a state. *)
Definition gathering_finished (s : Private) : Prop :=
  (forall lt, In lt (udpTransports s) ->
     LocalTransport.started lt = true
     /\ (TransportAddress.isValid
           (IceLocalTransport.stunBindServiceAddress (LocalTransport.sock lt)) = true ->
         LocalTransport.stun_finished lt = true)
     /\ (TransportAddress.isValid
           (IceLocalTransport.stunRelayServiceAddress (LocalTransport.sock lt)) = true ->
         LocalTransport.turn_finished lt = true))
  /\ (forall t, tcpTurn s = Some t -> IceTurnTransport.isStarted t = true).

(** Nothing about gathering completion happens. *)
Definition gathering_untouched (s s' : Private) (evs : list Effect) : Prop :=
  gatheringComplete s' = gatheringComplete s /\ count_gatheringComplete evs = 0%nat.

(** Gathering completion is left alone, or it is signalled once, the flag
    goes from false to true and the completion test holds afterwards. *)
Definition gathering_guarded (s s' : Private) (evs : list Effect) : Prop :=
  gathering_untouched s s' evs
  \/ (count_gatheringComplete evs = 1%nat
      /\ gatheringComplete s = false /\ gatheringComplete s' = true
      /\ gathering_finished s').

(** The flag counts the emissions. *)
Definition gathering_counted (s s' : Private) (evs : list Effect) : Prop :=
  (count_gatheringComplete evs + Nat.b2n (gatheringComplete s))%nat
  = Nat.b2n (gatheringComplete s').

(** ** Channel peers *)

(** [e] is the removal of a candidate with id [k]. *)
Definition is_removed_id (k : Z) (e : Effect) : bool :=
  match e with
  | Emit (q.candidateRemoved c) => Candidate.id c =? k
  | _ => false
  end.

Definition is_addChannelPeer (e : Effect) : bool :=
  match e with
  | Invoke (iceTransport_addChannelPeer _ _) => true
  | _ => false
  end.

(** The channel-peer table changes only by losing the entries of the
    candidates removed, and no channel is installed. *)
Definition peers_follow_removals (s s' : Private) (evs : list Effect) : Prop :=
  (forall k, channelPeers s' !! k
             = if existsb (is_removed_id k) evs then None else channelPeers s !! k)
  /\ existsb is_addChannelPeer evs = false.

Definition is_flagPathAsLowOverhead (op : Op) : bool :=
  match op with
  | call_flagPathAsLowOverhead _ _ => true
  | _ => false
  end.

(** Scenario S1 once the transport has reported [started], and the Host
    candidate it emits. *)
Definition S1_started : Result (unit * Private * list Effect) :=
  (run [setLocalAddresses [la_192_168_1_5]; call_update None (binds_to 40000); event_loop;
        signal_lt_started 0%nat]) (IceComponent 1).

Definition S1_host_info : CandidateInfo.t :=
  CandidateInfo.mk (TransportAddress.mk ip_192_168_1_5 40000) HostType 2130706431
    (Some (foundation HostType ip_192_168_1_5)) 1
    (TransportAddress.mk ip_192_168_1_5 40000) TransportAddress.invalid 1.

(** What [stop] does to the child objects when something is left to stop. *)
Definition stop_calls (s : Private) : list Effect :=
  map (fun lt => Invoke (sock_stop (LocalTransport.handle lt))) (udpTransports s)
  ++ match tcpTurn s with
     | Some t => [Invoke (tcpTurn_stop (IceTurnTransport.handle t))]
     | None => []
     end.

(** The server-reflexive candidate [192.168.1.5:40000] (no NAT) meets the
    stored Host candidate of S1 and is dropped. *)
Definition S1_srflx_no_nat : Candidate.t :=
  Candidate.mk 1
    (CandidateInfo.mk (TransportAddress.mk ip_192_168_1_5 40000) ServerReflexiveType 1694498815
       (Some (foundation_via ServerReflexiveType ip_192_168_1_5 ip_74_125_1_1 UdpSocket)) 1
       (TransportAddress.mk ip_192_168_1_5 40000) (TransportAddress.mk ip_192_168_1_5 40000) 1)
    (LocalRef 0) 0.

(** ** What a slot never changes about the transports *)

(** The part of a local transport no slot that emits candidates writes. *)
Definition transport_facts (lt : LocalTransport.t)
    : nat * QHostAddress.t * bool * IceLocalTransport.t :=
  (LocalTransport.handle lt, LocalTransport.addr lt, LocalTransport.isVpn lt,
   LocalTransport.sock lt).

Definition static (s : Private) :=
  (id s, Config.localAddrs (config s), map transport_facts (udpTransports s), tcpTurn s).

(** The socket of every local transport is bound to the address the
    transport was created for. *)
Definition transports_wf (ts : list LocalTransport.t) : Prop :=
  forall lt, In lt ts ->
    QHostAddress.eqb
      (TransportAddress.addr (IceLocalTransport.localAddress (LocalTransport.sock lt)))
      (LocalTransport.addr lt) = true.

(** What holds of a candidate the engine emits, in terms of the state the
    emitting step started from: its priority follows the formula, and a
    Relayed candidate has the shape of its transport. *)
Definition emitted_ok (s : Private) (c : Candidate.t) : Prop :=
  let info := Candidate.info c in
  CandidateInfo.type info = PeerReflexiveType
  \/ match Candidate.iceTransport c with
     | LocalRef h =>
         exists lt,
           find_lt h (udpTransports s) = Some lt
           /\ CandidateInfo.componentId info = id s
           /\ (transports_wf (udpTransports s) ->
               0 <= findLocalAddr (LocalTransport.addr lt) s <= 65535
               /\ CandidateInfo.priority info
                  = priority_formula
                      (type_pref (CandidateInfo.type info) (LocalTransport.isVpn lt))
                      (65535 - findLocalAddr (LocalTransport.addr lt) s) (id s))
           /\ (CandidateInfo.type info = RelayedType ->
               CandidateInfo.addr info
               = IceLocalTransport.relayedAddress (LocalTransport.sock lt)
               /\ CandidateInfo.base info
                  = IceLocalTransport.relayedAddress (LocalTransport.sock lt)
               /\ CandidateInfo.related info
                  = IceLocalTransport.serverReflexiveAddress (LocalTransport.sock lt)
               /\ Candidate.path c = 1)
     | TurnRef h =>
         exists t,
           tcpTurn s = Some t
           /\ IceTurnTransport.handle t = h
           /\ CandidateInfo.componentId info = id s
           /\ CandidateInfo.type info = RelayedType
           /\ CandidateInfo.priority info = priority_formula 0 (65535 - 1024) (id s)
           /\ CandidateInfo.addr info = IceTurnTransport.relayedAddress t
           /\ CandidateInfo.base info = IceTurnTransport.relayedAddress t
           /\ Candidate.path c = 0
     end.

(** Seen from [s0]: the slot keeps the static part and every candidate it
    emits is as [emitted_ok] says. *)
Definition emits_ok (s0 s s' : Private) (evs : list Effect) : Prop :=
  static s = static s0 ->
  static s' = static s0
  /\ forall c, In (Emit (q.candidateAdded c)) evs -> emitted_ok s0 c.

(** No candidate is emitted. *)
Definition emits_none (s s' : Private) (evs : list Effect) : Prop :=
  existsb is_candidateAdded evs = false.

(** Well-formed transports stay so. *)
Definition keeps_wf (s s' : Private) (evs : list Effect) : Prop :=
  transports_wf (udpTransports s) -> transports_wf (udpTransports s').

(** The steps that may emit candidates. *)
Definition may_emit (op : Op) : bool :=
  match op with
  | call_addLocalPeerReflexiveCandidate _ _ _ => true
  | signal_lt_started _ => true
  | signal_lt_addressesChanged _ => true
  | signal_tt_started => true
  | event_loop => true
  | _ => false
  end.

(** The component id never changes. *)
Definition keeps_id (s s' : Private) (evs : list Effect) : Prop := id s' = id s.

(** Scenario S4: STUN bind and STUN relay (UDP) on the one local address;
    the transport has started and its clients have discovered the
    server-reflexive address [203.0.113.9:40001] and the relayed address
    [198.51.100.50:50000]. *)
Definition S4_discovered : Result (unit * Private * list Effect) :=
  run [setLocalAddresses [la_192_168_1_5];
       setStunBindService (TransportAddress.mk ip_74_125_1_1 3478);
       setStunRelayUdpService (TransportAddress.mk ip_74_125_1_1 3478) "user" "pass";
       call_update None (binds_to 40000);
       event_loop;
       signal_lt_started 0%nat;
       sock_discovers 0%nat
         (IceLocalTransport.mkDiscovered
            (TransportAddress.mk ip_203_0_113_9 40001) ip_74_125_1_1
            (TransportAddress.mk ip_198_51_100_50 50000) true true)]
      (IceComponent 1).

(** The Relayed candidate of S4. *)
Definition S4_relayed : Candidate.t :=
  Candidate.mk 3
    (CandidateInfo.mk (TransportAddress.mk ip_198_51_100_50 50000) RelayedType 16777215
       (Some (foundation_via RelayedType ip_198_51_100_50 ip_74_125_1_1 UdpSocket)) 1
       (TransportAddress.mk ip_198_51_100_50 50000) (TransportAddress.mk ip_203_0_113_9 40001) 1)
    (LocalRef 0) 1.

(** The Host candidate of S1. *)
Definition S1_host : Candidate.t := Candidate.mk 0 S1_host_info (LocalRef 0) 0.

(** The transport of S3 after [update]: it carries the mapped address. *)
Definition S3_transport : LocalTransport.t :=
  LocalTransport.mk 0 (QUdpSocket.mk ip_192_168_1_5 40000) ip_192_168_1_5
    (IceLocalTransport.mk (TransportAddress.mk ip_192_168_1_5 40000)
       TransportAddress.invalid TransportAddress.invalid TransportAddress.invalid
       QHostAddress.null TransportAddress.invalid false false)
    1 false false false false false ip_198_51_100_7 false false.

Definition is_serverReflexiveAdded (e : Effect) : bool :=
  match e with
  | Emit (q.candidateAdded c) =>
      CandidateType_eqb (CandidateInfo.type (Candidate.info c)) ServerReflexiveType
  | _ => false
  end.

(** Some configured ExternalAddress entry matches the local address of
    transport [h]. *)
Definition has_matching_external (h : nat) (s : Private) : bool :=
  match find_lt h (udpTransports s) with
  | Some lt =>
      existsb (ext_matches (IceLocalTransport.localAddress (LocalTransport.sock lt)))
              (Config.extAddrs (config s))
  | None => false
  end.

(** Scenario S3 on a host without NAT: the mapped address is the local one. *)
Definition S3_no_nat : Result (unit * Private * list Effect) :=
  run [setLocalAddresses [la_192_168_1_5];
       setExternalAddresses [ExternalAddress.mk la_192_168_1_5 ip_192_168_1_5 (-1)];
       call_update None (binds_to 40000);
       event_loop]
      (IceComponent 1).

(** Scenario S3 with the external addresses installed by an [update] that
    comes before the one that installs the local addresses. *)
Definition S3_external_first : Result (unit * Private * list Effect) :=
  run [setExternalAddresses [ExternalAddress.mk la_192_168_1_5 ip_198_51_100_7 (-1)];
       call_update None (binds_to 40000);
       event_loop; event_loop;
       setLocalAddresses [la_192_168_1_5];
       call_update None (binds_to 40000);
       event_loop]
      (IceComponent 1).

(** Scenario S1 after the Host candidate's path to [203.0.113.9:40001] has
    been flagged as low overhead. *)
Definition S1_flagged : Private :=
  state_of (step (call_flagPathAsLowOverhead 0 (TransportAddress.mk ip_203_0_113_9 40001))
                 (state_of S1_started (IceComponent 1)))
           (IceComponent 1).

(** ** Vocabulary of the further properties *)

(** [c] is carried by the transport [sock]. *)
Definition carried_by (sock : IceTransportRef) (c : Candidate.t) : bool :=
  IceTransportRef_eqb (Candidate.iceTransport c) sock.

(** The channel-peer table without the entries of the candidates [removed]. *)
Definition remove_peers (removed : list Candidate.t) (m : gmap Z (list TransportAddress.t))
    : gmap Z (list TransportAddress.t) :=
  fold_left (fun m c => delete (Candidate.id c) m) removed m.

(** The transport [t] points to is one the engine still owns. *)
Definition live (s : Private) (t : IceTransportRef) : bool :=
  match t with
  | LocalRef h => negb (isNone (find_lt h (udpTransports s)))
  | TurnRef h =>
      match tcpTurn s with
      | Some turn => Nat.eqb (IceTurnTransport.handle turn) h
      | None => false
      end
  end.

(** No two live candidates share an id, and each one is carried by a
    transport the engine still owns. *)
Definition candidates_ok (s : Private) : Prop :=
  List.NoDup (map Candidate.id (localCandidates s))
  /\ forall c, In c (localCandidates s) -> live s (Candidate.iceTransport c) = true.

(** The transports the engine owns, by identity. *)
Definition owners (s : Private) : list nat * option nat :=
  (map LocalTransport.handle (udpTransports s),
   option_map IceTurnTransport.handle (tcpTurn s)).

(** The slot creates and destroys no transport and keeps [candidates_ok]. *)
Definition grows_ok (s s' : Private) (evs : list Effect) : Prop :=
  owners s' = owners s /\ (candidates_ok s -> candidates_ok s').

Definition keeps_candidates_ok (s s' : Private) (evs : list Effect) : Prop :=
  candidates_ok s -> candidates_ok s'.

(** ** The local transports *)

(** What the engine never changes about a local transport once it is
    created: its address and the services its socket was given. *)
Definition address_facts (lt : LocalTransport.t)
    : QHostAddress.t * TransportAddress.t * TransportAddress.t :=
  (LocalTransport.addr lt,
   IceLocalTransport.stunBindServiceAddress (LocalTransport.sock lt),
   IceLocalTransport.stunRelayServiceAddress (LocalTransport.sock lt)).

(** The address is one of [config.localAddrs]. *)
Definition known_address (las : list LocalAddress.t)
    (f : QHostAddress.t * TransportAddress.t * TransportAddress.t) : Prop :=
  findLocalAddr_from 0 las (fst (fst f)) <> -1.

(** A transport on an IPv6 address has no STUN and no TURN service. *)
Definition no_stun_on_ipv6 (f : QHostAddress.t * TransportAddress.t * TransportAddress.t)
    : Prop :=
  QHostAddress.protocol (fst (fst f)) = IPv6Protocol ->
  TransportAddress.isValid (snd (fst f)) = false /\ TransportAddress.isValid (snd f) = false.

(** No two transports of the list are on the same address. *)
Definition distinct_addresses (ts : list LocalTransport.t) : Prop :=
  ForallOrdPairs (fun a b => QHostAddress.eqb a b = false) (map LocalTransport.addr ts).

Definition transports_ok (s : Private) : Prop :=
  Forall (known_address (Config.localAddrs (config s))) (map address_facts (udpTransports s))
  /\ Forall no_stun_on_ipv6 (map address_facts (udpTransports s))
  /\ distinct_addresses (udpTransports s).

Definition keeps_transports_ok (s s' : Private) (evs : list Effect) : Prop :=
  transports_ok s -> transports_ok s'.

(** ** Scenarios *)

(** Scenario S4 after the transport has reported the addresses its clients
    discovered: a Host, two ServerReflexive and a Relayed candidate live on
    the one transport. *)
Definition S4_gathered_ops : list Op :=
  [setLocalAddresses [la_192_168_1_5];
   setStunBindService (TransportAddress.mk ip_74_125_1_1 3478);
   setStunRelayUdpService (TransportAddress.mk ip_74_125_1_1 3478) "user" "pass";
   call_update None (binds_to 40000);
   event_loop;
   signal_lt_started 0%nat;
   sock_discovers 0%nat
     (IceLocalTransport.mkDiscovered
        (TransportAddress.mk ip_203_0_113_9 40001) ip_74_125_1_1
        (TransportAddress.mk ip_198_51_100_50 50000) true true);
   signal_lt_addressesChanged 0%nat].

Definition S4_gathered : Result (unit * Private * list Effect) :=
  run S4_gathered_ops (IceComponent 1).

Definition ip_2001_db8_1 : QHostAddress.t :=
  QHostAddress.mk IPv6Protocol 42540766411282592856903984951653826561 EmptyString.

Definition ip_10_0_0_2 : QHostAddress.t := ipv4 167772162.

(** An IPv4 and an IPv6 address (the IPv4 one given twice) with a STUN and
    a TURN service configured, after [update]. *)
Definition dual_stack_ops : list Op :=
  [setLocalAddresses [la_192_168_1_5; LocalAddress.mk ip_2001_db8_1 2 false;
                      la_192_168_1_5; LocalAddress.mk ip_10_0_0_2 3 true];
   setStunBindService (TransportAddress.mk ip_74_125_1_1 3478);
   setStunRelayUdpService (TransportAddress.mk ip_74_125_1_1 3478) "user" "pass";
   call_update None (binds_to 40000)].

Definition dual_stack_updated : Result (unit * Private * list Effect) :=
  run dual_stack_ops (IceComponent 1).

(** [lt] is at place [k] of [l] and is the first transport of [l] whose
    socket is [h]. *)
Definition first_with_handle (h : nat) (l : list LocalTransport.t) (k : nat)
    (lt : LocalTransport.t) : Prop :=
  nth_error l k = Some lt
  /\ LocalTransport.handle lt = h
  /\ forall j x, (j < k)%nat -> nth_error l j = Some x -> LocalTransport.handle x <> h.

(** ** The [localFinished] signal *)

Definition is_localFinished (e : Effect) : bool :=
  match e with
  | Emit q.localFinished => true
  | _ => false
  end.

(** How often [localFinished] is emitted in a list of effects. *)
Definition count_localFinished (evs : list Effect) : Z :=
  Z.of_nat (length (List.filter is_localFinished evs)).

Definition is_defer_localFinished (d : Deferred) : bool :=
  match d with
  | defer_localFinished => true
  | _ => false
  end.

(** How many emissions of [localFinished] are queued. *)
Definition queued_localFinished (s : Private) : Z :=
  Z.of_nat (length (List.filter is_defer_localFinished (sess s))).

(** The flag [localFinished] counts the emissions made and queued. *)
Definition localFinished_counted (s s' : Private) (evs : list Effect) : Prop :=
  count_localFinished evs + Z.b2z (localFinished s) - queued_localFinished s
  = Z.b2z (localFinished s') - queued_localFinished s'.

(** Scenario S1 run to the end of gathering, followed by a second
    [update]. *)
Definition S1_updated_again_ops : list Op :=
  [setLocalAddresses [la_192_168_1_5]; call_update None (binds_to 40000); event_loop;
   signal_lt_started 0%nat; signal_lt_addressesChanged 0%nat;
   call_update None (binds_to 40000); event_loop].

Definition S1_updated_again : Result (unit * Private * list Effect) :=
  run S1_updated_again_ops (IceComponent 1).

(** ** The [stopped] signal *)

Definition is_stopped (e : Effect) : bool :=
  match e with
  | Emit q.stopped => true
  | _ => false
  end.

(** How often [stopped] is emitted in a list of effects. *)
Definition count_stopped (evs : list Effect) : nat :=
  length (List.filter is_stopped evs).

Definition is_defer_postStop (d : Deferred) : bool :=
  match d with
  | defer_postStop => true
  | _ => false
  end.

(** How many calls of [postStop] are queued. *)
Definition queued_postStop (s : Private) : nat :=
  length (List.filter is_defer_postStop (sess s)).

(** A call of [postStop] is queued only while the component is stopping
    and has nothing left to stop, and then only one. *)
Definition stop_pending_ok (s : Private) : Prop :=
  queued_postStop s = 0%nat
  \/ (queued_postStop s = 1%nat /\ stopping s = true /\ allStopped s = true).

Definition keeps_stop_pending_ok (s s' : Private) (evs : list Effect) : Prop :=
  stop_pending_ok s -> stop_pending_ok s'.

(** The slot queues no [postStop], takes none from the queue and leaves the
    flag [stopping] alone. *)
Definition stop_queue_kept (s s' : Private) (evs : list Effect) : Prop :=
  queued_postStop s' = queued_postStop s /\ stopping s' = stopping s.

(** The slot does not emit [stopped] and does not end the stopping. *)
Definition stopped_untouched (s s' : Private) (evs : list Effect) : Prop :=
  count_stopped evs = 0%nat /\ (stopping s = true -> stopping s' = true).

(** The steps that can emit [stopped]. *)
Definition may_stop (op : Op) : bool :=
  match op with
  | signal_lt_stopped _ => true
  | signal_tt_stopped => true
  | event_loop => true
  | _ => false
  end.

(** Scenario S1 with the transport started, then [stop]: the component is
    stopping and waits for its transport. *)
Definition S1_stopping_ops : list Op :=
  [setLocalAddresses [la_192_168_1_5]; call_update None (binds_to 40000); event_loop;
   signal_lt_started 0%nat; call_stop].

Definition S1_stopping : Result (unit * Private * list Effect) :=
  run S1_stopping_ops (IceComponent 1).

(** What a step does about stopping: nothing, or it emits [stopped] once,
    ends the stopping and leaves nothing to stop. *)
Definition stopped_guarded (s s' : Private) (evs : list Effect) : Prop :=
  stopped_untouched s s' evs
  \/ (count_stopped evs = 1%nat /\ stopping s' = false /\ allStopped s' = true).


(** ** Slots that run to completion *)

(** [m] returns from [s]: no assertion fails on the way. *)
Definition returns {A} (m : M A) (s : Private) : Prop :=
  exists a s' evs, m s = Ok (a, s', evs).

(** The static part stays as it is. *)
Definition keeps_static (s s' : Private) (evs : list Effect) : Prop :=
  static s' = static s.

(** What the assertions of the slots need: the component id is in range
    and every local transport is on a configured address whose position is
    a local preference. *)
Definition assertions_hold (s : Private) : Prop :=
  1 <= id s <= 256
  /\ forall lt, In lt (udpTransports s) ->
       0 <= findLocalAddr (LocalTransport.addr lt) s <= 65535.

(** The steps the engine takes on its own: the signals of the child
    objects, the queued calls and the configuration setters; not the public
    methods with a precondition. *)
Definition is_slot (op : Op) : bool :=
  match op with
  | call_update _ _ => false
  | call_stop => false
  | call_flagPathAsLowOverhead _ _ => false
  | call_addLocalPeerReflexiveCandidate _ _ _ => false
  | _ => true
  end.

(** ** What [update] and the erasure of a transport leave alone *)

Definition is_sock_start (e : Effect) : bool :=
  match e with
  | Invoke (sock_start _ _) => true
  | _ => false
  end.

(** The configured local addresses and the set of local transports stay,
    and no transport is started. *)
Definition locals_kept (s s' : Private) (evs : list Effect) : Prop :=
  Config.localAddrs (config s') = Config.localAddrs (config s)
  /\ map LocalTransport.handle (udpTransports s') = map LocalTransport.handle (udpTransports s)
  /\ existsb is_sock_start evs = false.

(** Every local transport has an identity of its own, handed out earlier. *)
Definition handles_ok (s : Private) : Prop :=
  List.NoDup (map LocalTransport.handle (udpTransports s))
  /\ Forall (fun h => (h < nextHandle s)%nat) (map LocalTransport.handle (udpTransports s)).

Definition keeps_handles_ok (s s' : Private) (evs : list Effect) : Prop :=
  handles_ok s -> handles_ok s'.

(** Scenario S1 after [update], with another local address handed in
    afterwards. *)
Definition S1_readdressed_ops : list Op :=
  [setLocalAddresses [la_192_168_1_5]; call_update None (binds_to 40000);
   setLocalAddresses [LocalAddress.mk ip_10_0_0_2 3 true]].

Definition S1_readdressed : Result (unit * Private * list Effect) :=
  run S1_readdressed_ops (IceComponent 1).

(** ** The reading side of the data channel *)

(** The bytes the channel has received and not handed out, in order. *)
Definition pending_bytes (x : WebRTCDataChannel.Inbox) : QByteArray.t :=
  WebRTCDataChannel.tail x ++ concat (WebRTCDataChannel.datagrams x).

(** The chunk [readDataInternal] reads from first, and the datagrams
    queued behind it. *)
Definition next_chunk (x : WebRTCDataChannel.Inbox)
    : option (QByteArray.t * list QByteArray.t) :=
  if QByteArray.isEmpty (WebRTCDataChannel.tail x)
  then match WebRTCDataChannel.datagrams x with
       | dg :: rest => Some (dg, rest)
       | [] => None
       end
  else Some (WebRTCDataChannel.tail x, WebRTCDataChannel.datagrams x).

(** The channel after the messages [datas] came in, in this order, none of
    them with [PPID_DCEP]. *)
Definition incoming (datas : list QByteArray.t) (x : WebRTCDataChannel.Inbox)
    : WebRTCDataChannel.Inbox :=
  fold_left (fun x data => WebRTCDataChannel.onIncomingData data x) datas x.

(** The turns of the loop of [readDataInternal] a state can ask for: one
    for a tail that is not empty, one for every queued datagram. *)
Definition chunks_waiting (x : WebRTCDataChannel.Inbox) : nat :=
  length (WebRTCDataChannel.datagrams x)
  + (if QByteArray.isEmpty (WebRTCDataChannel.tail x) then 0 else 1).

(** No read has ended inside a chunk, and [_bytesAvailable] is the number
    of the bytes queued. *)
Definition counts_the_queue (x : WebRTCDataChannel.Inbox) : Prop :=
  WebRTCDataChannel.tail x = []
  /\ WebRTCDataChannel._bytesAvailable x
     = QByteArray.size (concat (WebRTCDataChannel.datagrams x)).

(** A channel with nothing queued, the messages "hi" and "!" and a buffer
    of four bytes. *)
Definition nothing_queued : WebRTCDataChannel.Inbox := WebRTCDataChannel.mkInbox [] [] 0.

Definition hi_and_bang : list QByteArray.t := [[Byte.x68; Byte.x69]; [Byte.x21]].

Definition four_bytes : QByteArray.t := [Byte.x00; Byte.x00; Byte.x00; Byte.x00].

(** ** The redundancy scan, in the words of the specification *)

(** The stored candidate has the address and the base of [c] and a
    priority that is not lower: [stored] makes [c] redundant. *)
Definition makes_redundant (stored c : Candidate.t) : Prop :=
  TransportAddress.eqb (CandidateInfo.addr (Candidate.info stored))
                       (CandidateInfo.addr (Candidate.info c)) = true
  /\ TransportAddress.eqb (CandidateInfo.base (Candidate.info stored))
                          (CandidateInfo.base (Candidate.info c)) = true
  /\ CandidateInfo.priority (Candidate.info c)
     <= CandidateInfo.priority (Candidate.info stored).

(** The kinds of candidates the scan guards: the server-reflexive and the
    relayed candidates of the local UDP transports. *)
Definition scanned (c : Candidate.t) : bool :=
  match CandidateInfo.type (Candidate.info c) with
  | ServerReflexiveType => true
  | RelayedType =>
      match Candidate.iceTransport c with
      | LocalRef _ => true
      | TurnRef _ => false
      end
  | _ => false
  end.

(** [stored] stands before [later] in the list. *)
Definition stands_before (cs : list Candidate.t) (stored later : Candidate.t) : Prop :=
  exists l1 l2 l3, cs = l1 ++ stored :: l2 ++ later :: l3.

(** No candidate of a scanned kind stands behind a candidate that makes it
    redundant. *)
Definition scanned_not_redundant (cs : list Candidate.t) : Prop :=
  ForallOrdPairs (fun stored later => scanned later = true -> ~ makes_redundant stored later) cs.

(** Whatever pair of a candidate and a later candidate of a scanned kind
    that it makes redundant is found afterwards was there before. *)
Definition stores_after_scan (s s' : Private) (evs : list Effect) : Prop :=
  forall stored later,
    stands_before (localCandidates s') stored later ->
    scanned later = true ->
    makes_redundant stored later ->
    stands_before (localCandidates s) stored later.

(** The candidates are as they were. *)
Definition candidates_kept (s s' : Private) (evs : list Effect) : Prop :=
  localCandidates s' = localCandidates s.

(** Candidates are appended, none is taken out. *)
Definition candidates_grow (s s' : Private) (evs : list Effect) : Prop :=
  exists new, localCandidates s' = localCandidates s ++ new.

(** * Reasoning about slots *)

Arguments bind : simpl never.
Arguments ret : simpl never.
Arguments gets : simpl never.
Arguments modify : simpl never.
Arguments tell : simpl never.
Arguments Q_ASSERT : simpl never.
Arguments when : simpl never.

Section MonadLemmas.
Context {A B : Type}.

Lemma bind_Ok (m : M A) (f : A -> M B) s b s2 evs :
  bind m f s = Ok (b, s2, evs) ->
  exists a s1 e1 e2, m s = Ok (a, s1, e1) /\ f a s1 = Ok (b, s2, e2) /\ evs = e1 ++ e2.
Proof.
  unfold bind. destruct (m s) as [[[a s1] e1]|]; [|discriminate].
  destruct (f a s1) as [[[b' s2'] e2]|] eqn:Hf; [|discriminate].
  intros [= -> -> <-]. exists a, s1, e1, e2. auto.
Qed.

Lemma bind_intro (m : M A) (f : A -> M B) s a s1 e1 r :
  m s = Ok (a, s1, e1) ->
  f a s1 = r ->
  bind m f s = match r with
               | Ok (b, s2, e2) => Ok (b, s2, e1 ++ e2)
               | AssertFailed => AssertFailed
               end.
Proof. unfold bind. intros -> ->. reflexivity. Qed.

Lemma ret_Ok (a a' : A) s s' evs :
  ret a s = Ok (a', s', evs) -> a' = a /\ s' = s /\ evs = [].
Proof. unfold ret. intros [= -> -> <-]. auto. Qed.

Lemma gets_Ok (f : Private -> A) s a s' evs :
  gets f s = Ok (a, s', evs) -> a = f s /\ s' = s /\ evs = [].
Proof. unfold gets. intros [= <- <- <-]. auto. Qed.
End MonadLemmas.

Lemma modify_Ok f s u s' evs :
  modify f s = Ok (u, s', evs) -> s' = f s /\ evs = [].
Proof. unfold modify. intros [= _ <- <-]. auto. Qed.

Lemma tell_Ok e s u s' evs :
  tell e s = Ok (u, s', evs) -> s' = s /\ evs = [e].
Proof. unfold tell. intros [= _ <- <-]. auto. Qed.

Lemma Q_ASSERT_Ok b s u s' evs :
  Q_ASSERT b s = Ok (u, s', evs) -> b = true /\ s' = s /\ evs = [].
Proof. unfold Q_ASSERT. destruct b; [|discriminate]. intros [= _ <- <-]. auto. Qed.

Lemma deref_lt_Ok h s lt s' evs :
  deref_lt h s = Ok (lt, s', evs) ->
  find_lt h (udpTransports s) = Some lt /\ s' = s /\ evs = [].
Proof.
  unfold deref_lt. destruct (find_lt h (udpTransports s)); [|discriminate].
  intros [= <- <- <-]. auto.
Qed.

Lemma deref_tcpTurn_Ok s t s' evs :
  deref_tcpTurn s = Ok (t, s', evs) -> tcpTurn s = Some t /\ s' = s /\ evs = [].
Proof.
  unfold deref_tcpTurn. destruct (tcpTurn s); [|discriminate].
  intros [= <- <- <-]. auto.
Qed.

(** One step of symbolic execution of a hypothesis [m s = Ok _]. *)
Ltac exec_step H :=
  lazymatch type of H with
  | bind _ _ _ = Ok _ =>
      let a := fresh "a" in let s1 := fresh "s" in
      let e1 := fresh "e" in let e2 := fresh "e" in
      let H1 := fresh "Hm" in let H2 := fresh "Hk" in
      apply bind_Ok in H; destruct H as (a & s1 & e1 & e2 & H1 & H2 & ->);
      exec_step H1; exec_step H2
  | ret _ _ = Ok _ =>
      apply ret_Ok in H; destruct H as (? & ? & ?); subst
  | gets _ _ = Ok _ =>
      apply gets_Ok in H; destruct H as (? & ? & ?); subst
  | modify _ _ = Ok _ =>
      apply modify_Ok in H; destruct H as (? & ?); subst
  | tell _ _ = Ok _ =>
      apply tell_Ok in H; destruct H as (? & ?); subst
  | emit _ _ = Ok _ => unfold emit in H; exec_step H
  | invoke _ _ = Ok _ => unfold invoke in H; exec_step H
  | defer _ _ = Ok _ => unfold defer in H; exec_step H
  | assign_lt _ _ _ = Ok _ => unfold assign_lt in H; exec_step H
  | append_candidate _ _ = Ok _ => unfold append_candidate in H; exec_step H
  | Q_ASSERT _ _ = Ok _ =>
      apply Q_ASSERT_Ok in H; destruct H as (? & ? & ?); subst
  | deref_lt _ _ = Ok _ =>
      apply deref_lt_Ok in H; destruct H as (? & ? & ?); subst
  | deref_tcpTurn _ = Ok _ =>
      apply deref_tcpTurn_Ok in H; destruct H as (? & ? & ?); subst
  | when ?b _ _ = Ok _ =>
      unfold when in H; exec_step H
  | (if ?b then _ else _) _ = Ok _ =>
      let Hb := fresh "Hb" in destruct b eqn:Hb; exec_step H
  | (match ?x with Some _ => _ | None => _ end) _ = Ok _ =>
      let Hx := fresh "Hx" in destruct x eqn:Hx; exec_step H
  | (let (_, _) := ?x in _) _ = Ok _ =>
      let Hx := fresh "Hx" in destruct x eqn:Hx; exec_step H
  | _ => idtac
  end.

Ltac exec H :=
  exec_step H;
  repeat match goal with u : unit |- _ => destruct u end;
  simpl in *.

(** ** Integer facts *)

Lemma wrap_int_small z : - 2 ^ 31 <= z < 2 ^ 31 -> wrap_int z = z.
Proof.
  intros Hz. unfold wrap_int, INT_WRAP.
  rewrite Z.mod_small by lia. lia.
Qed.

Lemma calc_priority_Ok typePref localPref componentId s p s' evs :
  calc_priority typePref localPref componentId s = Ok (p, s', evs) ->
  0 <= typePref <= 126 /\ 0 <= localPref <= 65535 /\ 1 <= componentId <= 256
  /\ p = 2 ^ 24 * typePref + 2 ^ 8 * localPref + (256 - componentId)
  /\ s' = s /\ evs = [].
Proof.
  unfold calc_priority. intros H. exec H.
  repeat match goal with
         | H : _ && _ = true |- _ => apply andb_prop in H; destruct H
         | H : (_ <=? _) = true |- _ => apply Z.leb_le in H
         end.
  repeat split; try lia; [].
  change (Z.shiftl 1 24) with (2 ^ 24). change (Z.shiftl 1 8) with (2 ^ 8).
  rewrite (wrap_int_small (2 ^ 24 * typePref)) by lia.
  rewrite (wrap_int_small (2 ^ 8 * localPref)) by lia.
  rewrite (wrap_int_small (256 - componentId)) by lia.
  rewrite (wrap_int_small (2 ^ 24 * typePref + 2 ^ 8 * localPref)) by lia.
  rewrite wrap_int_small by lia. reflexivity.
Qed.

Lemma choose_default_priority_Ok type localPref isVpn componentId s p s' evs :
  choose_default_priority type localPref isVpn componentId s = Ok (p, s', evs) ->
  0 <= localPref <= 65535 /\ 1 <= componentId <= 256
  /\ p = priority_formula (type_pref type isVpn) localPref componentId
  /\ to_quint32 p = p
  /\ s' = s /\ evs = [].
Proof.
  unfold choose_default_priority. intros H.
  apply calc_priority_Ok in H. destruct H as (Ht & Hl & Hc & -> & -> & ->).
  unfold priority_formula, type_pref, to_quint32, INT_WRAP.
  repeat split; try lia.
  apply Z.mod_small. lia.
Qed.

(** ** Equality of addresses *)

Lemma protocol_eqb_refl p : protocol_eqb p p = true.
Proof. destruct p; reflexivity. Qed.

Lemma QHostAddress_eqb_refl a : QHostAddress.eqb a a = true.
Proof. unfold QHostAddress.eqb. rewrite protocol_eqb_refl, Z.eqb_refl. reflexivity. Qed.

Lemma TransportAddress_eqb_refl a : TransportAddress.eqb a a = true.
Proof. unfold TransportAddress.eqb. rewrite QHostAddress_eqb_refl, Z.eqb_refl. reflexivity. Qed.

Lemma QHostAddress_eqb_sym a b : QHostAddress.eqb a b = QHostAddress.eqb b a.
Proof.
  unfold QHostAddress.eqb. rewrite (Z.eqb_sym (QHostAddress.bits a)). f_equal.
  destruct (QHostAddress.protocol a), (QHostAddress.protocol b); reflexivity.
Qed.

Lemma QHostAddress_eqb_trans a b c :
  QHostAddress.eqb a b = true -> QHostAddress.eqb b c = true -> QHostAddress.eqb a c = true.
Proof.
  unfold QHostAddress.eqb. intros Hab Hbc.
  apply andb_prop in Hab. destruct Hab as [Hp1 Hb1].
  apply andb_prop in Hbc. destruct Hbc as [Hp2 Hb2].
  apply Z.eqb_eq in Hb1, Hb2. rewrite Hb1, Hb2, Z.eqb_refl.
  destruct (QHostAddress.protocol a), (QHostAddress.protocol b), (QHostAddress.protocol c);
    try discriminate; reflexivity.
Qed.

(** ** Lists of transports *)

Lemma find_lt_update_lt h f l :
  (forall x, LocalTransport.handle (f x) = LocalTransport.handle x) ->
  find_lt h (update_lt h f l) = option_map f (find_lt h l).
Proof.
  intros Hf. unfold find_lt, update_lt.
  induction l as [|a l IH]; [reflexivity|]. simpl.
  destruct (Nat.eqb (LocalTransport.handle a) h) eqn:Ha.
  - rewrite Hf, Ha. reflexivity.
  - rewrite Ha. exact IH.
Qed.

Lemma find_lt_update_lt_ne h h' f l :
  h <> h' ->
  (forall x, LocalTransport.handle (f x) = LocalTransport.handle x) ->
  find_lt h' (update_lt h f l) = find_lt h' l.
Proof.
  intros Hne Hf. unfold find_lt, update_lt.
  induction l as [|a l IH]; [reflexivity|]. simpl.
  destruct (Nat.eqb (LocalTransport.handle a) h) eqn:Ha.
  - apply Nat.eqb_eq in Ha. rewrite Hf.
    destruct (Nat.eqb (LocalTransport.handle a) h') eqn:Ha'.
    + apply Nat.eqb_eq in Ha'. congruence.
    + exact IH.
  - destruct (Nat.eqb (LocalTransport.handle a) h'); [reflexivity|exact IH].
Qed.

Lemma find_lt_handle h l lt :
  find_lt h l = Some lt -> LocalTransport.handle lt = h.
Proof.
  unfold find_lt. intros H. apply find_some in H. destruct H as [_ H].
  apply Nat.eqb_eq in H. exact H.
Qed.

(** ** The redundancy scan *)

Lemma ForallOrdPairs_snoc {X} (R : X -> X -> Prop) l x :
  ForallOrdPairs R l -> Forall (fun a => R a x) l -> ForallOrdPairs R (l ++ [x]).
Proof.
  induction 1 as [|a l Ha Hl IH]; simpl; intros Hx.
  - constructor; constructor.
  - inversion Hx; subst. constructor.
    + apply Forall_app. split; [assumption|]. constructor; [assumption|constructor].
    + apply IH. assumption.
Qed.

Lemma storeLocalNotReduntantCandidate_eq c s :
  storeLocalNotReduntantCandidate c s =
    match find (redundant_with c) (localCandidates s) with
    | Some _ => Ok (tt, s, [])
    | None => Ok (tt, set_localCandidates (localCandidates s ++ [c]) s, [Emit (q.candidateAdded c)])
    end.
Proof.
  unfold storeLocalNotReduntantCandidate, bind, gets. simpl.
  destruct (find (redundant_with c) (localCandidates s)); reflexivity.
Qed.

Lemma NoRedundant_iff cs : NoRedundant cs <-> no_redundantb cs = true.
Proof.
  unfold NoRedundant. induction cs as [|a l IH]; simpl.
  - split; [reflexivity|constructor].
  - rewrite andb_true_iff, forallb_forall, <- IH. split.
    + intros H. inversion H as [|x y Hx Hy]; subst. split; [|assumption].
      intros b Hb. rewrite List.Forall_forall in Hx. rewrite (Hx b Hb). reflexivity.
    + intros [Hx Hy]. constructor; [|assumption].
      apply List.Forall_forall. intros b Hb. apply negb_true_iff. auto.
Qed.

(** ** Slots and transition relations *)

Section Respects.
Context (T : Private -> Private -> list Effect -> Prop) `{!Transition T}.

Lemma respects_ret {A} (a : A) : respects T (ret a).
Proof. intros s a' s' evs H. exec H. apply transition_refl. Qed.

Lemma respects_gets {A} (f : Private -> A) : respects T (gets f).
Proof. intros s a' s' evs H. exec H. apply transition_refl. Qed.

Lemma respects_Q_ASSERT b : respects T (Q_ASSERT b).
Proof. intros s a' s' evs H. exec H. apply transition_refl. Qed.

Lemma respects_deref_lt h : respects T (deref_lt h).
Proof. intros s a' s' evs H. exec H. apply transition_refl. Qed.

Lemma respects_deref_tcpTurn : respects T deref_tcpTurn.
Proof. intros s a' s' evs H. exec H. apply transition_refl. Qed.

Lemma respects_choose_default_priority type localPref isVpn componentId :
  respects T (choose_default_priority type localPref isVpn componentId).
Proof.
  intros s a' s' evs H. apply choose_default_priority_Ok in H.
  destruct H as (_ & _ & _ & _ & -> & ->). apply transition_refl.
Qed.

Lemma respects_bind {A B} (m : M A) (f : A -> M B) :
  respects T m -> (forall a, respects T (f a)) -> respects T (bind m f).
Proof.
  intros Hm Hf s b s' evs H.
  apply bind_Ok in H. destruct H as (a & s1 & e1 & e2 & H1 & H2 & ->).
  eapply transition_trans; [eapply Hm|eapply Hf]; eassumption.
Qed.

Lemma respects_when b m : respects T m -> respects T (when b m).
Proof. intros Hm. destruct b; [exact Hm|apply respects_ret]. Qed.

Lemma respects_for_each {X} (l : list X) body :
  (forall x, respects T (body x)) -> respects T (for_each l body).
Proof.
  intros Hbody. induction l as [|x l IH]; simpl.
  - apply respects_ret.
  - apply respects_bind; [apply Hbody|intros _; exact IH].
Qed.

Lemma respects_modify f : (forall s, T s (f s) []) -> respects T (modify f).
Proof. intros Hf s a s' evs H. exec H. apply Hf. Qed.

Lemma respects_tell e : (forall s, T s s [e]) -> respects T (tell e).
Proof. intros He s a s' evs H. exec H. apply He. Qed.
End Respects.

Ltac head_of t :=
  lazymatch t with
  | ?f _ => head_of f
  | _ => t
  end.

Create HintDb respects.

(** Walks a slot down to its assignments and emissions; [leaf] closes the
    goals [T s (f s) []] and [T s s [e]] left there. *)
Ltac respects_step leaf :=
  lazymatch goal with
  | |- respects _ (bind _ _) => apply respects_bind; [typeclasses eauto| |intros ?]
  | |- respects _ (ret _) => apply respects_ret; typeclasses eauto
  | |- respects _ (gets _) => apply respects_gets; typeclasses eauto
  | |- respects _ (Q_ASSERT _) => apply respects_Q_ASSERT; typeclasses eauto
  | |- respects _ (deref_lt _) => apply respects_deref_lt; typeclasses eauto
  | |- respects _ deref_tcpTurn => apply respects_deref_tcpTurn; typeclasses eauto
  | |- respects _ (choose_default_priority _ _ _ _) =>
      apply respects_choose_default_priority; typeclasses eauto
  | |- respects _ (when _ _) => apply respects_when; [typeclasses eauto|]
  | |- respects _ (for_each _ _) => apply respects_for_each; [typeclasses eauto|intros ?]
  | |- respects _ (modify _) => apply respects_modify; intros ?; leaf
  | |- respects _ (tell _) => apply respects_tell; intros ?; leaf
  | |- respects _ (emit _) => unfold emit
  | |- respects _ (invoke _) => unfold invoke
  | |- respects _ (defer _) => unfold defer
  | |- respects _ (assign_lt _ _) => unfold assign_lt
  | |- respects _ (append_candidate _) => unfold append_candidate
  | |- respects _ (if ?b then _ else _) => destruct b eqn:?
  | |- respects _ (match ?x with _ => _ end) => destruct x eqn:?
  | |- respects _ ?m =>
      first [ assumption
            | solve [auto with respects]
            | let h := head_of m in unfold h ]
  end.

Ltac respects_with leaf := repeat (respects_step leaf).

(** The loops, for any relation the elementary changes are in. *)
Ltac respects_induction leaf :=
  lazymatch goal with
  | |- forall fuel sock n, respects _ (removeLocalCandidates_from fuel sock n) =>
      intros fuel sock; induction fuel as [|fuel IH]; intros n; simpl;
      [apply respects_ret; typeclasses eauto|];
      respects_with leaf; try apply IH
  | |- forall las socketList bindTo, respects _ (update_localAddrs las socketList bindTo) =>
      intros las socketList bindTo; revert socketList;
      induction las as [|la las IH]; intros socketList; simpl;
      [apply respects_ret; typeclasses eauto|];
      unfold createLocalTransport; respects_with leaf; try apply IH
  | |- forall hs need_doExt, respects _ (update_extAddrs hs need_doExt) =>
      intros hs; induction hs as [|h hs IH]; intros need_doExt; simpl;
      [apply respects_ret; typeclasses eauto|];
      respects_with leaf; try apply IH
  end.

(** ** Gathering completion *)

Lemma count_gatheringComplete_app e1 e2 :
  count_gatheringComplete (e1 ++ e2)
  = (count_gatheringComplete e1 + count_gatheringComplete e2)%nat.
Proof. unfold count_gatheringComplete. rewrite List.filter_app, List.length_app. reflexivity. Qed.

#[global] Instance gathering_untouched_Transition : Transition gathering_untouched.
Proof.
  split.
  - intros s. split; reflexivity.
  - intros s1 s2 s3 e1 e2 [H1 C1] [H2 C2]. split; [congruence|].
    rewrite count_gatheringComplete_app, C1, C2. reflexivity.
Qed.

Ltac untouched_leaf := split; reflexivity.

Lemma untouched_removeLocalCandidates_from :
  forall fuel sock n, respects gathering_untouched (removeLocalCandidates_from fuel sock n).
Proof. respects_induction untouched_leaf. Qed.

Lemma untouched_update_localAddrs :
  forall las socketList bindTo,
    respects gathering_untouched (update_localAddrs las socketList bindTo).
Proof. respects_induction untouched_leaf. Qed.

Lemma untouched_update_extAddrs :
  forall hs need_doExt, respects gathering_untouched (update_extAddrs hs need_doExt).
Proof. respects_induction untouched_leaf. Qed.

#[global] Hint Resolve untouched_removeLocalCandidates_from untouched_update_localAddrs
  untouched_update_extAddrs : respects.

Lemma untouched_ensureExt h addrAt : respects gathering_untouched (ensureExt h addrAt).
Proof. respects_with untouched_leaf. Qed.

Lemma untouched_eraseLocalTransport h : respects gathering_untouched (eraseLocalTransport h).
Proof. respects_with untouched_leaf. Qed.

Lemma forallb_checkFinished ts :
  forallb checkFinished ts = true ->
  forall lt, In lt ts ->
     LocalTransport.started lt = true
     /\ (TransportAddress.isValid
           (IceLocalTransport.stunBindServiceAddress (LocalTransport.sock lt)) = true ->
         LocalTransport.stun_finished lt = true)
     /\ (TransportAddress.isValid
           (IceLocalTransport.stunRelayServiceAddress (LocalTransport.sock lt)) = true ->
         LocalTransport.turn_finished lt = true).
Proof.
  intros H lt Hin. rewrite forallb_forall in H. specialize (H lt Hin).
  unfold checkFinished in H.
  apply andb_prop in H. destruct H as [H Hturn].
  apply andb_prop in H. destruct H as [Hstarted Hstun].
  split; [exact Hstarted|]. split; intros Hv.
  - rewrite Hv in Hstun. exact Hstun.
  - rewrite Hv in Hturn. exact Hturn.
Qed.

Lemma guarded_tryGatheringComplete : respects gathering_guarded tryGatheringComplete.
Proof.
  intros s a s' evs H. unfold tryGatheringComplete in H. exec H.
  - left. split; reflexivity.
  - apply orb_false_elim in Hb. destruct Hb as [Hdone Hwait].
    right. split; [reflexivity|]. split; [assumption|]. split; [reflexivity|]. split.
    + apply forallb_checkFinished. assumption.
    + intros t Ht. unfold tcpTurn_not_started in Hwait. simpl in Ht.
      rewrite Ht in Hwait. apply negb_false_iff in Hwait. exact Hwait.
  - left. split; reflexivity.
Qed.

Lemma guarded_of_untouched {A} (m : M A) :
  respects gathering_untouched m -> respects gathering_guarded m.
Proof. intros Hm s a s' evs H. left. eapply Hm. eassumption. Qed.

Lemma guarded_bind {A B} (m : M A) (f : A -> M B) :
  respects gathering_untouched m ->
  (forall a, respects gathering_guarded (f a)) ->
  respects gathering_guarded (bind m f).
Proof.
  intros Hm Hf s b s' evs H.
  apply bind_Ok in H. destruct H as (a & s1 & e1 & e2 & H1 & H2 & ->).
  apply Hm in H1. destruct H1 as [Hflag Hcount].
  apply Hf in H2. unfold gathering_guarded, gathering_untouched in *.
  rewrite count_gatheringComplete_app, Hcount. simpl.
  destruct H2 as [[Hflag2 Hcount2]|(Hcount2 & Hbefore & Hafter & Hfin)].
  - left. split; [congruence|exact Hcount2].
  - right. split; [exact Hcount2|]. split; [congruence|]. split; assumption.
Qed.

Lemma guarded_when b m : respects gathering_guarded m -> respects gathering_guarded (when b m).
Proof.
  intros Hm. destruct b; [exact Hm|].
  apply guarded_of_untouched. apply respects_ret. typeclasses eauto.
Qed.

Ltac guarded_step :=
  lazymatch goal with
  | |- respects gathering_guarded (bind _ _) =>
      apply guarded_bind; [respects_with untouched_leaf|intros ?]
  | |- respects gathering_guarded tryGatheringComplete => apply guarded_tryGatheringComplete
  | |- respects gathering_guarded (when _ _) => apply guarded_when
  | |- respects gathering_guarded (if ?b then _ else _) => destruct b eqn:?
  | |- respects gathering_guarded (match ?x with _ => _ end) => destruct x eqn:?
  | |- respects gathering_guarded ?m =>
      first [ solve [apply guarded_of_untouched; respects_with untouched_leaf]
            | let h := head_of m in unfold h ]
  end.

Lemma guarded_step_op op : respects gathering_guarded (step op).
Proof.
  destruct op; simpl.
  all: repeat guarded_step.
Qed.

#[global] Instance gathering_counted_Transition : Transition gathering_counted.
Proof.
  split.
  - intros s. reflexivity.
  - intros s1 s2 s3 e1 e2 H1 H2. unfold gathering_counted in *.
    rewrite count_gatheringComplete_app. lia.
Qed.

Lemma counted_of_guarded s s' evs : gathering_guarded s s' evs -> gathering_counted s s' evs.
Proof.
  unfold gathering_counted.
  intros [[Hflag Hcount]|(Hcount & Hbefore & Hafter & _)].
  - rewrite Hflag, Hcount. reflexivity.
  - rewrite Hcount, Hbefore, Hafter. reflexivity.
Qed.

Lemma counted_run ops : respects gathering_counted (run ops).
Proof.
  induction ops as [|op ops IH]; simpl.
  - apply respects_ret. typeclasses eauto.
  - apply respects_bind; [typeclasses eauto| |intros _; exact IH].
    intros s a s' evs H. apply counted_of_guarded. eapply guarded_step_op. eassumption.
Qed.

Lemma count_gatheringComplete_In evs :
  In (Emit q.gatheringComplete) evs -> count_gatheringComplete evs <> 0%nat.
Proof.
  unfold count_gatheringComplete. intros Hin Hlen.
  apply length_zero_iff_nil in Hlen.
  assert (Hf : In (Emit q.gatheringComplete) (List.filter is_gatheringComplete evs)).
  { apply List.filter_In. split; [exact Hin|reflexivity]. }
  rewrite Hlen in Hf. destruct Hf.
Qed.

(** ** The candidates a step emits *)

#[global] Instance emits_ok_Transition s0 : Transition (emits_ok s0).
Proof.
  split.
  - intros s Hs. split; [exact Hs|]. intros c [].
  - intros s1 s2 s3 e1 e2 H1 H2 Hs. destruct (H1 Hs) as [Hs2 Hc1].
    destruct (H2 Hs2) as [Hs3 Hc2]. split; [exact Hs3|].
    intros c Hin. apply in_app_or in Hin. destruct Hin; auto.
Qed.

#[global] Instance emits_none_Transition : Transition emits_none.
Proof.
  split.
  - intros s. reflexivity.
  - intros s1 s2 s3 e1 e2 H1 H2. unfold emits_none in *.
    rewrite existsb_app, H1, H2. reflexivity.
Qed.

#[global] Instance keeps_wf_Transition : Transition keeps_wf.
Proof.
  split.
  - intros s H. exact H.
  - intros s1 s2 s3 e1 e2 H1 H2 H. auto.
Qed.

Lemma map_facts_update_lt h f l :
  (forall x, transport_facts (f x) = transport_facts x) ->
  map transport_facts (update_lt h f l) = map transport_facts l.
Proof.
  intros Hf. unfold update_lt. rewrite map_map. apply map_ext.
  intros a. destruct (Nat.eqb (LocalTransport.handle a) h); [apply Hf|reflexivity].
Qed.

Lemma static_update_lt h f s :
  (forall x, transport_facts (f x) = transport_facts x) ->
  static (set_udpTransports (update_lt h f (udpTransports s)) s) = static s.
Proof. intros Hf. unfold static. simpl. rewrite map_facts_update_lt by exact Hf. reflexivity. Qed.

Lemma find_lt_facts h l l' lt :
  map transport_facts l = map transport_facts l' ->
  find_lt h l = Some lt ->
  exists lt', find_lt h l' = Some lt' /\ transport_facts lt' = transport_facts lt.
Proof.
  unfold find_lt. revert l'. induction l as [|a l IH]; intros [|a' l'] Hmap Hfind;
    simpl in *; try discriminate.
  pose proof (f_equal (hd (transport_facts a)) Hmap) as Ha.
  pose proof (f_equal (@tl _) Hmap) as Hl. simpl in Ha, Hl.
  assert (Hh : LocalTransport.handle a' = LocalTransport.handle a).
  { unfold transport_facts in Ha. congruence. }
  rewrite Hh. destruct (Nat.eqb (LocalTransport.handle a) h).
  - injection Hfind as <-. exists a'. split; [reflexivity|symmetry; exact Ha].
  - apply IH; assumption.
Qed.

Lemma static_find_lt h s s0 lt :
  static s = static s0 ->
  find_lt h (udpTransports s) = Some lt ->
  exists lt0, find_lt h (udpTransports s0) = Some lt0
              /\ transport_facts lt0 = transport_facts lt.
Proof.
  intros Hs. apply find_lt_facts. unfold static in Hs. congruence.
Qed.

Lemma static_findLocalAddr addr s s0 :
  static s = static s0 -> findLocalAddr addr s = findLocalAddr addr s0.
Proof. unfold static, findLocalAddr. intros Hs. congruence. Qed.

Lemma static_id s s0 : static s = static s0 -> id s = id s0.
Proof. unfold static. congruence. Qed.

Lemma static_tcpTurn s s0 : static s = static s0 -> tcpTurn s = tcpTurn s0.
Proof. unfold static. congruence. Qed.

Lemma static_transports_wf s s0 :
  static s = static s0 -> transports_wf (udpTransports s0) -> transports_wf (udpTransports s).
Proof.
  intros Hs Hwf lt Hin.
  assert (Hmap : map transport_facts (udpTransports s) = map transport_facts (udpTransports s0)).
  { unfold static in Hs. congruence. }
  assert (Hf : In (transport_facts lt) (map transport_facts (udpTransports s0))).
  { rewrite <- Hmap. apply in_map. exact Hin. }
  apply in_map_iff in Hf. destruct Hf as (lt0 & Hfacts & Hin0).
  specialize (Hwf lt0 Hin0). unfold transport_facts in Hfacts.
  injection Hfacts as _ Ha _ Hsock. rewrite <- Ha, <- Hsock. exact Hwf.
Qed.

(** The steps that leave the static part alone and emit nothing. *)
Ltac static_leaf :=
  let Hs := fresh "Hs" in
  intros Hs; split;
  [ first [ exact Hs
          | rewrite <- Hs; try reflexivity;
            apply static_update_lt; intros; reflexivity ]
  | let c := fresh "c" in let Hin := fresh "Hin" in
    intros c Hin; simpl in Hin;
    repeat (destruct Hin as [Hin|Hin]; [discriminate|]); destruct Hin ].

Lemma emits_ok_storeLocalNotReduntantCandidate s0 c :
  emitted_ok s0 c -> respects (emits_ok s0) (storeLocalNotReduntantCandidate c).
Proof.
  intros Hc s a s' evs H Hs. rewrite storeLocalNotReduntantCandidate_eq in H.
  destruct (find (redundant_with c) (localCandidates s)); injection H as _ <- <-.
  - split; [exact Hs|]. intros c' [].
  - split; [exact Hs|]. intros c' [Hin|[]]. injection Hin as <-. exact Hc.
Qed.

Lemma findLocalAddr_from_eqb n l a b :
  QHostAddress.eqb a b = true -> findLocalAddr_from n l a = findLocalAddr_from n l b.
Proof.
  intros Hab. revert n. induction l as [|la l IH]; intros n; simpl; [reflexivity|].
  assert (Heq : QHostAddress.eqb (LocalAddress.addr la) a
                = QHostAddress.eqb (LocalAddress.addr la) b).
  { unfold QHostAddress.eqb in *. apply andb_prop in Hab. destruct Hab as [Hp Hb].
    apply Z.eqb_eq in Hb. rewrite Hb. f_equal.
    destruct (QHostAddress.protocol a), (QHostAddress.protocol b); try discriminate;
      reflexivity. }
  rewrite Heq. destruct (QHostAddress.eqb (LocalAddress.addr la) b); [reflexivity|apply IH].
Qed.

Lemma emits_ok_ensureExt s0 h addrAt :
  (forall lt0, find_lt h (udpTransports s0) = Some lt0 ->
               transports_wf (udpTransports s0) ->
               findLocalAddr (LocalTransport.addr lt0) s0 = addrAt) ->
  respects (emits_ok s0) (ensureExt h addrAt).
Proof.
  intros Hat s a s' evs H. unfold ensureExt in H. exec H.
  2:{ apply transition_refl. }
  intros Hs.
  match goal with
  | Hp : choose_default_priority _ _ _ _ _ = Ok _ |- _ =>
      apply choose_default_priority_Ok in Hp;
      destruct Hp as (Hlp & Hcid & -> & Hq & -> & ->)
  end.
  match goal with
  | Hst : storeLocalNotReduntantCandidate ?c _ = Ok _ |- _ =>
      eapply (emits_ok_storeLocalNotReduntantCandidate s0 c) in Hst
  end.
  - simpl. match goal with Hst : emits_ok _ _ _ _ |- _ => apply Hst end.
    rewrite <- Hs. apply static_update_lt. intros; reflexivity.
  - right. simpl.
    match goal with Hf : find_lt _ _ = Some _ |- _ =>
      destruct (static_find_lt _ _ _ _ Hs Hf) as (lt0 & Hf0 & Hfacts) end.
    exists lt0. split; [exact Hf0|]. unfold transport_facts in Hfacts.
    injection Hfacts as Hh Ha Hv Hsock.
    split; [apply static_id; exact Hs|].
    split; [|discriminate].
    intros Hwf. rewrite (Hat lt0 Hf0 Hwf). simpl in Hq. rewrite Hq.
    rewrite (static_id _ _ Hs). split; [lia|reflexivity].
Qed.

Lemma find_lt_In h l lt : find_lt h l = Some lt -> In lt l.
Proof. unfold find_lt. intros H. apply find_some in H. tauto. Qed.

(** Two well-formed transports bound to the same address sit at the same
    place of the list of local addresses. *)
Lemma same_local_same_index s lt li :
  transports_wf (udpTransports s) ->
  In lt (udpTransports s) -> In li (udpTransports s) ->
  TransportAddress.eqb (IceLocalTransport.localAddress (LocalTransport.sock li))
                       (IceLocalTransport.localAddress (LocalTransport.sock lt)) = true ->
  findLocalAddr (LocalTransport.addr li) s = findLocalAddr (LocalTransport.addr lt) s.
Proof.
  intros Hwf Hlt Hli Heq. unfold findLocalAddr. apply findLocalAddr_from_eqb.
  unfold TransportAddress.eqb in Heq. apply andb_prop in Heq. destruct Heq as [Heq _].
  pose proof (Hwf lt Hlt) as Hl. pose proof (Hwf li Hli) as Hi.
  rewrite QHostAddress_eqb_sym in Hi.
  eapply QHostAddress_eqb_trans; [exact Hi|].
  eapply QHostAddress_eqb_trans; [exact Heq|exact Hl].
Qed.

(** A candidate of a local transport, formed with the priority the engine
    computes for it, is as [emitted_ok] says. *)
Lemma emitted_ok_local s0 s h lt type prio n fnd addr base related path :
  static s = static s0 ->
  find_lt h (udpTransports s) = Some lt ->
  0 <= 65535 - findLocalAddr (LocalTransport.addr lt) s <= 65535 ->
  prio = priority_formula (type_pref type (LocalTransport.isVpn lt))
           (65535 - findLocalAddr (LocalTransport.addr lt) s) (id s) ->
  to_quint32 prio = prio ->
  (type = RelayedType ->
   addr = IceLocalTransport.relayedAddress (LocalTransport.sock lt)
   /\ base = IceLocalTransport.relayedAddress (LocalTransport.sock lt)
   /\ related = IceLocalTransport.serverReflexiveAddress (LocalTransport.sock lt)
   /\ path = 1) ->
  emitted_ok s0
    (Candidate.mk n
       (CandidateInfo.mk addr type (to_quint32 prio) fnd (id s) base related
          (LocalTransport.network lt))
       (LocalRef h) path).
Proof.
  intros Hs Hf Hlp Hprio Hq Hrel. right. simpl.
  destruct (static_find_lt _ _ _ _ Hs Hf) as (lt0 & Hf0 & Hfacts).
  unfold transport_facts in Hfacts. injection Hfacts as Hh Ha Hv Hsock.
  exists lt0. split; [exact Hf0|]. split; [apply static_id; exact Hs|].
  rewrite Ha, Hv, Hsock, <- (static_findLocalAddr _ _ _ Hs), <- (static_id _ _ Hs).
  split; [|exact Hrel].
  intros _. rewrite Hq. split; [lia|exact Hprio].
Qed.

Lemma emits_ok_tryGatheringComplete s0 : respects (emits_ok s0) tryGatheringComplete.
Proof. respects_with static_leaf. Qed.

Ltac static_solve :=
  unfold static in *; simpl in *;
  rewrite ?map_facts_update_lt by (intros; reflexivity);
  first [assumption | congruence].

Lemma own_index s0 s h lt :
  static s = static s0 ->
  find_lt h (udpTransports s) = Some lt ->
  forall lt0, find_lt h (udpTransports s0) = Some lt0 ->
              transports_wf (udpTransports s0) ->
              findLocalAddr (LocalTransport.addr lt0) s0
              = findLocalAddr (LocalTransport.addr lt) s.
Proof.
  intros Hs Hf lt0 Hf0 _.
  destruct (static_find_lt _ _ _ _ Hs Hf) as (lt0' & Hf0' & Hfacts).
  rewrite Hf0 in Hf0'. injection Hf0' as <-.
  unfold transport_facts in Hfacts. injection Hfacts as _ Ha _ _.
  rewrite Ha. symmetry. apply static_findLocalAddr. exact Hs.
Qed.

Ltac split_in H :=
  simpl in H;
  lazymatch type of H with
  | In _ (_ ++ _) => apply in_app_or in H; destruct H as [H|H]; split_in H
  | _ \/ _ => destruct H as [H|H]; split_in H
  | False => destruct H
  | Invoke _ = Emit _ => discriminate H
  | Emit _ = Emit _ => first [discriminate H | idtac]
  | _ => idtac
  end.

Ltac use_priority :=
  repeat match goal with
         | Hp : choose_default_priority _ _ _ _ _ = Ok _ |- _ =>
             let Hlp := fresh "Hlp" in let Hcid := fresh "Hcid" in
             let Hq := fresh "Hq" in
             apply choose_default_priority_Ok in Hp;
             destruct Hp as (Hlp & Hcid & -> & Hq & -> & ->)
         end.

(** [findLocalAddr] reads the configuration only. *)
Ltac norm_findLocalAddr :=
  repeat match goal with
         | H : context [findLocalAddr ?a (?f ?v ?s)] |- _ =>
             progress change (findLocalAddr a (f v s)) with (findLocalAddr a s) in H
         | |- context [findLocalAddr ?a (?f ?v ?s)] =>
             progress change (findLocalAddr a (f v s)) with (findLocalAddr a s)
         end.

(** Replaces the hypotheses about the calls left closed by what is known
    of them. *)
Ltac use_calls s0 :=
  repeat match goal with
         | Hk : ensureExt ?h ?addrAt ?sx = Ok (_, ?sy, ?e) |- _ =>
             let Hn := fresh "Hcall" in
             assert (Hn : emits_ok s0 sx sy e)
               by (refine (emits_ok_ensureExt s0 h addrAt _ sx _ sy e Hk);
                   eapply own_index; eassumption);
             clear Hk;
             let Hst := fresh "Hst" in let Hev := fresh "Hev" in
             destruct Hn as [Hst Hev]; [static_solve|]
         | Hk : storeLocalNotReduntantCandidate ?c ?sx = Ok (_, ?sy, ?e),
           Hf : find_lt _ (udpTransports ?ss) = Some ?lt,
           Hss : static ?ss = static s0 |- _ =>
             let Hn := fresh "Hcall" in
             assert (Hn : emits_ok s0 sx sy e)
               by (refine (emits_ok_storeLocalNotReduntantCandidate s0 c _ sx _ sy e Hk);
                   eapply (emitted_ok_local s0 ss _ lt);
                   [ exact Hss | exact Hf | assumption | reflexivity | assumption
                   | first [ discriminate | intros _; repeat split; reflexivity ] ]);
             clear Hk;
             let Hst := fresh "Hst" in let Hev := fresh "Hev" in
             destruct Hn as [Hst Hev]; [static_solve|]
         | Hk : tryGatheringComplete ?sx = Ok (_, ?sy, ?e) |- _ =>
             let Hn := fresh "Hcall" in
             assert (Hn : emits_ok s0 sx sy e)
               by exact (emits_ok_tryGatheringComplete s0 sx _ sy e Hk);
             clear Hk;
             let Hst := fresh "Hst" in let Hev := fresh "Hev" in
             destruct Hn as [Hst Hev]; [static_solve|]
         end.

(** Closes the goal for a candidate of a local transport formed in the
    slot itself. *)
Ltac local_candidate s0 s Hin :=
  injection Hin as <-;
  eapply (emitted_ok_local s0 s);
  [ eassumption
  | eassumption
  | assumption
  | reflexivity
  | assumption
  | first [ discriminate | intros _; repeat split; reflexivity ] ].

Lemma emits_ok_lt_started s0 h : respects (emits_ok s0) (lt_started h).
Proof.
  intros s a s' evs H Hs. unfold lt_started in H. exec H.
  all: norm_findLocalAddr.
  all: use_priority.
  all: use_calls s0.
  all: split; [static_solve|].
  all: intros c Hin; split_in Hin; auto.
  all: local_candidate s0 s Hin.
Qed.

Lemma emits_ok_tt_started s0 : respects (emits_ok s0) tt_started.
Proof.
  intros s a s' evs H Hs. unfold tt_started in H. exec H.
  use_priority. use_calls s0.
  split; [static_solve|].
  intros c Hin; split_in Hin; auto.
  injection Hin as <-. right. simpl.
  match goal with Ht : tcpTurn s = Some ?t |- _ => exists t end.
  rewrite <- (static_tcpTurn _ _ Hs), <- (static_id _ _ Hs).
  simpl in *. repeat split; try assumption; try reflexivity.
Qed.

Lemma emits_ok_addLocalPeerReflexiveCandidate s0 addr base priority :
  respects (emits_ok s0) (addLocalPeerReflexiveCandidate addr base priority).
Proof.
  intros s a s' evs H Hs. unfold addLocalPeerReflexiveCandidate in H. exec H.
  - split; [static_solve|]. intros c Hin; split_in Hin. injection Hin as <-. left. reflexivity.
  - discriminate.
Qed.

Lemma inherit_index s0 s s2 h i lt li :
  static s = static s0 -> static s2 = static s0 ->
  find_lt h (udpTransports s) = Some lt ->
  find_lt i (udpTransports s2) = Some li ->
  TransportAddress.eqb (IceLocalTransport.localAddress (LocalTransport.sock li))
                       (IceLocalTransport.localAddress (LocalTransport.sock lt)) = true ->
  forall li0, find_lt i (udpTransports s0) = Some li0 ->
              transports_wf (udpTransports s0) ->
              findLocalAddr (LocalTransport.addr li0) s0
              = findLocalAddr (LocalTransport.addr lt) s.
Proof.
  intros Hs Hs2 Hf Hfi Heq li0 Hfi0 Hwf.
  destruct (static_find_lt _ _ _ _ Hs Hf) as (lt0 & Hf0 & Hfacts).
  destruct (static_find_lt _ _ _ _ Hs2 Hfi) as (li0' & Hfi0' & Hfactsi).
  rewrite Hfi0 in Hfi0'. injection Hfi0' as <-.
  unfold transport_facts in Hfacts, Hfactsi.
  injection Hfacts as _ Ha _ Hsock. injection Hfactsi as _ Hai _ Hsocki.
  rewrite <- Ha, (static_findLocalAddr _ _ _ Hs).
  apply same_local_same_index; try assumption.
  - eapply find_lt_In; eassumption.
  - eapply find_lt_In; eassumption.
  - rewrite Hsock, Hsocki. exact Heq.
Qed.

(** The loop of [lt_addressesChanged] that hands the server-reflexive
    address to the transports bound to the same local address. *)
Lemma emits_ok_inherit s0 s h lt hs ext :
  static s = static s0 ->
  find_lt h (udpTransports s) = Some lt ->
  respects (emits_ok s0)
    (for_each hs (fun i =>
       do li <- deref_lt i;
       when (QHostAddress.isNull (LocalTransport.extAddr li)
             && TransportAddress.eqb
                  (IceLocalTransport.localAddress (LocalTransport.sock li))
                  (IceLocalTransport.localAddress (LocalTransport.sock lt)))
            (assign_lt i (LocalTransport.set_extAddr ext);;
             when (LocalTransport.started li)
                  (ensureExt i (findLocalAddr (LocalTransport.addr lt) s))))).
Proof.
  intros Hs Hf. apply respects_for_each; [typeclasses eauto|].
  intros i s2 a s2' evs H Hs2. exec H.
  - match goal with Hc : _ && _ = true |- _ => apply andb_prop in Hc; destruct Hc as [_ Heq] end.
    match goal with
    | Hk : ensureExt ?i ?addrAt ?sx = Ok (_, ?sy, ?e) |- _ =>
        assert (Hn : emits_ok s0 sx sy e)
          by (refine (emits_ok_ensureExt s0 i addrAt _ sx _ sy e Hk);
              eapply inherit_index; eassumption)
    end.
    destruct Hn as [Hst Hev]; [static_solve|].
    split; [exact Hst|]. intros c Hin. split_in Hin. auto.
  - split; [static_solve|]. intros c Hin. split_in Hin.
  - split; [static_solve|]. intros c Hin. split_in Hin.
Qed.

Lemma emits_ok_deferred_ensureExt s0 : respects (emits_ok s0) deferred_ensureExt.
Proof.
  unfold deferred_ensureExt.
  apply respects_bind; [typeclasses eauto|apply respects_gets; typeclasses eauto|].
  intros [|]; [apply respects_ret; typeclasses eauto|].
  apply respects_bind; [typeclasses eauto|apply respects_gets; typeclasses eauto|].
  intros ts. apply respects_for_each; [typeclasses eauto|].
  intros h s a s' evs H Hs. exec H.
  - norm_findLocalAddr. use_calls s0. split; [static_solve|].
    intros c Hin. split_in Hin. auto.
  - split; [static_solve|]. intros c Hin. split_in Hin.
Qed.

Lemma emits_ok_lt_addressesChanged s0 h : respects (emits_ok s0) (lt_addressesChanged h).
Proof.
  intros s a s' evs H Hs. unfold lt_addressesChanged in H. exec H.
  all: norm_findLocalAddr.
  all: use_priority.
  all: repeat match goal with
       | Hk : for_each ?hs _ ?sx = Ok (_, ?sy, ?e),
         Hf : find_lt ?hh (udpTransports ?ss) = Some ?lt,
         Hss : static ?ss = static _ |- _ =>
           let Hn := fresh "Hcall" in
           assert (Hn : emits_ok s0 sx sy e)
             by exact (emits_ok_inherit s0 ss hh lt hs _ Hss Hf sx _ sy e Hk);
           clear Hk;
           let Hst := fresh "Hst" in let Hev := fresh "Hev" in
           destruct Hn as [Hst Hev]; [static_solve|]
       end.
  all: use_calls s0.
  all: split; [static_solve|].
  all: intros c Hin; split_in Hin; auto.
Qed.

Ltac none_leaf := reflexivity.

Lemma none_removeLocalCandidates_from :
  forall fuel sock n, respects emits_none (removeLocalCandidates_from fuel sock n).
Proof. respects_induction none_leaf. Qed.

Lemma none_update_localAddrs :
  forall las socketList bindTo, respects emits_none (update_localAddrs las socketList bindTo).
Proof. respects_induction none_leaf. Qed.

Lemma none_update_extAddrs :
  forall hs need_doExt, respects emits_none (update_extAddrs hs need_doExt).
Proof. respects_induction none_leaf. Qed.

#[global] Hint Resolve none_removeLocalCandidates_from none_update_localAddrs
  none_update_extAddrs : respects.

Lemma none_step op : may_emit op = false -> respects emits_none (step op).
Proof.
  destruct op; simpl; intros Hop; try discriminate.
  all: respects_with none_leaf.
Qed.

Lemma emits_ok_step s0 op : may_emit op = true -> respects (emits_ok s0) (step op).
Proof.
  destruct op; simpl; intros Hop; try discriminate.
  - apply emits_ok_addLocalPeerReflexiveCandidate.
  - unfold connected_lt.
    apply respects_bind; [typeclasses eauto|apply respects_gets; typeclasses eauto|].
    intros found. apply respects_when; [typeclasses eauto|]. apply emits_ok_lt_started.
  - unfold connected_lt.
    apply respects_bind; [typeclasses eauto|apply respects_gets; typeclasses eauto|].
    intros found. apply respects_when; [typeclasses eauto|]. apply emits_ok_lt_addressesChanged.
  - unfold connected_tcpTurn.
    apply respects_bind; [typeclasses eauto|apply respects_gets; typeclasses eauto|].
    intros found. apply respects_when; [typeclasses eauto|]. apply emits_ok_tt_started.
  - apply respects_bind; [typeclasses eauto|apply respects_gets; typeclasses eauto|].
    intros [|d rest]; [apply respects_ret; typeclasses eauto|].
    apply respects_bind; [typeclasses eauto| |intros _].
    + apply respects_modify. intros s. static_leaf.
    + destruct d; simpl.
      * respects_with static_leaf.
      * apply emits_ok_tryGatheringComplete.
      * respects_with static_leaf.
      * apply emits_ok_deferred_ensureExt.
Qed.

(** Every candidate a step emits is as [emitted_ok] says, in terms of the
    state the step started from. *)
Lemma step_emitted_ok s op s' evs c :
  step op s = Ok (tt, s', evs) ->
  In (Emit (q.candidateAdded c)) evs ->
  emitted_ok s c.
Proof.
  intros H Hin. destruct (may_emit op) eqn:Hop.
  - apply (emits_ok_step s op Hop) in H. destruct (H eq_refl) as [_ Hev]. auto.
  - apply (none_step op Hop) in H. unfold emits_none in H.
    assert (Ht : existsb is_candidateAdded evs = true).
    { apply existsb_exists. exists (Emit (q.candidateAdded c)). split; [exact Hin|reflexivity]. }
    congruence.
Qed.

(** ** The invariants of the reachable states *)

Lemma transports_wf_update_lt h f l :
  (forall x, LocalTransport.addr (f x) = LocalTransport.addr x
             /\ IceLocalTransport.localAddress (LocalTransport.sock (f x))
                = IceLocalTransport.localAddress (LocalTransport.sock x)) ->
  transports_wf l -> transports_wf (update_lt h f l).
Proof.
  intros Hf Hwf lt Hin. unfold update_lt in Hin. apply in_map_iff in Hin.
  destruct Hin as (x & Hx & Hin). specialize (Hwf x Hin).
  destruct (Nat.eqb (LocalTransport.handle x) h); subst lt; [|exact Hwf].
  destruct (Hf x) as [-> ->]. exact Hwf.
Qed.

Lemma removeOne_incl h l lt : In lt (removeOne h l) -> In lt l.
Proof.
  induction l as [|a l IH]; simpl; [tauto|].
  destruct (Nat.eqb (LocalTransport.handle a) h); [tauto|].
  intros [Hin|Hin]; [left; exact Hin|right; apply IH; exact Hin].
Qed.

Lemma transports_wf_removeOne h l : transports_wf l -> transports_wf (removeOne h l).
Proof. intros Hwf lt Hin. apply Hwf. eapply removeOne_incl. eassumption. Qed.

Lemma transports_wf_snoc l lt :
  transports_wf l ->
  QHostAddress.eqb
    (TransportAddress.addr (IceLocalTransport.localAddress (LocalTransport.sock lt)))
    (LocalTransport.addr lt) = true ->
  transports_wf (l ++ [lt]).
Proof.
  intros Hwf Hlt x Hin. apply in_app_or in Hin. destruct Hin as [Hin|[<-|[]]]; auto.
Qed.

Lemma takeFromSocketList_Some l addr qsock l' :
  takeFromSocketList l addr = Some (qsock, l') ->
  QHostAddress.eqb (QUdpSocket.localAddress qsock) addr = true.
Proof.
  revert l'. induction l as [|x l IH]; intros l' H; simpl in H; [discriminate|].
  destruct (QHostAddress.eqb (QUdpSocket.localAddress x) addr) eqn:Hx.
  - injection H as <- _. exact Hx.
  - destruct (takeFromSocketList l addr) as [[y l'']|]; [|discriminate].
    injection H as <- _. eapply IH. reflexivity.
Qed.

Lemma configure_sock_localAddress s lt qsock :
  IceLocalTransport.localAddress (configure_sock s lt qsock)
  = TransportAddress.mk (QUdpSocket.localAddress qsock) (QUdpSocket.localPort qsock).
Proof. reflexivity. Qed.



Ltac wf_leaf :=
  let Hwf := fresh "Hwf" in
  intros Hwf; simpl;
  first [ exact Hwf
        | apply transports_wf_update_lt; [intros; split; reflexivity|exact Hwf]
        | apply transports_wf_removeOne; exact Hwf ].

Lemma wf_removeLocalCandidates_from :
  forall fuel sock n, respects keeps_wf (removeLocalCandidates_from fuel sock n).
Proof. respects_induction wf_leaf. Qed.

Lemma wf_update_extAddrs :
  forall hs need_doExt, respects keeps_wf (update_extAddrs hs need_doExt).
Proof. respects_induction wf_leaf. Qed.

Lemma bound_socket_address (taken : option (QUdpSocket.t * list QUdpSocket.t))
    (bindTo : QHostAddress.t -> option Z) addr t b :
  (forall q l', taken = Some (q, l') ->
                QHostAddress.eqb (QUdpSocket.localAddress q) addr = true) ->
  match taken with
  | Some (qsock, _) => Some (qsock, true)
  | None =>
      match bindTo addr with
      | Some port => Some (QUdpSocket.mk addr port, false)
      | None => None
      end
  end = Some (t, b) ->
  QHostAddress.eqb (QUdpSocket.localAddress t) addr = true.
Proof.
  intros Htaken H. destruct taken as [[q l']|].
  - injection H as <- _. eapply Htaken. reflexivity.
  - destruct (bindTo addr); [|discriminate]. injection H as <- _.
    apply QHostAddress_eqb_refl.
Qed.

Lemma wf_update_localAddrs :
  forall las socketList bindTo, respects keeps_wf (update_localAddrs las socketList bindTo).
Proof.
  intros las socketList bindTo. revert socketList.
  induction las as [|la las IH]; intros socketList s a s' evs H Hwf; simpl in H.
  - exec H. exact Hwf.
  - unfold createLocalTransport in H. exec H.
    all: match goal with
         | Hrec : update_localAddrs _ _ _ _ = Ok _ |- _ => apply IH in Hrec; apply Hrec
         end.
    all: simpl; try exact Hwf.
    apply transports_wf_snoc; [exact Hwf|]. simpl.
    match goal with
    | Hx : _ = Some (?t, ?b) |- _ => eapply bound_socket_address; [|exact Hx]
    end.
    intros q l' Htaken. destruct socketList as [l|]; [|discriminate].
    destruct (useLocal s); [|discriminate].
    eapply takeFromSocketList_Some. exact Htaken.
Qed.

#[global] Hint Resolve wf_removeLocalCandidates_from wf_update_extAddrs
  wf_update_localAddrs : respects.

Lemma wf_step op : respects keeps_wf (step op).
Proof.
  destruct op; simpl.
  all: respects_with wf_leaf.
Qed.

#[global] Instance keeps_id_Transition : Transition keeps_id.
Proof.
  split.
  - intros s. reflexivity.
  - intros s1 s2 s3 e1 e2 H1 H2. unfold keeps_id in *. congruence.
Qed.

Ltac id_leaf := reflexivity.

Lemma id_removeLocalCandidates_from :
  forall fuel sock n, respects keeps_id (removeLocalCandidates_from fuel sock n).
Proof. respects_induction id_leaf. Qed.

Lemma id_update_localAddrs :
  forall las socketList bindTo, respects keeps_id (update_localAddrs las socketList bindTo).
Proof. respects_induction id_leaf. Qed.

Lemma id_update_extAddrs :
  forall hs need_doExt, respects keeps_id (update_extAddrs hs need_doExt).
Proof. respects_induction id_leaf. Qed.

#[global] Hint Resolve id_removeLocalCandidates_from id_update_localAddrs
  id_update_extAddrs : respects.

Lemma id_step op : respects keeps_id (step op).
Proof.
  destruct op; simpl.
  all: respects_with id_leaf.
Qed.

Lemma reachable_invariant cid s :
  reachable cid s -> transports_wf (udpTransports s) /\ id s = cid.
Proof.
  induction 1 as [|s op s' evs Hreach [Hwf Hid] Hstep].
  - split; [intros lt []|reflexivity].
  - split.
    + eapply wf_step; eassumption.
    + rewrite <- Hid. eapply id_step. eassumption.
Qed.

Lemma reachable_run cid s ops s' evs :
  reachable cid s -> run ops s = Ok (tt, s', evs) -> reachable cid s'.
Proof.
  intros Hreach. revert s evs Hreach.
  induction ops as [|op ops IH]; intros s evs Hreach H; simpl in H.
  - exec H. exact Hreach.
  - apply bind_Ok in H. destruct H as ([] & s1 & e1 & e2 & H1 & H2 & ->).
    eapply IH; [|exact H2]. eapply reachable_step; eassumption.
Qed.

(** [findLocalAddr] yields a position of the list of local addresses. *)
Lemma findLocalAddr_from_position n l addr :
  findLocalAddr_from n l addr <> -1 -> 0 <= n ->
  n <= findLocalAddr_from n l addr
  /\ exists la, nth_error l (Z.to_nat (findLocalAddr_from n l addr - n)) = Some la
                /\ QHostAddress.eqb (LocalAddress.addr la) addr = true.
Proof.
  revert n. induction l as [|x l IH]; intros n Hfound Hn; simpl in *; [congruence|].
  destruct (QHostAddress.eqb (LocalAddress.addr x) addr) eqn:Hx.
  - split; [lia|]. exists x. rewrite Z.sub_diag. simpl. auto.
  - destruct (IH (n + 1) Hfound ltac:(lia)) as (Hle & la & Hnth & Hla).
    split; [lia|]. exists la. split; [|exact Hla].
    replace (findLocalAddr_from (n + 1) l addr - n)
      with (Z.succ (findLocalAddr_from (n + 1) l addr - (n + 1))) by lia.
    rewrite Z2Nat.inj_succ by lia. simpl. exact Hnth.
Qed.

(** ** External addresses *)

Lemma none_tryGatheringComplete : respects emits_none tryGatheringComplete.
Proof. respects_with none_leaf. Qed.

(** What [ensureExt] does for a transport with an external address not yet
    reported. *)
Lemma ensureExt_Ok h addrAt s lt s' evs :
  ensureExt h addrAt s = Ok (tt, s', evs) ->
  find_lt h (udpTransports s) = Some lt ->
  QHostAddress.isNull (LocalTransport.extAddr lt) = false ->
  LocalTransport.ext_finished lt = false ->
  exists c,
    Candidate.iceTransport c = LocalRef h
    /\ Candidate.path c = 0
    /\ CandidateInfo.type (Candidate.info c) = ServerReflexiveType
    /\ CandidateInfo.addr (Candidate.info c)
       = TransportAddress.mk (LocalTransport.extAddr lt)
           (TransportAddress.port (IceLocalTransport.localAddress (LocalTransport.sock lt)))
    /\ CandidateInfo.base (Candidate.info c)
       = IceLocalTransport.localAddress (LocalTransport.sock lt)
    /\ CandidateInfo.related (Candidate.info c)
       = IceLocalTransport.localAddress (LocalTransport.sock lt)
    /\ evs = match find (redundant_with c) (localCandidates s) with
             | Some _ => []
             | None => [Emit (q.candidateAdded c)]
             end.
Proof.
  intros H Hf Hnull Hfin. unfold ensureExt in H. exec H.
  - match goal with Hf' : find_lt _ _ = Some _ |- _ => rewrite Hf in Hf'; injection Hf' as <- end.
    use_priority.
    match goal with
    | Hst : storeLocalNotReduntantCandidate ?c _ = Ok _ |- _ =>
        exists c; rewrite storeLocalNotReduntantCandidate_eq in Hst; simpl in Hst
    end.
    repeat (split; [reflexivity|]).
    simpl in *.
    match goal with
    | Hst : match find ?f ?l with _ => _ end = Ok _ |- _ =>
        destruct (find f l); injection Hst; intros; subst; reflexivity
    end.
  - match goal with Hf' : find_lt _ _ = Some _ |- _ => rewrite Hf in Hf'; injection Hf' as <- end.
    rewrite Hnull, Hfin in *. discriminate.
Qed.

(** ** Channel peers *)

#[global] Instance peers_follow_removals_Transition : Transition peers_follow_removals.
Proof.
  split.
  - intros s. split; [intros k|]; reflexivity.
  - intros s1 s2 s3 e1 e2 [H1 A1] [H2 A2]. split.
    + intros k. rewrite H2, H1, existsb_app.
      destruct (existsb (is_removed_id k) e1), (existsb (is_removed_id k) e2); reflexivity.
    + rewrite existsb_app, A1, A2. reflexivity.
Qed.

Ltac peers_leaf := split; [intros ?k|]; reflexivity.

Lemma peers_removeLocalCandidates_from :
  forall fuel sock n, respects peers_follow_removals (removeLocalCandidates_from fuel sock n).
Proof.
  intros fuel sock. induction fuel as [|fuel IH]; intros n s a s' evs H; simpl in H.
  - exec H. apply transition_refl.
  - exec H.
    all: try match goal with
             | Hrec : removeLocalCandidates_from _ _ _ _ = Ok _ |- _ =>
                 apply IH in Hrec; rename Hrec into Hk
             end.
    + destruct Hk as [Hk Hadd]. split.
      * intros k. rewrite Hk. simpl.
        match goal with |- context [Candidate.id ?x =? k] => rename x into c end.
        destruct (Candidate.id c =? k) eqn:Hid; simpl.
        -- apply Z.eqb_eq in Hid. subst k. rewrite lookup_delete_eq.
           match goal with |- context [existsb ?f ?l] => destruct (existsb f l) end;
             reflexivity.
        -- apply Z.eqb_neq in Hid. rewrite lookup_delete_ne by exact Hid. reflexivity.
      * exact Hadd.
    + exact Hk.
    + apply transition_refl.
Qed.

Lemma peers_update_localAddrs :
  forall las socketList bindTo,
    respects peers_follow_removals (update_localAddrs las socketList bindTo).
Proof. respects_induction peers_leaf. Qed.

Lemma peers_update_extAddrs :
  forall hs need_doExt, respects peers_follow_removals (update_extAddrs hs need_doExt).
Proof. respects_induction peers_leaf. Qed.

#[global] Hint Resolve peers_removeLocalCandidates_from peers_update_localAddrs
  peers_update_extAddrs : respects.

Lemma peers_step op :
  is_flagPathAsLowOverhead op = false -> respects peers_follow_removals (step op).
Proof.
  destruct op; simpl; intros Hop; try discriminate.
  all: respects_with peers_leaf.
Qed.

Lemma set_channelPeers_same s : set_channelPeers (channelPeers s) s = s.
Proof. destruct s; reflexivity. Qed.

Lemma QSet_contains_snoc addr l : QSet_contains addr (l ++ [addr]) = true.
Proof.
  unfold QSet_contains. rewrite existsb_app. simpl.
  rewrite TransportAddress_eqb_refl. apply orb_true_iff. right. reflexivity.
Qed.

Lemma QSet_contains_nil addr : QSet_contains addr [] = false.
Proof. reflexivity. Qed.

(** What [flagPathAsLowOverhead] does. *)
Lemma flagPathAsLowOverhead_Ok cid addr s s' evs :
  flagPathAsLowOverhead cid addr s = Ok (tt, s', evs) ->
  exists c,
    find (fun c => Candidate.id c =? cid) (localCandidates s) = Some c
    /\ Candidate.id c = cid
    /\ let addrs := default [] (channelPeers s !! cid) in
       if QSet_contains addr addrs
       then s' = s /\ evs = []
       else s' = set_channelPeers (<[cid := addrs ++ [addr]]> (channelPeers s)) s
            /\ evs = [Invoke (iceTransport_addChannelPeer (Candidate.iceTransport c) addr)].
Proof.
  intros H. unfold flagPathAsLowOverhead in H. exec H; [| |discriminate].
  all: match goal with
       | Hf : find _ _ = Some ?c |- _ =>
           exists c; split; [reflexivity|];
           apply find_some in Hf; destruct Hf as [_ Hid]; apply Z.eqb_eq in Hid;
           split; [exact Hid|]; rewrite <- Hid
       end.
  all: match goal with Hq : QHash_index _ _ = _ |- _ => unfold QHash_index in Hq end.
  all: match goal with
       | Hq : context [channelPeers ?st !! ?k] |- _ =>
           destruct (channelPeers st !! k) as [v|] eqn:Hlook; simpl;
           injection Hq as <- <-
       end.
  all: try match goal with Hc : QSet_contains _ _ = _ |- _ => rewrite Hc end.
  - split; [apply set_channelPeers_same|reflexivity].
  - discriminate.
  - split; reflexivity.
  - split; [|reflexivity]. f_equal. apply insert_insert_eq.
Qed.

Lemma flagPathAsLowOverhead_repeat cid addr s c :
  find (fun c => Candidate.id c =? cid) (localCandidates s) = Some c ->
  QSet_contains addr (default [] (channelPeers s !! cid)) = true ->
  flagPathAsLowOverhead cid addr s = Ok (tt, s, []).
Proof.
  intros Hfind Hc.
  assert (Hid : Candidate.id c = cid).
  { apply find_some in Hfind. destruct Hfind as [_ Hid]. apply Z.eqb_eq in Hid. exact Hid. }
  unfold flagPathAsLowOverhead, bind, gets. simpl. rewrite Hfind. simpl.
  unfold QHash_index. rewrite Hid.
  destruct (channelPeers s !! cid) as [v|] eqn:Hlook; simpl in Hc.
  - simpl. rewrite Hc. unfold modify. rewrite set_channelPeers_same. reflexivity.
  - discriminate.
Qed.

Lemma existsb_is_removed_id k evs :
  existsb (is_removed_id k) evs = true
  <-> exists c, In (Emit (q.candidateRemoved c)) evs /\ Candidate.id c = k.
Proof.
  rewrite existsb_exists. split.
  - intros (e & Hin & He). destruct e as [[c|c| | | |]|]; try discriminate.
    exists c. split; [exact Hin|]. apply Z.eqb_eq. exact He.
  - intros (c & Hin & Hid). exists (Emit (q.candidateRemoved c)). split; [exact Hin|].
    simpl. apply Z.eqb_eq. exact Hid.
Qed.

(** * Lemmas about the helpers of the engine *)

(** ** [getId] *)

Lemma getId_from_spec fuel n cs :
  let r := getId_from fuel n cs in
  n <= r <= n + Z.of_nat fuel
  /\ (forall k, n <= k < r -> existsb (fun c => Candidate.id c =? k) cs = true)
  /\ (r < n + Z.of_nat fuel -> existsb (fun c => Candidate.id c =? r) cs = false).
Proof.
  revert n. induction fuel as [|fuel IH]; intros n; cbn zeta.
  - simpl. repeat split; try lia; intros; lia.
  - cbn [getId_from].
    destruct (existsb (fun c => Candidate.id c =? n) cs) eqn:Hn.
    + specialize (IH (n + 1)). cbn zeta in IH. destruct IH as (Hr & Hbelow & Hfresh).
      split; [lia|]. split.
      * intros k Hk. destruct (Z.eq_dec k n) as [->|Hne]; [exact Hn|]. apply Hbelow. lia.
      * intros Hlt. apply Hfresh. lia.
    + split; [lia|]. split; [intros; lia|]. intros _. exact Hn.
Qed.

(** When every number below [m] is the id of a candidate there are at
    least [m] candidates. *)
Lemma ids_below_bound (cs : list Candidate.t) (m : nat) :
  (forall k, 0 <= k < Z.of_nat m -> existsb (fun c => Candidate.id c =? k) cs = true) ->
  (m <= length cs)%nat.
Proof.
  intros Hall.
  assert (Hincl : incl (map Z.of_nat (seq 0 m)) (map Candidate.id cs)).
  { intros k Hk. apply in_map_iff in Hk. destruct Hk as (i & <- & Hi).
    apply in_seq in Hi. specialize (Hall (Z.of_nat i) ltac:(lia)).
    apply existsb_exists in Hall. destruct Hall as (c & Hc & Heq).
    apply Z.eqb_eq in Heq. rewrite <- Heq. apply in_map. exact Hc. }
  assert (Hnd : List.NoDup (map Z.of_nat (seq 0 m))).
  { generalize (seq_NoDup m 0). generalize (seq 0 m) as l.
    induction l as [|x l IHl]; simpl; intros Hl; [constructor|].
    inversion Hl as [|x' l' Hx Hl']; subst. constructor; [|auto].
    rewrite in_map_iff. intros (y & Hy & Hin). apply Nat2Z.inj in Hy. subst y. auto. }
  pose proof (List.NoDup_incl_length Hnd Hincl) as Hlen.
  rewrite !length_map, length_seq in Hlen. exact Hlen.
Qed.

Lemma getId_spec s :
  0 <= getId s
  /\ existsb (fun c => Candidate.id c =? getId s) (localCandidates s) = false
  /\ (forall k, 0 <= k < getId s ->
        existsb (fun c => Candidate.id c =? k) (localCandidates s) = true).
Proof.
  unfold getId.
  pose proof (getId_from_spec (S (length (localCandidates s))) 0 (localCandidates s)) as H.
  cbn zeta in H. destruct H as (Hr & Hbelow & Hfresh).
  split; [lia|]. split; [|exact Hbelow].
  apply Hfresh.
  destruct (Z_lt_ge_dec (getId_from (S (length (localCandidates s))) 0 (localCandidates s))
                        (0 + Z.of_nat (S (length (localCandidates s))))) as [Hlt|Hge];
    [exact Hlt|].
  exfalso.
  assert (Hm : (S (length (localCandidates s)) <= length (localCandidates s))%nat).
  { apply ids_below_bound. intros k Hk. apply Hbelow. lia. }
  lia.
Qed.

Lemma getId_fresh s c : In c (localCandidates s) -> Candidate.id c <> getId s.
Proof.
  intros Hin Heq. destruct (getId_spec s) as (_ & Hfresh & _).
  assert (Ht : existsb (fun c => Candidate.id c =? getId s) (localCandidates s) = true).
  { apply existsb_exists. exists c. split; [exact Hin|]. apply Z.eqb_eq. exact Heq. }
  congruence.
Qed.

(** ** [removeLocalCandidates] *)

Lemma set_candidates_peers_same s cs cp :
  localCandidates s = cs -> channelPeers s = cp ->
  set_channelPeers cp (set_localCandidates cs s) = s.
Proof. intros <- <-. destruct s. reflexivity. Qed.

Lemma removeLocalCandidates_from_eq sock fuel :
  forall rest pre s,
    localCandidates s = pre ++ rest ->
    (length rest <= fuel)%nat ->
    removeLocalCandidates_from fuel sock (length pre) s
    = Ok (tt,
          set_channelPeers (remove_peers (List.filter (carried_by sock) rest) (channelPeers s))
            (set_localCandidates
               (pre ++ List.filter (fun c => negb (carried_by sock c)) rest) s),
          map (fun c => Emit (q.candidateRemoved c)) (List.filter (carried_by sock) rest)).
Proof.
  induction fuel as [|fuel IH]; intros rest pre s Hcs Hlen.
  - destruct rest; [|simpl in Hlen; lia]. simpl.
    rewrite set_candidates_peers_same; [reflexivity|exact Hcs|reflexivity].
  - cbn [removeLocalCandidates_from]. unfold bind at 1, gets at 1. cbn beta iota.
    rewrite Hcs.
    destruct rest as [|c rest].
    + rewrite app_nil_r. rewrite (proj2 (nth_error_None pre (length pre))) by lia.
      simpl. unfold ret. rewrite app_nil_r.
      rewrite set_candidates_peers_same; [reflexivity| |reflexivity].
      rewrite Hcs. apply app_nil_r.
    + rewrite nth_error_app2 by lia. rewrite Nat.sub_diag. cbn [nth_error].
      cbn [List.filter].
      destruct (IceTransportRef_eqb (Candidate.iceTransport c) sock) eqn:Hc;
        change (carried_by sock c) with (IceTransportRef_eqb (Candidate.iceTransport c) sock);
        rewrite Hc.
      * unfold bind, modify, emit, tell. cbn beta iota.
        rewrite firstn_app, firstn_all, Nat.sub_diag. cbn [firstn].
        rewrite app_nil_r.
        rewrite skipn_app.
        rewrite (skipn_all2 (n := S (length pre)) pre) by lia.
        replace (S (length pre) - length pre)%nat with 1%nat by lia. cbn [skipn app].
        match goal with
        | |- context [removeLocalCandidates_from fuel sock (length pre) ?sx] =>
            rewrite (IH rest pre sx); [|reflexivity|simpl in Hlen; lia]
        end.
        reflexivity.
      * replace (S (length pre)) with (length (pre ++ [c])) by (rewrite length_app; simpl; lia).
        rewrite (IH rest (pre ++ [c]) s);
          [|rewrite <- app_assoc; exact Hcs|simpl in Hlen; lia].
        cbn [negb]. rewrite <- app_assoc. reflexivity.
Qed.

(** The loop takes out the candidates carried by [sock], in order, and
    never runs out of fuel. *)
Lemma removeLocalCandidates_eq sock s :
  removeLocalCandidates sock s
  = Ok (tt,
        set_channelPeers
          (remove_peers (List.filter (carried_by sock) (localCandidates s)) (channelPeers s))
          (set_localCandidates
             (List.filter (fun c => negb (carried_by sock c)) (localCandidates s)) s),
        map (fun c => Emit (q.candidateRemoved c))
            (List.filter (carried_by sock) (localCandidates s))).
Proof.
  unfold removeLocalCandidates, bind at 1, gets at 1. cbn beta iota.
  change 0%nat with (length (@nil Candidate.t)).
  rewrite (removeLocalCandidates_from_eq sock _ (localCandidates s) [] s eq_refl (le_n _)).
  reflexivity.
Qed.

Lemma remove_peers_lookup removed m k :
  remove_peers removed m !! k
  = if existsb (fun c => Candidate.id c =? k) removed then None else m !! k.
Proof.
  unfold remove_peers. revert m. induction removed as [|c l IH]; intros m; simpl; [reflexivity|].
  rewrite IH. destruct (existsb (fun c0 => Candidate.id c0 =? k) l) eqn:Hl.
  - rewrite orb_true_r. reflexivity.
  - rewrite orb_false_r. destruct (Z.eqb_spec (Candidate.id c) k) as [->|Hne].
    + apply lookup_delete_eq.
    + apply lookup_delete_ne. exact Hne.
Qed.

(** ** Candidate ids and the transports candidates point to *)

Lemma map_handle_update_lt h f l :
  (forall x, LocalTransport.handle (f x) = LocalTransport.handle x) ->
  map LocalTransport.handle (update_lt h f l) = map LocalTransport.handle l.
Proof.
  intros Hf. unfold update_lt. rewrite map_map. apply map_ext.
  intros a. destruct (Nat.eqb (LocalTransport.handle a) h); [apply Hf|reflexivity].
Qed.

Lemma find_lt_isNone h l :
  isNone (find_lt h l) = negb (existsb (fun x => Nat.eqb x h) (map LocalTransport.handle l)).
Proof.
  unfold find_lt. induction l as [|a l IH]; simpl; [reflexivity|].
  destruct (Nat.eqb (LocalTransport.handle a) h); [reflexivity|exact IH].
Qed.

Lemma live_owners s s' t : owners s' = owners s -> live s' t = live s t.
Proof.
  unfold owners. intros [= Hh Ht]. destruct t as [h|h]; simpl.
  - rewrite !find_lt_isNone, Hh. reflexivity.
  - destruct (tcpTurn s'), (tcpTurn s); simpl in Ht; try discriminate; [|reflexivity].
    injection Ht as ->. reflexivity.
Qed.

Lemma candidates_ok_owners s s' :
  owners s' = owners s -> localCandidates s' = localCandidates s ->
  candidates_ok s -> candidates_ok s'.
Proof.
  intros Ho Hc [Hnd Hlive]. unfold candidates_ok. rewrite Hc. split; [exact Hnd|].
  intros c Hin. rewrite (live_owners _ _ _ Ho). auto.
Qed.

Lemma NoDup_snoc {X} (l : list X) x : List.NoDup l -> ~ In x l -> List.NoDup (l ++ [x]).
Proof.
  induction 1 as [|a l Ha Hl IH]; simpl; intros Hx.
  - constructor; [intros []|constructor].
  - constructor.
    + intros Hin. apply in_app_or in Hin. destruct Hin as [Hin|[<-|[]]]; [auto|]. apply Hx. left.
      reflexivity.
    + apply IH. intros Hin. apply Hx. right. exact Hin.
Qed.

Lemma candidates_ok_append s c :
  candidates_ok s ->
  Candidate.id c = getId s ->
  live s (Candidate.iceTransport c) = true ->
  candidates_ok (set_localCandidates (localCandidates s ++ [c]) s).
Proof.
  intros [Hnd Hlive] Hid Hc. split; simpl.
  - rewrite map_app. simpl. apply NoDup_snoc; [exact Hnd|].
    intros Hk. apply in_map_iff in Hk. destruct Hk as (c' & Hc' & Hin).
    apply (getId_fresh s c' Hin). congruence.
  - intros c' Hin. apply in_app_or in Hin.
    destruct Hin as [Hin|[<-|[]]]; [exact (Hlive _ Hin)|exact Hc].
Qed.

Lemma live_via s s' t : owners s' = owners s -> live s t = true -> live s' t = true.
Proof. intros Ho. rewrite (live_owners _ _ _ Ho). auto. Qed.

Lemma live_local s s' h lt :
  find_lt h (udpTransports s) = Some lt -> owners s' = owners s -> live s' (LocalRef h) = true.
Proof. intros Hf Ho. rewrite (live_owners _ _ _ Ho). simpl. rewrite Hf. reflexivity. Qed.

Lemma live_turn s s' t :
  tcpTurn s = Some t -> owners s' = owners s ->
  live s' (TurnRef (IceTurnTransport.handle t)) = true.
Proof.
  intros Hf Ho. rewrite (live_owners _ _ _ Ho). simpl. rewrite Hf. apply Nat.eqb_refl.
Qed.

#[global] Instance grows_ok_Transition : Transition grows_ok.
Proof.
  split.
  - intros s. split; [reflexivity|auto].
  - intros s1 s2 s3 e1 e2 [Ho1 H1] [Ho2 H2]. split; [congruence|auto].
Qed.

#[global] Instance keeps_candidates_ok_Transition : Transition keeps_candidates_ok.
Proof.
  split.
  - intros s H. exact H.
  - intros s1 s2 s3 e1 e2 H1 H2 H. auto.
Qed.

Lemma owners_observe started relayed reflexive o :
  option_map IceTurnTransport.handle
    (option_map (IceTurnTransport.observe started relayed reflexive) o)
  = option_map IceTurnTransport.handle o.
Proof. destruct o; reflexivity. Qed.

Ltac owners_solve :=
  unfold owners in *; simpl in *;
  rewrite ?map_handle_update_lt, ?owners_observe in * by (intros; reflexivity);
  first [reflexivity | assumption | congruence].

(** The assignments that touch neither the candidates nor the set of
    transports. *)
Ltac grows_leaf :=
  split; [owners_solve|];
  apply candidates_ok_owners; [owners_solve|reflexivity].

Lemma grows_tryGatheringComplete : respects grows_ok tryGatheringComplete.
Proof. respects_with grows_leaf. Qed.

Lemma grows_storeLocalNotReduntantCandidate c s s' evs :
  storeLocalNotReduntantCandidate c s = Ok (tt, s', evs) ->
  Candidate.id c = getId s ->
  live s (Candidate.iceTransport c) = true ->
  grows_ok s s' evs.
Proof.
  intros H Hid Hlive. rewrite storeLocalNotReduntantCandidate_eq in H.
  destruct (find (redundant_with c) (localCandidates s)); injection H as <- <-.
  - apply transition_refl.
  - split; [reflexivity|]. intros Hok. apply candidates_ok_append; assumption.
Qed.

Lemma grows_ensureExt h addrAt : respects grows_ok (ensureExt h addrAt).
Proof.
  intros s a s' evs H. unfold ensureExt in H. exec H.
  2:{ apply transition_refl. }
  use_priority.
  match goal with
  | Hst : storeLocalNotReduntantCandidate ?c ?sx = Ok _ |- _ =>
      apply grows_storeLocalNotReduntantCandidate in Hst;
      [destruct Hst as [Ho Hok]|reflexivity|eapply live_local; [eassumption|owners_solve]]
  end.
  split; [owners_solve|].
  intros H0. apply Hok. revert H0. apply candidates_ok_owners; [owners_solve|reflexivity].
Qed.

#[global] Hint Resolve grows_tryGatheringComplete grows_ensureExt : respects.

Ltac live_solve :=
  cbn [Candidate.iceTransport];
  match goal with
  | H : find_lt ?h (udpTransports ?sk) = Some ?lt |- live ?sx (LocalRef ?h) = true =>
      apply (live_local sk sx h lt H); owners_solve
  | H : tcpTurn ?sk = Some ?t |- live ?sx (TurnRef (IceTurnTransport.handle ?t)) = true =>
      apply (live_turn sk sx t H); owners_solve
  | Hok : candidates_ok ?sk, Hf : find _ (localCandidates ?sk) = Some ?b
    |- live ?sx (Candidate.iceTransport ?b) = true =>
      apply (live_via sk sx); [owners_solve|];
      apply (proj2 Hok); exact (proj1 (find_some _ _ Hf))
  end.

(** Replaces the hypotheses about the calls left closed by what is known
    of them. *)
Ltac use_grows :=
  repeat match goal with
         | Hk : ensureExt ?h ?addrAt ?sx = Ok (_, ?sy, ?e) |- _ =>
             apply grows_ensureExt in Hk; destruct Hk as [? ?]
         | Hk : tryGatheringComplete ?sx = Ok (_, ?sy, ?e) |- _ =>
             apply grows_tryGatheringComplete in Hk; destruct Hk as [? ?]
         | Hk : storeLocalNotReduntantCandidate ?c ?sx = Ok (_, ?sy, ?e) |- _ =>
             let Hn := fresh "Hcall" in
             assert (Hn : grows_ok sx sy e)
               by (apply (grows_storeLocalNotReduntantCandidate c sx sy e Hk);
                   [reflexivity|live_solve]);
             clear Hk; destruct Hn as [? ?]
         end.

Ltac ok_chain :=
  match goal with
  | H : candidates_ok ?s |- candidates_ok ?s => exact H
  | H : candidates_ok _ -> candidates_ok ?s |- candidates_ok ?s => apply H; ok_chain
  | |- candidates_ok (set_localCandidates (_ ++ [?c]) ?s1) =>
      apply (candidates_ok_append s1 c); [ok_chain|reflexivity|live_solve]
  | |- candidates_ok (?f ?v ?s1) =>
      apply (candidates_ok_owners s1); [owners_solve|reflexivity|ok_chain]
  end.

Ltac grows_solve :=
  split; [owners_solve|let H := fresh "Hok" in intros H; ok_chain].

Lemma grows_lt_started h : respects grows_ok (lt_started h).
Proof.
  intros s a s' evs H. unfold lt_started in H. exec H.
  all: use_priority.
  all: use_grows.
  all: grows_solve.
Qed.

Lemma grows_tt_started : respects grows_ok tt_started.
Proof.
  intros s a s' evs H. unfold tt_started in H. exec H.
  use_priority. use_grows. grows_solve.
Qed.

Lemma grows_addLocalPeerReflexiveCandidate addr base priority :
  respects grows_ok (addLocalPeerReflexiveCandidate addr base priority).
Proof.
  intros s a s' evs H. unfold addLocalPeerReflexiveCandidate in H. exec H.
  - grows_solve.
  - discriminate.
Qed.

Lemma grows_deferred_ensureExt : respects grows_ok deferred_ensureExt.
Proof. respects_with grows_leaf. Qed.

Lemma grows_lt_addressesChanged h : respects grows_ok (lt_addressesChanged h).
Proof.
  intros s a s' evs H. unfold lt_addressesChanged in H. exec H.
  all: use_priority.
  all: repeat match goal with
       | Hk : for_each ?hs ?body ?sx = Ok (_, ?sy, ?e) |- _ =>
           let Hn := fresh "Hcall" in
           assert (Hn : grows_ok sx sy e)
             by (refine ((_ : respects grows_ok (for_each hs body)) sx _ sy e Hk);
                 respects_with grows_leaf);
           clear Hk; destruct Hn as [? ?]
       end.
  all: use_grows.
  all: grows_solve.
Qed.

(** *** The slots that create or destroy transports *)

Lemma NoDup_map_filter {X Y} (f : X -> Y) (p : X -> bool) l :
  List.NoDup (map f l) -> List.NoDup (map f (List.filter p l)).
Proof.
  induction l as [|a l IH]; simpl; intros H; [constructor|].
  inversion H as [|y l' Ha Hl]; subst.
  destruct (p a); simpl; [|auto]. constructor; [|auto].
  intros Hin. apply Ha. apply in_map_iff in Hin. destruct Hin as (x & Hx & Hin).
  apply List.filter_In in Hin. destruct Hin as [Hin _]. rewrite <- Hx. apply in_map. exact Hin.
Qed.

Lemma find_lt_removeOne_ne h h' l :
  h <> h' -> find_lt h' (removeOne h l) = find_lt h' l.
Proof.
  intros Hne. unfold find_lt. induction l as [|a l IH]; simpl; [reflexivity|].
  destruct (Nat.eqb (LocalTransport.handle a) h) eqn:Ha.
  - apply Nat.eqb_eq in Ha.
    destruct (Nat.eqb (LocalTransport.handle a) h') eqn:Ha'; [|reflexivity].
    apply Nat.eqb_eq in Ha'. congruence.
  - simpl. destruct (Nat.eqb (LocalTransport.handle a) h'); [reflexivity|exact IH].
Qed.

Lemma candidates_ok_erase_local s h cp :
  candidates_ok s ->
  candidates_ok
    (set_udpTransports (removeOne h (udpTransports s))
       (set_channelPeers cp
          (set_localCandidates
             (List.filter (fun c => negb (carried_by (LocalRef h) c)) (localCandidates s)) s))).
Proof.
  intros [Hnd Hlive]. split; simpl.
  - apply NoDup_map_filter. exact Hnd.
  - intros c Hin. apply List.filter_In in Hin. destruct Hin as [Hin Hc].
    specialize (Hlive c Hin). unfold carried_by in Hc.
    destruct (Candidate.iceTransport c) as [h'|h']; simpl in *; [|exact Hlive].
    rewrite find_lt_removeOne_ne; [exact Hlive|].
    intros ->. rewrite Nat.eqb_refl in Hc. discriminate.
Qed.

Lemma candidates_ok_erase_turn s t cp :
  tcpTurn s = Some t ->
  candidates_ok s ->
  candidates_ok
    (set_tcpTurn None
       (set_channelPeers cp
          (set_localCandidates
             (List.filter
                (fun c => negb (carried_by (TurnRef (IceTurnTransport.handle t)) c))
                (localCandidates s)) s))).
Proof.
  intros Ht [Hnd Hlive]. split; simpl.
  - apply NoDup_map_filter. exact Hnd.
  - intros c Hin. apply List.filter_In in Hin. destruct Hin as [Hin Hc].
    specialize (Hlive c Hin). unfold carried_by in Hc.
    destruct (Candidate.iceTransport c) as [h'|h']; simpl in *; [exact Hlive|].
    rewrite Ht in Hlive. apply Nat.eqb_eq in Hlive. subst h'.
    rewrite Nat.eqb_refl in Hc. discriminate.
Qed.

Lemma candidates_ok_new_turn s t :
  tcpTurn s = None -> candidates_ok s -> candidates_ok (set_tcpTurn (Some t) s).
Proof.
  intros Ht [Hnd Hlive]. split; [exact Hnd|]. simpl.
  intros c Hin. specialize (Hlive c Hin).
  destruct (Candidate.iceTransport c) as [h'|h']; simpl in *; [exact Hlive|].
  rewrite Ht in Hlive. discriminate.
Qed.

Lemma find_lt_snoc h l x :
  isNone (find_lt h l) = false -> isNone (find_lt h (l ++ [x])) = false.
Proof.
  unfold find_lt. induction l as [|a l IH]; simpl; [discriminate|].
  destruct (Nat.eqb (LocalTransport.handle a) h); [reflexivity|exact IH].
Qed.

Lemma candidates_ok_new_local s lt :
  candidates_ok s -> candidates_ok (set_udpTransports (udpTransports s ++ [lt]) s).
Proof.
  intros [Hnd Hlive]. split; [exact Hnd|]. simpl.
  intros c Hin. specialize (Hlive c Hin).
  destruct (Candidate.iceTransport c) as [h'|h']; simpl in *; [|exact Hlive].
  apply negb_true_iff. apply find_lt_snoc. apply negb_true_iff. exact Hlive.
Qed.

Ltac keeps_leaf :=
  let Hok := fresh "Hok" in
  intros Hok;
  first [ exact Hok
        | apply candidates_ok_new_local; exact Hok
        | revert Hok; apply candidates_ok_owners; [owners_solve|reflexivity] ].

Lemma keeps_of_grows {A} (m : M A) : respects grows_ok m -> respects keeps_candidates_ok m.
Proof. intros H s a s' evs Hm. exact (proj2 (H s a s' evs Hm)). Qed.

Lemma keeps_update_localAddrs :
  forall las socketList bindTo,
    respects keeps_candidates_ok (update_localAddrs las socketList bindTo).
Proof. respects_induction keeps_leaf. Qed.

Lemma keeps_update_extAddrs :
  forall hs need_doExt, respects keeps_candidates_ok (update_extAddrs hs need_doExt).
Proof. respects_induction keeps_leaf. Qed.

Lemma keeps_tryGatheringComplete : respects keeps_candidates_ok tryGatheringComplete.
Proof. apply keeps_of_grows. apply grows_tryGatheringComplete. Qed.

Lemma keeps_eraseLocalTransport h : respects keeps_candidates_ok (eraseLocalTransport h).
Proof.
  intros s a s' evs H Hok. unfold eraseLocalTransport in H. exec H.
  all: match goal with
       | Hr : removeLocalCandidates _ _ = Ok _ |- _ =>
           rewrite removeLocalCandidates_eq in Hr; injection Hr as <- <-
       end.
  all: exact (candidates_ok_erase_local s h _ Hok).
Qed.

Lemma keeps_update_stun : respects keeps_candidates_ok update_stun.
Proof. respects_with keeps_leaf. Qed.

Ltac use_keeps :=
  repeat match goal with
         | Hk : update_stun ?sx = Ok _ |- _ => apply keeps_update_stun in Hk
         | Hk : update_localAddrs _ _ _ ?sx = Ok _ |- _ => apply keeps_update_localAddrs in Hk
         | Hk : update_extAddrs _ _ ?sx = Ok _ |- _ => apply keeps_update_extAddrs in Hk
         | Hk : tryGatheringComplete ?sx = Ok _ |- _ => apply keeps_tryGatheringComplete in Hk
         | Hk : eraseLocalTransport _ ?sx = Ok _ |- _ => apply keeps_eraseLocalTransport in Hk
         end.

Ltac keeps_chain :=
  match goal with
  | H : candidates_ok ?s |- candidates_ok ?s => exact H
  | H : keeps_candidates_ok _ ?s _ |- candidates_ok ?s => apply H; keeps_chain
  | Hb : context [isNone (tcpTurn ?sk)] |- candidates_ok (set_tcpTurn (Some _) _) =>
      apply candidates_ok_new_turn;
      [ simpl; destruct (tcpTurn sk); [rewrite ?andb_false_r in Hb; discriminate|reflexivity]
      | keeps_chain ]
  | |- candidates_ok (?f ?v ?s1) =>
      apply (candidates_ok_owners s1); [owners_solve|reflexivity|keeps_chain]
  end.

Lemma keeps_update socketList bindTo : respects keeps_candidates_ok (update socketList bindTo).
Proof.
  intros s a s' evs H Hok. unfold update in H. exec H.
  all: use_keeps.
  all: keeps_chain.
Qed.

Lemma keeps_tryStopped : respects keeps_candidates_ok tryStopped.
Proof. respects_with keeps_leaf. Qed.

Ltac erase_turn Hok :=
  match goal with
  | Hr : removeLocalCandidates _ _ = Ok _ |- _ =>
      rewrite removeLocalCandidates_eq in Hr; injection Hr as <- <-
  end;
  match goal with
  | Hk : _ ?sx = Ok (_, ?sy, _) |- candidates_ok ?sy =>
      first [apply keeps_tryStopped in Hk | apply keeps_tryGatheringComplete in Hk];
      apply Hk
  end;
  match goal with
  | Ht : tcpTurn ?s = Some ?t |- _ => exact (candidates_ok_erase_turn s t _ Ht Hok)
  end.

Lemma keeps_tt_stopped : respects keeps_candidates_ok tt_stopped.
Proof. intros s a s' evs H Hok. unfold tt_stopped in H. exec H. erase_turn Hok. Qed.

Lemma keeps_tt_error : respects keeps_candidates_ok tt_error.
Proof. intros s a s' evs H Hok. unfold tt_error in H. exec H. erase_turn Hok. Qed.

Lemma keeps_lt_started h : respects keeps_candidates_ok (lt_started h).
Proof. apply keeps_of_grows, grows_lt_started. Qed.

Lemma keeps_lt_addressesChanged h : respects keeps_candidates_ok (lt_addressesChanged h).
Proof. apply keeps_of_grows, grows_lt_addressesChanged. Qed.

Lemma keeps_tt_started : respects keeps_candidates_ok tt_started.
Proof. apply keeps_of_grows, grows_tt_started. Qed.

Lemma keeps_deferred_ensureExt : respects keeps_candidates_ok deferred_ensureExt.
Proof. apply keeps_of_grows, grows_deferred_ensureExt. Qed.

Lemma keeps_addLocalPeerReflexiveCandidate addr base priority :
  respects keeps_candidates_ok (addLocalPeerReflexiveCandidate addr base priority).
Proof. apply keeps_of_grows, grows_addLocalPeerReflexiveCandidate. Qed.

#[global] Hint Resolve keeps_update keeps_eraseLocalTransport keeps_tryGatheringComplete
  keeps_tryStopped keeps_tt_stopped keeps_tt_error keeps_lt_started keeps_lt_addressesChanged
  keeps_tt_started keeps_deferred_ensureExt keeps_addLocalPeerReflexiveCandidate : respects.

Lemma keeps_candidates_ok_step op : respects keeps_candidates_ok (step op).
Proof.
  destruct op; simpl.
  all: respects_with keeps_leaf.
Qed.

Lemma reachable_candidates_ok cid s : reachable cid s -> candidates_ok s.
Proof.
  induction 1 as [|s op s' evs Hreach IH Hstep].
  - split; [constructor|intros c []].
  - eapply keeps_candidates_ok_step; eassumption.
Qed.

(** ** The addresses and services of the local transports *)

#[global] Instance keeps_transports_ok_Transition : Transition keeps_transports_ok.
Proof.
  split.
  - intros s H. exact H.
  - intros s1 s2 s3 e1 e2 H1 H2 H. auto.
Qed.

Lemma map_update_lt {X} (g : LocalTransport.t -> X) h f l :
  (forall x, g (f x) = g x) -> map g (update_lt h f l) = map g l.
Proof.
  intros Hf. unfold update_lt. rewrite map_map. apply map_ext.
  intros a. destruct (Nat.eqb (LocalTransport.handle a) h); [apply Hf|reflexivity].
Qed.

Lemma transports_ok_update_lt h f s :
  (forall x, address_facts (f x) = address_facts x) ->
  transports_ok s ->
  transports_ok (set_udpTransports (update_lt h f (udpTransports s)) s).
Proof.
  intros Hf (Hk & Hv & Hd). unfold transports_ok, distinct_addresses. simpl.
  rewrite (map_update_lt address_facts) by exact Hf.
  rewrite (map_update_lt LocalTransport.addr).
  - auto.
  - intros x. pose proof (Hf x) as Hx. unfold address_facts in Hx. congruence.
Qed.

Lemma Forall_map_removeOne {X} (g : LocalTransport.t -> X) (P : X -> Prop) h l :
  Forall P (map g l) -> Forall P (map g (removeOne h l)).
Proof.
  induction l as [|a l IH]; simpl; intros H; [constructor|].
  inversion H; subst. destruct (Nat.eqb (LocalTransport.handle a) h); [assumption|].
  simpl. constructor; auto.
Qed.

Lemma ForallOrdPairs_map_removeOne {X} (g : LocalTransport.t -> X) (R : X -> X -> Prop) h l :
  ForallOrdPairs R (map g l) -> ForallOrdPairs R (map g (removeOne h l)).
Proof.
  induction l as [|a l IH]; simpl; intros H; [constructor|].
  inversion H; subst. destruct (Nat.eqb (LocalTransport.handle a) h); [assumption|].
  simpl. constructor; [|auto]. apply Forall_map_removeOne. assumption.
Qed.

Lemma transports_ok_removeOne h s :
  transports_ok s -> transports_ok (set_udpTransports (removeOne h (udpTransports s)) s).
Proof.
  intros (Hk & Hv & Hd). unfold transports_ok, distinct_addresses. simpl.
  split; [apply Forall_map_removeOne; exact Hk|].
  split; [apply Forall_map_removeOne; exact Hv|].
  apply ForallOrdPairs_map_removeOne. exact Hd.
Qed.

Lemma findLocalAddr_from_snoc n l la a :
  findLocalAddr_from n l a <> -1 -> findLocalAddr_from n (l ++ [la]) a <> -1.
Proof.
  revert n. induction l as [|x l IH]; intros n; simpl; [congruence|].
  destruct (QHostAddress.eqb (LocalAddress.addr x) a); [auto|apply IH].
Qed.

Lemma findLocalAddr_from_snoc_self n l la :
  0 <= n -> findLocalAddr_from n (l ++ [la]) (LocalAddress.addr la) <> -1.
Proof.
  revert n. induction l as [|x l IH]; intros n Hn; simpl.
  - rewrite QHostAddress_eqb_refl. lia.
  - destruct (QHostAddress.eqb (LocalAddress.addr x) (LocalAddress.addr la)); [lia|].
    apply IH. lia.
Qed.

Lemma configure_sock_ipv6 s lt qsock :
  QHostAddress.protocol (LocalTransport.addr lt) = IPv6Protocol ->
  IceLocalTransport.stunBindServiceAddress (configure_sock s lt qsock)
  = IceLocalTransport.stunBindServiceAddress (LocalTransport.sock lt)
  /\ IceLocalTransport.stunRelayServiceAddress (configure_sock s lt qsock)
     = IceLocalTransport.stunRelayServiceAddress (LocalTransport.sock lt).
Proof. intros Hp. unfold configure_sock. rewrite Hp. simpl. auto. Qed.

Ltac transports_leaf :=
  let Hok := fresh "Hok" in
  intros Hok;
  first [ exact Hok
        | apply transports_ok_update_lt; [intros; reflexivity|exact Hok]
        | apply transports_ok_removeOne; exact Hok ].

Lemma transports_removeLocalCandidates_from :
  forall fuel sock n, respects keeps_transports_ok (removeLocalCandidates_from fuel sock n).
Proof. respects_induction transports_leaf. Qed.

Lemma transports_update_extAddrs :
  forall hs need_doExt, respects keeps_transports_ok (update_extAddrs hs need_doExt).
Proof. respects_induction transports_leaf. Qed.

Lemma transports_update_localAddrs :
  forall las socketList bindTo,
    respects keeps_transports_ok (update_localAddrs las socketList bindTo).
Proof.
  intros las socketList bindTo. revert socketList.
  induction las as [|la las IH]; intros socketList s a s' evs H Hok; simpl in H.
  - exec H. exact Hok.
  - unfold createLocalTransport in H. exec H.
    all: match goal with
         | Hrec : update_localAddrs _ _ _ _ = Ok _ |- _ => apply IH in Hrec; apply Hrec
         end.
    all: try exact Hok.
    destruct Hok as (Hknown & Hv6 & Hdist).
    match goal with
    | Hn : negb (findLocalAddr _ _ =? -1) = false |- _ =>
        apply negb_false_iff, Z.eqb_eq in Hn; rename Hn into Hnew
    end.
    unfold transports_ok, distinct_addresses. simpl.
    rewrite !map_app. simpl. repeat split.
    + apply Forall_app. split.
      * revert Hknown. apply List.Forall_impl. intros f. unfold known_address. simpl.
        apply findLocalAddr_from_snoc.
      * constructor; [|constructor]. unfold known_address. simpl.
        apply findLocalAddr_from_snoc_self. lia.
    + apply Forall_app. split; [exact Hv6|]. constructor; [|constructor].
      intros Hp. simpl in Hp. unfold address_facts. simpl.
      unfold configure_sock. simpl. rewrite Hp. simpl. auto.
    + apply ForallOrdPairs_snoc; [exact Hdist|].
      apply List.Forall_forall. intros x Hin_x.
      destruct (QHostAddress.eqb x (LocalAddress.addr la)) eqn:Heq; [|reflexivity].
      exfalso. rewrite List.Forall_forall in Hknown.
      apply in_map_iff in Hin_x. destruct Hin_x as (lt & <- & Hin).
      apply (Hknown (address_facts lt)); [apply in_map; exact Hin|]. simpl.
      unfold findLocalAddr in Hnew.
      rewrite (findLocalAddr_from_eqb _ _ _ _ Heq). exact Hnew.
Qed.

Lemma transports_update_stun : respects keeps_transports_ok update_stun.
Proof. intros s a s' evs H Hok. unfold update_stun in H. exec H; exact Hok. Qed.

#[global] Hint Resolve transports_removeLocalCandidates_from transports_update_extAddrs
  transports_update_localAddrs transports_update_stun : respects.

Lemma keeps_transports_ok_step op : respects keeps_transports_ok (step op).
Proof.
  destruct op; simpl.
  all: respects_with transports_leaf.
Qed.

Lemma reachable_transports_ok cid s : reachable cid s -> transports_ok s.
Proof.
  induction 1 as [|s op s' evs Hreach IH Hstep].
  - repeat split; constructor.
  - eapply keeps_transports_ok_step; eassumption.
Qed.

(** ** Positions, pairs and scenarios *)

Lemma findLocalAddr_from_range n l a :
  findLocalAddr_from n l a <> -1 -> 0 <= n ->
  n <= findLocalAddr_from n l a < n + Z.of_nat (length l).
Proof.
  revert n. induction l as [|x l IH]; intros n Hfound Hn; simpl in *; [congruence|].
  destruct (QHostAddress.eqb (LocalAddress.addr x) a); [lia|].
  specialize (IH (n + 1) Hfound ltac:(lia)). lia.
Qed.

Lemma ForallOrdPairs_nth_error {X} (R : X -> X -> Prop) l :
  ForallOrdPairs R l ->
  forall i j x y, (i < j)%nat -> nth_error l i = Some x -> nth_error l j = Some y -> R x y.
Proof.
  induction 1 as [|a l Ha Hl IH]; intros i j x y Hij Hi Hj.
  - destruct i; discriminate.
  - destruct j as [|j]; [lia|]. simpl in Hj. destruct i as [|i]; simpl in Hi.
    + injection Hi as <-. rewrite List.Forall_forall in Ha. apply Ha.
      eapply nth_error_In. exact Hj.
    + eapply IH; [|exact Hi|exact Hj]. lia.
Qed.

Lemma S4_gathered_reachable : reachable 1 (state_of S4_gathered (IceComponent 1)).
Proof.
  apply (reachable_run 1 (IceComponent 1) S4_gathered_ops
           (state_of S4_gathered (IceComponent 1)) (effects_of S4_gathered)).
  - apply reachable_init.
  - vm_compute. reflexivity.
Defined.

Lemma dual_stack_updated_reachable :
  reachable 1 (state_of dual_stack_updated (IceComponent 1)).
Proof.
  apply (reachable_run 1 (IceComponent 1) dual_stack_ops
           (state_of dual_stack_updated (IceComponent 1)) (effects_of dual_stack_updated)).
  - apply reachable_init.
  - vm_compute. reflexivity.
Defined.

(** ** Priorities *)

Lemma position_of_lt_Some h n l i :
  position_of_lt h n l = Some i <->
  exists k lt, i = n + Z.of_nat k /\ first_with_handle h l k lt.
Proof.
  revert n. induction l as [|a l IH]; intros n; simpl.
  - split; [discriminate|]. intros (k & lt & _ & Hnth & _). destruct k; discriminate.
  - destruct (Nat.eqb (LocalTransport.handle a) h) eqn:Ha.
    + apply Nat.eqb_eq in Ha. split.
      * intros [= <-]. exists 0%nat, a. split; [lia|]. split; [reflexivity|].
        split; [exact Ha|]. intros j x Hj. lia.
      * intros (k & lt & -> & Hnth & Hh & Hfirst). destruct k as [|k]; [f_equal; lia|].
        exfalso. apply (Hfirst 0%nat a); [lia|reflexivity|exact Ha].
    + apply Nat.eqb_neq in Ha. rewrite IH. split.
      * intros (k & lt & -> & Hnth & Hh & Hfirst). exists (S k), lt. split; [lia|].
        split; [exact Hnth|]. split; [exact Hh|].
        intros [|j] x Hj Hx; simpl in Hx; [congruence|]. apply (Hfirst j x); [lia|exact Hx].
      * intros (k & lt & -> & Hnth & Hh & Hfirst). destruct k as [|k].
        -- simpl in Hnth. congruence.
        -- exists k, lt. split; [lia|]. split; [exact Hnth|]. split; [exact Hh|].
           intros j x Hj Hx. apply (Hfirst (S j) x); [lia|exact Hx].
Qed.

Lemma choose_default_priority_eq type localPref isVpn componentId s :
  0 <= localPref <= 65535 -> 1 <= componentId <= 256 ->
  choose_default_priority type localPref isVpn componentId s
  = Ok (priority_formula (type_pref type isVpn) localPref componentId, s, []).
Proof.
  intros Hl Hc.
  destruct (choose_default_priority type localPref isVpn componentId s)
    as [[[p s'] e]|] eqn:H.
  - apply choose_default_priority_Ok in H. destruct H as (_ & _ & -> & _ & -> & ->).
    reflexivity.
  - exfalso. unfold choose_default_priority, calc_priority, bind, Q_ASSERT in H.
    assert (Ht : (0 <=? type_pref type isVpn) && (type_pref type isVpn <=? 126) = true)
      by (destruct type, isVpn; reflexivity).
    unfold type_pref in Ht. rewrite Ht in H.
    assert (H1 : (0 <=? localPref) && (localPref <=? 65535) = true).
    { apply andb_true_intro. split; apply Z.leb_le; lia. }
    assert (H2 : (1 <=? componentId) && (componentId <=? 256) = true).
    { apply andb_true_intro. split; apply Z.leb_le; lia. }
    rewrite H1, H2 in H. discriminate.
Qed.

(** ** The flag [localFinished] counts the emissions *)

Lemma count_localFinished_app e1 e2 :
  count_localFinished (e1 ++ e2) = count_localFinished e1 + count_localFinished e2.
Proof. unfold count_localFinished. rewrite List.filter_app, List.length_app. lia. Qed.

#[global] Instance localFinished_counted_Transition : Transition localFinished_counted.
Proof.
  split.
  - intros s. unfold localFinished_counted, count_localFinished. simpl. lia.
  - intros s1 s2 s3 e1 e2 H1 H2. unfold localFinished_counted in *.
    rewrite count_localFinished_app. lia.
Qed.

Ltac counted_leaf :=
  unfold localFinished_counted, queued_localFinished, count_localFinished; simpl;
  rewrite ?List.filter_app, ?List.length_app; simpl; lia.

Lemma counted_removeLocalCandidates_from :
  forall fuel sock n, respects localFinished_counted (removeLocalCandidates_from fuel sock n).
Proof. respects_induction counted_leaf. Qed.

Lemma counted_update_localAddrs :
  forall las socketList bindTo,
    respects localFinished_counted (update_localAddrs las socketList bindTo).
Proof. respects_induction counted_leaf. Qed.

Lemma counted_update_extAddrs :
  forall hs need_doExt, respects localFinished_counted (update_extAddrs hs need_doExt).
Proof. respects_induction counted_leaf. Qed.

#[global] Hint Resolve counted_removeLocalCandidates_from counted_update_localAddrs
  counted_update_extAddrs : respects.

Lemma counted_update_stun : respects localFinished_counted update_stun.
Proof. respects_with counted_leaf. Qed.

Lemma counted_tryGatheringComplete : respects localFinished_counted tryGatheringComplete.
Proof. respects_with counted_leaf. Qed.

Lemma counted_ensureExt h addrAt : respects localFinished_counted (ensureExt h addrAt).
Proof. respects_with counted_leaf. Qed.

Lemma counted_deferred_ensureExt : respects localFinished_counted deferred_ensureExt.
Proof. respects_with counted_leaf. Qed.

#[global] Hint Resolve counted_update_stun counted_tryGatheringComplete counted_ensureExt
  counted_deferred_ensureExt : respects.

Ltac use_counted :=
  repeat match goal with
         | Hk : update_stun ?sx = Ok _ |- _ => apply counted_update_stun in Hk
         | Hk : update_localAddrs _ _ _ ?sx = Ok _ |- _ => apply counted_update_localAddrs in Hk
         | Hk : update_extAddrs _ _ ?sx = Ok _ |- _ => apply counted_update_extAddrs in Hk
         | Hk : tryGatheringComplete ?sx = Ok _ |- _ => apply counted_tryGatheringComplete in Hk
         | Hk : ensureExt _ _ ?sx = Ok _ |- _ => apply counted_ensureExt in Hk
         | Hk : deferred_ensureExt ?sx = Ok _ |- _ => apply counted_deferred_ensureExt in Hk
         end.

Ltac counted_solve :=
  repeat match goal with
         | Hb : negb (localFinished ?x) = true |- _ => apply negb_true_iff in Hb
         | Hb : negb (localFinished ?x) = false |- _ => apply negb_false_iff in Hb
         | Hb : _ && _ = true |- _ => apply andb_prop in Hb; destruct Hb
         end;
  unfold localFinished_counted, queued_localFinished in *;
  rewrite ?count_localFinished_app in *;
  unfold count_localFinished in *; simpl in *;
  rewrite ?List.filter_app, ?List.length_app in *; simpl in *;
  repeat match goal with
         | Hb : localFinished ?x = _ |- _ => rewrite Hb in *
         end;
  simpl in *; lia.

Lemma counted_lt_started h : respects localFinished_counted (lt_started h).
Proof.
  intros s a s' evs H. unfold lt_started in H. exec H.
  all: use_priority.
  all: use_counted.
  all: counted_solve.
Qed.

Lemma counted_update socketList bindTo :
  respects localFinished_counted (update socketList bindTo).
Proof.
  intros s a s' evs H. unfold update in H. exec H.
  all: use_counted.
  all: counted_solve.
Qed.

Lemma counted_event_loop : respects localFinished_counted (step event_loop).
Proof.
  intros s a s' evs H. simpl in H.
  apply bind_Ok in H. destruct H as (queue & s1 & e1 & e2 & H1 & H2 & ->).
  exec H1. destruct (sess s) as [|d rest] eqn:Hq.
  - exec H2. apply transition_refl.
  - apply bind_Ok in H2. destruct H2 as ([] & s2 & e3 & e4 & H2 & H3 & ->).
    exec H2.
    assert (Hqueued : queued_localFinished s
                      = Z.b2z (is_defer_localFinished d)
                        + queued_localFinished (set_sess rest s)).
    { unfold queued_localFinished. rewrite Hq. simpl.
      destruct (is_defer_localFinished d); simpl; lia. }
    clear Hq. destruct d; simpl in H3, Hqueued.
    + exec H3. unfold localFinished_counted. rewrite Hqueued. counted_solve.
    + use_counted. unfold localFinished_counted in *. rewrite Hqueued.
      cbn [localFinished set_sess app] in *. lia.
    + unfold postStop in H3. exec H3. unfold localFinished_counted. rewrite Hqueued.
      counted_solve.
    + use_counted. unfold localFinished_counted in *. rewrite Hqueued.
      cbn [localFinished set_sess app] in *. lia.
Qed.

#[global] Hint Resolve counted_lt_started counted_update : respects.

Lemma counted_step op : respects localFinished_counted (step op).
Proof.
  destruct op; try apply counted_event_loop; simpl.
  all: respects_with counted_leaf.
Qed.

Lemma counted_run_localFinished ops : respects localFinished_counted (run ops).
Proof.
  induction ops as [|op ops IH]; simpl.
  - apply respects_ret. typeclasses eauto.
  - apply respects_bind; [typeclasses eauto|apply counted_step|intros _; exact IH].
Qed.

(** ** Stopping *)

Lemma count_stopped_app e1 e2 :
  count_stopped (e1 ++ e2) = (count_stopped e1 + count_stopped e2)%nat.
Proof. unfold count_stopped. rewrite List.filter_app, List.length_app. reflexivity. Qed.

#[global] Instance stopped_untouched_Transition : Transition stopped_untouched.
Proof.
  split.
  - intros s. split; [reflexivity|auto].
  - intros s1 s2 s3 e1 e2 [C1 H1] [C2 H2]. split; [|auto].
    rewrite count_stopped_app, C1, C2. reflexivity.
Qed.

#[global] Instance stop_queue_kept_Transition : Transition stop_queue_kept.
Proof.
  split.
  - intros s. split; reflexivity.
  - intros s1 s2 s3 e1 e2 [Q1 H1] [Q2 H2]. split; congruence.
Qed.

#[global] Instance keeps_stop_pending_ok_Transition : Transition keeps_stop_pending_ok.
Proof.
  split.
  - intros s H. exact H.
  - intros s1 s2 s3 e1 e2 H1 H2 H. auto.
Qed.

Ltac stopped_untouched_leaf := split; [reflexivity|simpl; auto].

Ltac stop_queue_leaf :=
  split; [|reflexivity];
  unfold queued_postStop; simpl; rewrite ?List.filter_app, ?List.length_app; simpl; lia.

Lemma allStopped_update_lt h f s :
  allStopped (set_udpTransports (update_lt h f (udpTransports s)) s) = allStopped s.
Proof. unfold allStopped. simpl. destruct (udpTransports s); reflexivity. Qed.

Lemma allStopped_removeOne h s :
  allStopped s = true ->
  allStopped (set_udpTransports (removeOne h (udpTransports s)) s) = true.
Proof. unfold allStopped. simpl. destruct (udpTransports s); [auto|discriminate]. Qed.

Lemma allStopped_no_turn s :
  allStopped s = true -> allStopped (set_tcpTurn None s) = true.
Proof.
  unfold allStopped. simpl. destruct (udpTransports s), (tcpTurn s); auto.
Qed.

Lemma allStopped_observe started relayed reflexive s :
  allStopped s = true ->
  allStopped (set_tcpTurn
                (option_map (IceTurnTransport.observe started relayed reflexive) (tcpTurn s)) s)
  = true.
Proof.
  unfold allStopped. simpl. destruct (udpTransports s), (tcpTurn s); auto.
Qed.

Lemma stop_pending_ok_view s s' :
  queued_postStop s' = queued_postStop s ->
  (stopping s = true -> stopping s' = true) ->
  (allStopped s = true -> allStopped s' = true) ->
  stop_pending_ok s -> stop_pending_ok s'.
Proof.
  intros Hq Hs Ha [H0|(H1 & Hst & Hall)]; [left; congruence|].
  right. rewrite Hq. auto.
Qed.

Ltac pending_leaf :=
  unfold keeps_stop_pending_ok;
  apply stop_pending_ok_view;
  [ unfold queued_postStop; simpl; rewrite ?List.filter_app, ?List.length_app; simpl; lia
  | simpl; auto
  | first [ simpl; solve [auto]
          | rewrite allStopped_update_lt; solve [auto]
          | apply allStopped_removeOne
          | apply allStopped_no_turn
          | apply allStopped_observe ] ].

(** *** What leaves the queue of [postStop] alone *)

Lemma untouched_stopped_removeLocalCandidates_from :
  forall fuel sock n, respects stopped_untouched (removeLocalCandidates_from fuel sock n).
Proof. respects_induction stopped_untouched_leaf. Qed.

Lemma untouched_stopped_update_localAddrs :
  forall las socketList bindTo,
    respects stopped_untouched (update_localAddrs las socketList bindTo).
Proof. respects_induction stopped_untouched_leaf. Qed.

Lemma untouched_stopped_update_extAddrs :
  forall hs need_doExt, respects stopped_untouched (update_extAddrs hs need_doExt).
Proof. respects_induction stopped_untouched_leaf. Qed.

Lemma kept_removeLocalCandidates_from :
  forall fuel sock n, respects stop_queue_kept (removeLocalCandidates_from fuel sock n).
Proof. respects_induction stop_queue_leaf. Qed.

Lemma kept_update_localAddrs :
  forall las socketList bindTo,
    respects stop_queue_kept (update_localAddrs las socketList bindTo).
Proof. respects_induction stop_queue_leaf. Qed.

Lemma kept_update_extAddrs :
  forall hs need_doExt, respects stop_queue_kept (update_extAddrs hs need_doExt).
Proof. respects_induction stop_queue_leaf. Qed.

Lemma pending_removeLocalCandidates_from :
  forall fuel sock n, respects keeps_stop_pending_ok (removeLocalCandidates_from fuel sock n).
Proof. respects_induction pending_leaf. Qed.

Lemma pending_update_extAddrs :
  forall hs need_doExt, respects keeps_stop_pending_ok (update_extAddrs hs need_doExt).
Proof. respects_induction pending_leaf. Qed.

#[global] Hint Resolve untouched_stopped_removeLocalCandidates_from
  untouched_stopped_update_localAddrs untouched_stopped_update_extAddrs
  kept_removeLocalCandidates_from kept_update_localAddrs kept_update_extAddrs
  pending_removeLocalCandidates_from pending_update_extAddrs : respects.

Lemma untouched_stopped_step op : may_stop op = false -> respects stopped_untouched (step op).
Proof.
  destruct op; simpl; intros Hop; try discriminate.
  all: respects_with stopped_untouched_leaf.
Qed.

Lemma kept_update socketList bindTo : respects stop_queue_kept (update socketList bindTo).
Proof. respects_with stop_queue_leaf. Qed.

Lemma kept_eraseLocalTransport h : respects stop_queue_kept (eraseLocalTransport h).
Proof. respects_with stop_queue_leaf. Qed.

Lemma kept_removeLocalCandidates sock : respects stop_queue_kept (removeLocalCandidates sock).
Proof. respects_with stop_queue_leaf. Qed.
(** *** The invariant of the queue *)

Lemma update_while_stopping socketList bindTo s :
  stopping s = true -> update socketList bindTo s = AssertFailed.
Proof. intros Hs. unfold update, bind, gets, Q_ASSERT. rewrite Hs. reflexivity. Qed.

Lemma stop_while_stopping s : stopping s = true -> stop s = AssertFailed.
Proof. intros Hs. unfold stop, bind, gets, Q_ASSERT. rewrite Hs. reflexivity. Qed.

Lemma not_stopping_nothing_pending s :
  stop_pending_ok s -> stopping s = false -> queued_postStop s = 0%nat.
Proof. intros [H0|(_ & Hs & _)] Hf; [exact H0|congruence]. Qed.

Lemma something_left_nothing_pending s :
  stop_pending_ok s -> allStopped s = false -> queued_postStop s = 0%nat.
Proof. intros [H0|(_ & _ & Ha)] Hf; [exact H0|congruence]. Qed.

Lemma pending_update socketList bindTo :
  respects keeps_stop_pending_ok (update socketList bindTo).
Proof.
  intros s a s' evs H Hj.
  destruct (stopping s) eqn:Hs; [rewrite update_while_stopping in H by exact Hs; discriminate|].
  apply kept_update in H. destruct H as [Hq _].
  left. rewrite Hq. apply not_stopping_nothing_pending; assumption.
Qed.

Lemma pending_stop : respects keeps_stop_pending_ok stop.
Proof.
  intros s a s' evs H Hj.
  destruct (stopping s) eqn:Hs; [rewrite stop_while_stopping in H by exact Hs; discriminate|].
  pose proof (not_stopping_nothing_pending s Hj Hs) as Hq.
  unfold stop, stop_body in H. exec H.
  - right. unfold queued_postStop in *. simpl.
    rewrite List.filter_app, List.length_app, Hq. simpl. auto.
  - left. match goal with
          | Hk : for_each _ _ _ = Ok _ |- _ =>
              apply (respects_for_each stop_queue_kept) in Hk;
              [destruct Hk as [Hk _]; rewrite Hk; exact Hq|]
          end.
    intros lt. respects_with stop_queue_leaf.
  - left. match goal with
          | Hk : for_each _ _ _ = Ok _ |- _ =>
              apply (respects_for_each stop_queue_kept) in Hk;
              [destruct Hk as [Hk _]; rewrite Hk; exact Hq|]
          end.
    intros lt. respects_with stop_queue_leaf.
Qed.

Lemma find_lt_not_allStopped h s lt :
  find_lt h (udpTransports s) = Some lt -> allStopped s = false.
Proof. unfold allStopped, find_lt. destruct (udpTransports s); [discriminate|reflexivity]. Qed.

Lemma tcpTurn_not_allStopped s t : tcpTurn s = Some t -> allStopped s = false.
Proof. unfold allStopped. intros ->. destruct (udpTransports s); reflexivity. Qed.

Lemma pending_lt_stopped h : respects keeps_stop_pending_ok (lt_stopped h).
Proof.
  intros s a s' evs H Hj. unfold lt_stopped in H.
  apply bind_Ok in H. destruct H as (alive & s1 & e1 & e2 & H1 & H2 & ->).
  assert (Hq : queued_postStop s = 0%nat).
  { unfold eraseLocalTransport in H1. apply bind_Ok in H1.
    destruct H1 as (lt & s0 & e3 & e4 & H1 & _ & _). exec H1.
    eapply something_left_nothing_pending; [exact Hj|].
    eapply find_lt_not_allStopped. eassumption. }
  apply kept_eraseLocalTransport in H1. destruct H1 as [Hq1 _].
  left. rewrite Hq in Hq1. unfold tryStopped, postStop in H2. exec H2; exact Hq1.
Qed.

Lemma pending_tt_stopped : respects keeps_stop_pending_ok tt_stopped.
Proof.
  intros s a s' evs H Hj. unfold tt_stopped in H.
  apply bind_Ok in H. destruct H as (turn & s0 & e1 & e2 & H0 & H & ->). exec H0.
  assert (Hq : queued_postStop s = 0%nat).
  { eapply something_left_nothing_pending; [exact Hj|].
    eapply tcpTurn_not_allStopped. eassumption. }
  apply bind_Ok in H. destruct H as ([] & s1 & e3 & e4 & H1 & H2 & ->).
  apply bind_Ok in H2. destruct H2 as ([] & s2 & e5 & e6 & H2 & H3 & ->).
  apply kept_removeLocalCandidates in H1. destruct H1 as [Hq1 _]. exec H2.
  assert (Hq2 : queued_postStop (set_tcpTurn None s1) = 0%nat).
  { rewrite <- Hq, <- Hq1. reflexivity. }
  left. unfold tryStopped, postStop in H3. exec H3; exact Hq2.
Qed.

Lemma pending_tryGatheringComplete : respects keeps_stop_pending_ok tryGatheringComplete.
Proof. respects_with pending_leaf. Qed.

Lemma pending_ensureExt h addrAt : respects keeps_stop_pending_ok (ensureExt h addrAt).
Proof. respects_with pending_leaf. Qed.

#[global] Hint Resolve pending_tryGatheringComplete pending_ensureExt : respects.

Lemma pending_deferred_ensureExt : respects keeps_stop_pending_ok deferred_ensureExt.
Proof. respects_with pending_leaf. Qed.

Lemma queued_postStop_pop s d rest :
  sess s = d :: rest ->
  queued_postStop s
  = ((if is_defer_postStop d then 1 else 0) + queued_postStop (set_sess rest s))%nat.
Proof.
  intros Hq. unfold queued_postStop. rewrite Hq. simpl.
  destruct (is_defer_postStop d); reflexivity.
Qed.

Lemma pending_event_loop : respects keeps_stop_pending_ok (step event_loop).
Proof.
  intros s a s' evs H Hj. simpl in H.
  apply bind_Ok in H. destruct H as (queue & s1 & e1 & e2 & H1 & H2 & ->).
  exec H1. destruct (sess s) as [|d rest] eqn:Hq.
  - exec H2. exact Hj.
  - apply bind_Ok in H2. destruct H2 as ([] & s2 & e3 & e4 & H2 & H3 & ->).
    exec H2. pose proof (queued_postStop_pop s d rest Hq) as Hpop.
    assert (Hother : is_defer_postStop d = false -> stop_pending_ok (set_sess rest s)).
    { intros Hd. rewrite Hd in Hpop. revert Hj. apply stop_pending_ok_view; simpl; auto. }
    destruct d; simpl in H3, Hpop.
    + exec H3. auto.
    + apply pending_tryGatheringComplete in H3. auto.
    + unfold postStop in H3. exec H3. left.
      change (queued_postStop (set_stopping false (set_sess rest s)))
        with (queued_postStop (set_sess rest s)).
      destruct Hj as [H0|(H1 & _)]; lia.
    + apply pending_deferred_ensureExt in H3. auto.
Qed.

#[global] Hint Resolve pending_update pending_stop pending_lt_stopped pending_tt_stopped
  pending_deferred_ensureExt : respects.

Lemma pending_step op : respects keeps_stop_pending_ok (step op).
Proof.
  destruct op; try apply pending_event_loop; simpl.
  all: respects_with pending_leaf.
Qed.

Lemma reachable_stop_pending_ok cid s : reachable cid s -> stop_pending_ok s.
Proof.
  induction 1 as [|s op s' evs Hreach IH Hstep].
  - left. reflexivity.
  - eapply pending_step; eassumption.
Qed.
(** *** The steps that can emit [stopped] *)

Lemma untouched_stopped_eraseLocalTransport h :
  respects stopped_untouched (eraseLocalTransport h).
Proof. respects_with stopped_untouched_leaf. Qed.

Lemma untouched_stopped_removeLocalCandidates sock :
  respects stopped_untouched (removeLocalCandidates sock).
Proof. respects_with stopped_untouched_leaf. Qed.

Lemma untouched_stopped_tryGatheringComplete : respects stopped_untouched tryGatheringComplete.
Proof. respects_with stopped_untouched_leaf. Qed.

Lemma untouched_stopped_deferred_ensureExt : respects stopped_untouched deferred_ensureExt.
Proof. respects_with stopped_untouched_leaf. Qed.

Lemma guarded_tryStopped s s' evs e0 s0 :
  stopped_untouched s0 s e0 ->
  tryStopped s = Ok (tt, s', evs) ->
  stopped_guarded s0 s' (e0 ++ evs).
Proof.
  intros [C0 H0] H. unfold tryStopped, postStop in H. exec H.
  - right. rewrite count_stopped_app, C0. simpl. auto.
  - left. split; [rewrite count_stopped_app, C0; reflexivity|exact H0].
Qed.

Lemma guarded_lt_stopped h s s' evs :
  lt_stopped h s = Ok (tt, s', evs) -> stopped_guarded s s' evs.
Proof.
  intros H. unfold lt_stopped in H.
  apply bind_Ok in H. destruct H as (alive & s1 & e1 & e2 & H1 & H2 & ->).
  pose proof (untouched_stopped_eraseLocalTransport h s alive s1 e1 H1) as Hu.
  unfold eraseLocalTransport in H1. exec H1.
  all: eapply guarded_tryStopped; eassumption.
Qed.

Lemma guarded_tt_stopped s s' evs :
  tt_stopped s = Ok (tt, s', evs) -> stopped_guarded s s' evs.
Proof.
  intros H. unfold tt_stopped in H.
  apply bind_Ok in H. destruct H as (turn & s0 & e1 & e2 & H0 & H & ->). exec H0.
  apply bind_Ok in H. destruct H as ([] & s1 & e3 & e4 & H1 & H2 & ->).
  apply bind_Ok in H2. destruct H2 as ([] & s2 & e5 & e6 & H2 & H3 & ->).
  apply untouched_stopped_removeLocalCandidates in H1. exec H2.
  simpl. eapply guarded_tryStopped; [|exact H3].
  destruct H1 as [C1 Hs1]. split; [exact C1|exact Hs1].
Qed.

Lemma guarded_event_loop s s' evs :
  stop_pending_ok s ->
  step event_loop s = Ok (tt, s', evs) -> stopped_guarded s s' evs.
Proof.
  intros Hj H. simpl in H.
  apply bind_Ok in H. destruct H as (queue & s1 & e1 & e2 & H1 & H2 & ->).
  exec H1. destruct (sess s) as [|d rest] eqn:Hq.
  - exec H2. left. apply transition_refl.
  - apply bind_Ok in H2. destruct H2 as ([] & s2 & e3 & e4 & H2 & H3 & ->).
    exec H2. pose proof (queued_postStop_pop s d rest Hq) as Hpop.
    destruct d; simpl in H3, Hpop.
    + exec H3. left. split; [reflexivity|auto].
    + left. apply untouched_stopped_tryGatheringComplete in H3. exact H3.
    + unfold postStop in H3. exec H3. right.
      split; [reflexivity|]. split; [reflexivity|].
      destruct Hj as [H0|(_ & _ & Hall)]; [lia|exact Hall].
    + left. apply untouched_stopped_deferred_ensureExt in H3. exact H3.
Qed.

(** ** Slots run to completion *)

#[global] Instance keeps_static_Transition : Transition keeps_static.
Proof.
  split.
  - intros s. reflexivity.
  - intros s1 s2 s3 e1 e2 H1 H2. unfold keeps_static in *. congruence.
Qed.

Ltac keeps_static_leaf :=
  unfold keeps_static;
  first [ reflexivity | apply static_update_lt; intros; reflexivity ].

Lemma static_tryGatheringComplete : respects keeps_static tryGatheringComplete.
Proof. respects_with keeps_static_leaf. Qed.

Lemma static_ensureExt h addrAt : respects keeps_static (ensureExt h addrAt).
Proof. respects_with keeps_static_leaf. Qed.

#[global] Hint Resolve static_tryGatheringComplete static_ensureExt : respects.

Section Returns.
Context {A B : Type}.

Lemma returns_bind (m : M A) (f : A -> M B) s :
  returns m s ->
  (forall a s1 e1, m s = Ok (a, s1, e1) -> returns (f a) s1) ->
  returns (bind m f) s.
Proof.
  intros (a & s1 & e1 & Hm) Hf. destruct (Hf a s1 e1 Hm) as (b & s2 & e2 & Hk).
  exists b, s2, (e1 ++ e2). unfold bind. rewrite Hm, Hk. reflexivity.
Qed.

Lemma returns_ret (a : A) s : returns (ret a) s.
Proof. exists a, s, []. reflexivity. Qed.

Lemma returns_gets (f : Private -> A) s : returns (gets f) s.
Proof. exists (f s), s, []. reflexivity. Qed.
End Returns.

Lemma returns_modify f s : returns (modify f) s.
Proof. exists tt, (f s), []. reflexivity. Qed.

Lemma returns_tell e s : returns (tell e) s.
Proof. exists tt, s, [e]. reflexivity. Qed.

Lemma returns_Q_ASSERT b s : b = true -> returns (Q_ASSERT b) s.
Proof. intros ->. exists tt, s, []. reflexivity. Qed.

Lemma returns_when b m s : (b = true -> returns m s) -> returns (when b m) s.
Proof. destruct b; [auto|intros _; apply returns_ret]. Qed.

Lemma returns_deref_lt h s lt :
  find_lt h (udpTransports s) = Some lt -> returns (deref_lt h) s.
Proof. intros H. exists lt, s, []. unfold deref_lt. rewrite H. reflexivity. Qed.

Lemma returns_choose_default_priority type localPref isVpn componentId s :
  0 <= localPref <= 65535 -> 1 <= componentId <= 256 ->
  returns (choose_default_priority type localPref isVpn componentId) s.
Proof.
  intros Hl Hc. eexists _, _, _. apply choose_default_priority_eq; assumption.
Qed.

Lemma returns_for_each {X} (P : Private -> Prop) (l : list X) body s :
  (forall x s, In x l -> P s -> returns (body x) s) ->
  (forall x s u s' evs, In x l -> P s -> body x s = Ok (u, s', evs) -> P s') ->
  P s -> returns (for_each l body) s.
Proof.
  revert s. induction l as [|x l IH]; intros s Hret Hinv Hs; simpl.
  - apply returns_ret.
  - apply returns_bind; [apply Hret; [left; reflexivity|exact Hs]|].
    intros u s1 e1 Hm. apply IH.
    + intros y s2 Hy. apply Hret. right. exact Hy.
    + intros y s2 u' s' evs Hy. apply Hinv. right. exact Hy.
    + eapply Hinv; [left; reflexivity|exact Hs|exact Hm].
Qed.

Lemma returns_storeLocalNotReduntantCandidate c s :
  returns (storeLocalNotReduntantCandidate c) s.
Proof.
  unfold returns. rewrite storeLocalNotReduntantCandidate_eq.
  destruct (find (redundant_with c) (localCandidates s)); eexists _, _, _; reflexivity.
Qed.

Lemma returns_tryGatheringComplete s : returns tryGatheringComplete s.
Proof.
  unfold tryGatheringComplete.
  apply returns_bind; [apply returns_gets|intros done s1 e1 H1; exec H1].
  apply returns_bind; [apply returns_gets|intros waiting s1 e1 H1; exec H1].
  destruct (gatheringComplete s || tcpTurn_not_started s); [apply returns_ret|].
  apply returns_bind; [apply returns_gets|intros ts s1 e1 H1; exec H1].
  apply returns_when. intros _.
  apply returns_bind; [apply returns_modify|intros u s1 e1 H1; exec H1].
  apply returns_tell.
Qed.

(** *** The static part decides whether the assertions hold *)

Lemma In_static_facts s s0 lt :
  static s = static s0 -> In lt (udpTransports s) ->
  exists lt0, In lt0 (udpTransports s0) /\ transport_facts lt0 = transport_facts lt.
Proof.
  intros Hs Hin.
  assert (Hmap : map transport_facts (udpTransports s) = map transport_facts (udpTransports s0)).
  { unfold static in Hs. congruence. }
  assert (Hf : In (transport_facts lt) (map transport_facts (udpTransports s0))).
  { rewrite <- Hmap. apply in_map. exact Hin. }
  apply in_map_iff in Hf. destruct Hf as (lt0 & Hfacts & Hin0). exists lt0. auto.
Qed.

Lemma assertions_hold_static s s0 :
  static s = static s0 -> assertions_hold s0 -> assertions_hold s.
Proof.
  intros Hs [Hid Hk]. split; [rewrite (static_id _ _ Hs); exact Hid|].
  intros lt Hin. destruct (In_static_facts _ _ _ Hs Hin) as (lt0 & Hin0 & Hfacts).
  rewrite (static_findLocalAddr _ _ _ Hs).
  unfold transport_facts in Hfacts. injection Hfacts as _ Ha _ _. rewrite <- Ha. auto.
Qed.

Lemma find_lt_static h s s0 lt0 :
  static s = static s0 -> find_lt h (udpTransports s0) = Some lt0 ->
  exists lt, find_lt h (udpTransports s) = Some lt.
Proof.
  intros Hs Hf. symmetry in Hs.
  destruct (static_find_lt _ _ _ _ Hs Hf) as (lt & Hlt & _). exists lt. exact Hlt.
Qed.

(** The position of a transport found in one state, looked up in another
    state with the same static part. *)
Lemma position_in_range h s1 s lt :
  static s1 = static s -> assertions_hold s ->
  find_lt h (udpTransports s1) = Some lt ->
  0 <= findLocalAddr (LocalTransport.addr lt) s <= 65535.
Proof.
  intros Hs [_ Hk] Hf. apply find_lt_In in Hf.
  destruct (In_static_facts _ _ _ Hs Hf) as (lt0 & Hin0 & Hfacts).
  unfold transport_facts in Hfacts. injection Hfacts as _ Ha _ _. rewrite <- Ha. auto.
Qed.

Lemma returns_ensureExt h addrAt s lt :
  find_lt h (udpTransports s) = Some lt ->
  0 <= addrAt <= 65535 -> 1 <= id s <= 256 ->
  returns (ensureExt h addrAt) s.
Proof.
  intros Hf Ha Hid. unfold ensureExt.
  apply returns_bind; [eapply returns_deref_lt; exact Hf|intros lt' s1 e1 H1; exec H1].
  destruct (negb (QHostAddress.isNull (LocalTransport.extAddr lt'))
            && negb (LocalTransport.ext_finished lt')); [|apply returns_ret].
  apply returns_bind; [apply returns_gets|intros cid s1 e1 H1; exec H1].
  apply returns_bind; [apply returns_choose_default_priority; lia|].
  intros prio s1 e1 H1. use_priority.
  apply returns_bind; [apply returns_gets|intros n s1 e1 H1; exec H1].
  apply returns_bind; [apply returns_modify|intros u s1 e1 H1; exec H1].
  apply returns_storeLocalNotReduntantCandidate.
Qed.
Lemma static_storeLocalNotReduntantCandidate c :
  respects keeps_static (storeLocalNotReduntantCandidate c).
Proof. respects_with keeps_static_leaf. Qed.

Ltac returns_trivial :=
  lazymatch goal with
  | |- returns (ret _) _ => apply returns_ret
  | |- returns (gets _) _ => apply returns_gets
  | |- returns (modify _) _ => apply returns_modify
  | |- returns (tell _) _ => apply returns_tell
  | |- returns (emit _) _ => apply returns_tell
  | |- returns (invoke _) _ => apply returns_tell
  | |- returns (defer _) _ => apply returns_modify
  | |- returns (assign_lt _ _) _ => apply returns_modify
  | |- returns (append_candidate _) _ => apply returns_modify
  | |- returns tryGatheringComplete _ => apply returns_tryGatheringComplete
  | |- returns (storeLocalNotReduntantCandidate _) _ =>
      apply returns_storeLocalNotReduntantCandidate
  end.

(** Walks a slot forwards; what is left are the assertions, the
    dereferences and the calls with a precondition. *)
Ltac returns_walk :=
  repeat first
    [ returns_trivial
    | lazymatch goal with
      | |- returns (bind _ _) _ =>
          apply returns_bind;
          [|let H := fresh "Hrun" in intros ? ? ? H; exec H]
      | |- returns (when _ _) _ => apply returns_when; intros ?
      | |- returns (if ?b then _ else _) _ => destruct b eqn:?
      end ].

Ltac use_static :=
  repeat match goal with
         | Hk : ensureExt _ _ ?sx = Ok _ |- _ =>
             apply static_ensureExt in Hk; unfold keeps_static in Hk
         | Hk : tryGatheringComplete ?sx = Ok _ |- _ =>
             apply static_tryGatheringComplete in Hk; unfold keeps_static in Hk
         | Hk : storeLocalNotReduntantCandidate _ ?sx = Ok _ |- _ =>
             apply static_storeLocalNotReduntantCandidate in Hk; unfold keeps_static in Hk
         end.

Ltac static_chain :=
  unfold static in *; simpl in *;
  rewrite ?map_facts_update_lt in * by (intros; reflexivity);
  first [reflexivity | assumption | congruence].

(** The facts the open goals need, about the state [sx] they are at. *)
Ltac assertion_facts s0 sx :=
  let Hst := fresh "Hstatic" in
  assert (Hst : static sx = static s0) by static_chain;
  let Hah := fresh "Hhold" in
  match goal with
  | H0 : assertions_hold s0 |- _ =>
      pose proof (assertions_hold_static sx s0 Hst H0) as Hah
  end;
  repeat match goal with
         | Hf : find_lt ?h (udpTransports ?s1) = Some ?a |- _ =>
             lazymatch goal with
             | _ : 0 <= findLocalAddr (LocalTransport.addr a) sx <= 65535 |- _ => fail
             | _ =>
                 let Hs1 := fresh "Hs" in
                 assert (Hs1 : static s1 = static sx) by static_chain;
                 pose proof (position_in_range h s1 sx a Hs1 Hah Hf)
             end
         end.

(** [findLocalAddr] reads the configuration only (hypotheses). *)
Ltac norm_findLocalAddr_hyps :=
  repeat match goal with
         | H : _ <= findLocalAddr ?a (?f ?v ?s) <= _ |- _ =>
             progress change (findLocalAddr a (f v s)) with (findLocalAddr a s) in H
         end.

Ltac range_solve :=
  repeat match goal with Hq : to_quint32 _ = _ |- _ => clear Hq end;
  simpl in *; first [assumption | lia].

Ltac returns_side s0 :=
  use_priority; use_static; norm_findLocalAddr;
  lazymatch goal with
  | |- returns (deref_lt ?h) ?sx =>
      assertion_facts s0 sx; assertion_facts s0 s0;
      match goal with
      | Hf : find_lt h (udpTransports s0) = Some ?lt0, Hst : static sx = static s0 |- _ =>
          let lt' := fresh "lt" in let Hlt := fresh "Hlt" in
          destruct (find_lt_static h sx s0 lt0 Hst Hf) as [lt' Hlt];
          eapply returns_deref_lt; exact Hlt
      end
  | |- returns (Q_ASSERT _) ?sx =>
      assertion_facts s0 sx; assertion_facts s0 s0; norm_findLocalAddr_hyps;
      apply returns_Q_ASSERT; apply negb_true_iff, Z.eqb_neq; lia
  | |- returns (choose_default_priority _ _ _ _) ?sx =>
      assertion_facts s0 sx; assertion_facts s0 s0; norm_findLocalAddr_hyps;
      repeat match goal with Hh : assertions_hold _ |- _ => destruct Hh as [? _] end;
      apply returns_choose_default_priority; range_solve
  | |- returns (ensureExt ?h _) ?sx =>
      assertion_facts s0 sx; assertion_facts s0 s0; norm_findLocalAddr_hyps;
      repeat match goal with Hh : assertions_hold _ |- _ => destruct Hh as [? _] end;
      match goal with
      | Hf : find_lt h (udpTransports s0) = Some ?lt0, Hst : static sx = static s0 |- _ =>
          let lt' := fresh "lt" in let Hlt := fresh "Hlt" in
          destruct (find_lt_static h sx s0 lt0 Hst Hf) as [lt' Hlt];
          eapply returns_ensureExt; [exact Hlt|range_solve|range_solve]
      end
  end.

Lemma returns_lt_started h s lt :
  find_lt h (udpTransports s) = Some lt -> assertions_hold s -> returns (lt_started h) s.
Proof.
  intros Hf Hhold. unfold lt_started. returns_walk.
  all: returns_side s.
Qed.
Lemma find_lt_of_handle i l :
  In i (map LocalTransport.handle l) -> exists lt, find_lt i l = Some lt.
Proof.
  unfold find_lt. induction l as [|a l IH]; simpl; [intros []|].
  destruct (Nat.eqb (LocalTransport.handle a) i) eqn:Ha; [eauto|].
  intros [Heq|Hin]; [|auto]. subst i. rewrite Nat.eqb_refl in Ha. discriminate.
Qed.

Lemma handles_static s s0 :
  static s = static s0 ->
  map LocalTransport.handle (udpTransports s) = map LocalTransport.handle (udpTransports s0).
Proof.
  intros Hs.
  assert (Hmap : map transport_facts (udpTransports s) = map transport_facts (udpTransports s0)).
  { unfold static in Hs. congruence. }
  apply (f_equal (map (fun f => fst (fst (fst f))))) in Hmap.
  rewrite !map_map in Hmap. exact Hmap.
Qed.

Lemma returns_removeLocalCandidates sock s : returns (removeLocalCandidates sock) s.
Proof. eexists _, _, _. apply removeLocalCandidates_eq. Qed.

(** The loop of [lt_addressesChanged] over the transports. *)
Lemma returns_inherit s0 s hs (lt : LocalTransport.t) ext addrAt :
  static s = static s0 -> assertions_hold s0 ->
  (forall i, In i hs -> In i (map LocalTransport.handle (udpTransports s0))) ->
  0 <= addrAt <= 65535 ->
  returns
    (for_each hs (fun i =>
       do li <- deref_lt i;
       when (QHostAddress.isNull (LocalTransport.extAddr li)
             && TransportAddress.eqb
                  (IceLocalTransport.localAddress (LocalTransport.sock li))
                  (IceLocalTransport.localAddress (LocalTransport.sock lt)))
            (assign_lt i (LocalTransport.set_extAddr ext);;
             when (LocalTransport.started li) (ensureExt i addrAt)))) s.
Proof.
  intros Hs Hhold Hhs Hat.
  apply (returns_for_each (fun s => static s = static s0)); [| |exact Hs].
  - intros i s1 Hi Hs1.
    destruct (find_lt_of_handle i (udpTransports s0) (Hhs i Hi)) as [li0 Hli0].
    returns_walk.
    all: returns_side s0.
  - intros i s1 u s' evs Hi Hs1 Hrun.
    assert (Hk : keeps_static s1 s' evs).
    { revert Hrun. generalize u. generalize evs. generalize s'. generalize s1.
      clear. intros s1 s' evs u. revert s1 u s' evs.
      change (respects keeps_static
                (do li <- deref_lt i;
                 when (QHostAddress.isNull (LocalTransport.extAddr li)
                       && TransportAddress.eqb
                            (IceLocalTransport.localAddress (LocalTransport.sock li))
                            (IceLocalTransport.localAddress (LocalTransport.sock lt)))
                      (assign_lt i (LocalTransport.set_extAddr ext);;
                       when (LocalTransport.started li) (ensureExt i addrAt)))).
      respects_with keeps_static_leaf. }
    unfold keeps_static in Hk. congruence.
Qed.
Ltac use_static_loops :=
  repeat match goal with
         | Hk : for_each ?l ?body ?sx = Ok (_, ?sy, ?e) |- _ =>
             let Hn := fresh "Hloop" in
             assert (Hn : static sy = static sx)
               by (refine ((_ : respects keeps_static (for_each l body)) sx _ sy e Hk);
                   respects_with keeps_static_leaf);
             clear Hk
         end.

Ltac inherit_returns s0 h Hhold :=
  match goal with
  | Hx : find_lt h (udpTransports s0) = Some ?a
    |- returns (for_each (map LocalTransport.handle _) _) ?sx =>
      apply (returns_inherit s0 sx _ a);
      [ static_chain
      | exact Hhold
      | let i := fresh "i" in let Hi := fresh "Hi" in intros i Hi; exact Hi
      | apply (position_in_range h s0 s0 a eq_refl Hhold Hx) ]
  end.

Lemma returns_lt_addressesChanged h s lt :
  find_lt h (udpTransports s) = Some lt -> assertions_hold s ->
  returns (lt_addressesChanged h) s.
Proof.
  intros Hf Hhold. unfold lt_addressesChanged. returns_walk.
  all: use_static_loops.
  all: try solve [returns_side s].
  all: use_priority; use_static; norm_findLocalAddr.
  all: inherit_returns s h Hhold.
Qed.

Lemma returns_deferred_ensureExt s : assertions_hold s -> returns deferred_ensureExt s.
Proof.
  intros Hhold. unfold deferred_ensureExt.
  apply returns_bind; [apply returns_gets|intros stop s1 e1 H1; exec H1].
  destruct (stopping s); [apply returns_ret|].
  apply returns_bind; [apply returns_gets|intros ts s1 e1 H1; exec H1].
  apply (returns_for_each (fun s1 => static s1 = static s)); [| |reflexivity].
  - intros i s1 Hi Hs1.
    destruct (find_lt_of_handle i (udpTransports s) Hi) as [li0 Hli0].
    returns_walk.
    all: returns_side s.
  - intros i s1 u s' evs Hi Hs1 Hrun.
    assert (Hk : keeps_static s1 s' evs).
    { revert Hrun. generalize u. generalize evs. generalize s'. generalize s1.
      clear. intros s1 s' evs u. revert s1 u s' evs.
      change (respects keeps_static
                (do lt <- deref_lt i;
                 when (LocalTransport.started lt)
                      (do addrAt <- gets (findLocalAddr (LocalTransport.addr lt));
                       Q_ASSERT (negb (addrAt =? -1));;
                       ensureExt i addrAt))).
      respects_with keeps_static_leaf. }
    unfold keeps_static in Hk. congruence.
Qed.

Lemma returns_tt_started s turn :
  tcpTurn s = Some turn -> 1 <= id s <= 256 -> returns tt_started s.
Proof.
  intros Ht Hid. unfold tt_started.
  apply returns_bind.
  { exists turn, s, []. unfold deref_tcpTurn. rewrite Ht. reflexivity. }
  intros t' s1 e1 H1. exec H1.
  apply returns_bind; [apply returns_gets|intros cid s1 e1 H1; exec H1].
  apply returns_bind; [apply returns_choose_default_priority; lia|].
  intros prio s1 e1 H1. use_priority.
  returns_walk.
Qed.

Lemma returns_eraseLocalTransport h s lt :
  find_lt h (udpTransports s) = Some lt -> returns (eraseLocalTransport h) s.
Proof.
  intros Hf. unfold eraseLocalTransport.
  apply returns_bind; [eapply returns_deref_lt; exact Hf|intros lt' s1 e1 H1; exec H1].
  apply returns_bind; [apply returns_tell|intros u s1 e1 H1; exec H1].
  apply returns_bind; [apply returns_removeLocalCandidates|intros u s1 e1 H1].
  returns_walk.
Qed.

Lemma returns_tryStopped s : returns tryStopped s.
Proof. unfold tryStopped, postStop. returns_walk. Qed.

Lemma returns_tt_erase s turn (after : M unit) :
  tcpTurn s = Some turn -> (forall s1, returns after s1) ->
  returns (do turn <- deref_tcpTurn;
           removeLocalCandidates (TurnRef (IceTurnTransport.handle turn));;
           modify (set_tcpTurn None);;
           after) s.
Proof.
  intros Ht Hafter.
  apply returns_bind.
  { exists turn, s, []. unfold deref_tcpTurn. rewrite Ht. reflexivity. }
  intros t' s1 e1 H1. exec H1.
  apply returns_bind; [apply returns_removeLocalCandidates|intros u s1 e1 H1].
  apply returns_bind; [apply returns_modify|intros u' s2 e2 H2]. apply Hafter.
Qed.
Lemma returns_connected_lt h m s :
  (forall lt, find_lt h (udpTransports s) = Some lt -> returns m s) ->
  returns (connected_lt h m) s.
Proof.
  intros Hm. unfold connected_lt.
  apply returns_bind; [apply returns_gets|intros found s1 e1 H1; exec H1].
  destruct (find_lt h (udpTransports s)) as [lt|]; [|apply returns_ret].
  apply returns_when. intros _. eapply Hm. reflexivity.
Qed.

Lemma returns_connected_tcpTurn m s :
  (forall turn, tcpTurn s = Some turn -> returns m s) ->
  returns (connected_tcpTurn m) s.
Proof.
  intros Hm. unfold connected_tcpTurn.
  apply returns_bind; [apply returns_gets|intros found s1 e1 H1; exec H1].
  destruct (tcpTurn s) as [turn|]; [|apply returns_ret].
  apply returns_when. intros _. eapply Hm. reflexivity.
Qed.

Lemma reachable_assertions_hold cid s :
  reachable cid s -> 1 <= cid <= 256 ->
  Z.of_nat (length (Config.localAddrs (config s))) <= 65536 ->
  assertions_hold s.
Proof.
  intros Hreach Hcid Hlen.
  destruct (reachable_invariant cid s Hreach) as [_ Hid].
  destruct (reachable_transports_ok cid s Hreach) as (Hknown & _ & _).
  split; [rewrite Hid; exact Hcid|].
  intros lt Hin. rewrite List.Forall_forall in Hknown.
  specialize (Hknown (address_facts lt) (in_map _ _ _ Hin)).
  unfold known_address in Hknown. simpl in Hknown.
  pose proof (findLocalAddr_from_range 0 _ _ Hknown ltac:(lia)) as Hr.
  unfold findLocalAddr. lia.
Qed.

Lemma returns_slot op s : assertions_hold s -> is_slot op = true -> returns (step op) s.
Proof.
  intros Hhold Hop. destruct op; try discriminate; simpl.
  all: try apply returns_modify.
  - apply returns_connected_lt. intros lt Hf. eapply returns_lt_started; eassumption.
  - apply returns_connected_lt. intros lt Hf. unfold lt_stopped.
    apply returns_bind; [eapply returns_eraseLocalTransport; exact Hf|].
    intros alive s1 e1 H1. apply returns_when. intros _. apply returns_tryStopped.
  - apply returns_connected_lt. intros lt Hf. eapply returns_lt_addressesChanged; eassumption.
  - apply returns_connected_lt. intros lt Hf. destruct error; simpl.
    + apply returns_bind; [eapply returns_eraseLocalTransport; exact Hf|].
      intros alive s1 e1 H1. apply returns_when. intros _. apply returns_tryGatheringComplete.
    + apply returns_bind; [eapply returns_eraseLocalTransport; exact Hf|].
      intros alive s1 e1 H1. apply returns_when. intros _. apply returns_tryGatheringComplete.
    + returns_walk.
    + returns_walk.
  - apply returns_tell.
  - apply returns_connected_tcpTurn. intros turn Ht.
    eapply returns_tt_started; [exact Ht|exact (proj1 Hhold)].
  - apply returns_connected_tcpTurn. intros turn Ht.
    eapply returns_tt_erase; [exact Ht|apply returns_tryStopped].
  - apply returns_connected_tcpTurn. intros turn Ht.
    eapply returns_tt_erase; [exact Ht|apply returns_tryGatheringComplete].
  - apply returns_bind; [apply returns_gets|intros queue s1 e1 H1; exec H1].
    destruct (sess s) as [|d rest]; [apply returns_ret|].
    apply returns_bind; [apply returns_modify|intros u s1 e1 H1; exec H1].
    destruct d; simpl.
    + apply returns_tell.
    + apply returns_tryGatheringComplete.
    + unfold postStop. returns_walk.
    + apply returns_deferred_ensureExt.
      revert Hhold. apply assertions_hold_static. reflexivity.
Qed.
Lemma returns_update_localAddrs las :
  forall socketList bindTo s, returns (update_localAddrs las socketList bindTo) s.
Proof.
  induction las as [|la las IH]; intros socketList bindTo s; simpl; [apply returns_ret|].
  apply returns_bind; [apply returns_gets|intros known s1 e1 H1; exec H1].
  destruct (negb (findLocalAddr (LocalAddress.addr la) s =? -1)); [apply IH|].
  apply returns_bind; [apply returns_gets|intros local s1 e1 H1; exec H1].
  match goal with
  | |- returns (match ?bound with _ => _ end) _ => destruct bound as [[qsock borrowed]|]
  end.
  - unfold createLocalTransport. returns_walk. apply IH.
  - returns_walk. apply IH.
Qed.

Lemma returns_update_extAddrs hs :
  forall need_doExt s,
    (forall h, In h hs -> In h (map LocalTransport.handle (udpTransports s))) ->
    returns (update_extAddrs hs need_doExt) s.
Proof.
  induction hs as [|h hs IH]; intros need_doExt s Hhs; simpl; [apply returns_ret|].
  destruct (find_lt_of_handle h (udpTransports s) (Hhs h (or_introl eq_refl))) as [lt Hlt].
  apply returns_bind; [eapply returns_deref_lt; exact Hlt|intros lt' s1 e1 H1; exec H1].
  assert (Hrest : forall h', In h' hs -> In h' (map LocalTransport.handle (udpTransports s))).
  { intros h' Hin. apply Hhs. right. exact Hin. }
  destruct (negb (QHostAddress.isNull (LocalTransport.extAddr lt'))); [apply IH; exact Hrest|].
  destruct (protocol_eqb _ IPv6Protocol); [apply IH; exact Hrest|].
  apply returns_bind; [apply returns_gets|intros exts s1 e1 H1; exec H1].
  destruct (find _ _); [|apply IH; exact Hrest].
  apply returns_bind; [apply returns_modify|intros u s1 e1 H1; exec H1].
  apply IH. simpl. rewrite map_handle_update_lt by (intros; reflexivity). exact Hrest.
Qed.

Lemma returns_update socketList bindTo s :
  stopping s = false -> returns (update socketList bindTo) s.
Proof.
  intros Hs. unfold update, update_stun. returns_walk.
  all: first [ apply returns_Q_ASSERT; rewrite Hs; reflexivity
             | apply returns_update_localAddrs
             | apply returns_update_extAddrs; intros h Hin; exact Hin ].
Qed.

(** ** What [update] keeps, and the identities of the transports *)

#[global] Instance locals_kept_Transition : Transition locals_kept.
Proof.
  split.
  - intros s. repeat split.
  - intros s1 s2 s3 e1 e2 (L1 & H1 & E1) (L2 & H2 & E2). split; [congruence|].
    split; [congruence|]. rewrite existsb_app, E1, E2. reflexivity.
Qed.

Ltac locals_leaf :=
  split; [reflexivity|]; split; [|reflexivity];
  simpl; rewrite ?map_handle_update_lt by (intros; reflexivity); reflexivity.

Lemma locals_update_extAddrs :
  forall hs need_doExt, respects locals_kept (update_extAddrs hs need_doExt).
Proof. respects_induction locals_leaf. Qed.

Lemma locals_update_stun : respects locals_kept update_stun.
Proof.
  intros s a s' evs H. unfold update_stun in H. exec H; repeat split.
Qed.

Lemma locals_update socketList bindTo s s' evs :
  update socketList bindTo s = Ok (tt, s', evs) ->
  Config.localAddrs (config s) <> [] ->
  locals_kept s s' evs.
Proof.
  intros H Hne. unfold update in H. exec H.
  all: repeat match goal with
       | Hk : update_stun _ = Ok _ |- _ => apply locals_update_stun in Hk
       | Hk : update_extAddrs _ _ _ = Ok _ |- _ => apply locals_update_extAddrs in Hk
       end.
  all: unfold locals_kept in *; simpl in *.
  all: repeat match goal with
       | Hk : _ /\ _ |- _ => destruct Hk
       end.
  all: try match goal with
       | Hb : _ && isEmpty (Config.localAddrs (config ?x)) = true |- _ =>
           exfalso; apply andb_prop in Hb; destruct Hb as [_ Hb];
           destruct (Config.localAddrs (config x)) eqn:Hl; [|discriminate];
           apply Hne; congruence
       end.
  all: rewrite ?existsb_app; simpl.
  all: repeat match goal with
       | He : existsb is_sock_start _ = false |- _ => rewrite He; clear He
       end.
  all: repeat split; simpl; try congruence.
Qed.
#[global] Instance keeps_handles_ok_Transition : Transition keeps_handles_ok.
Proof.
  split.
  - intros s H. exact H.
  - intros s1 s2 s3 e1 e2 H1 H2 H. auto.
Qed.

Lemma handles_ok_update_lt h f s :
  (forall x, LocalTransport.handle (f x) = LocalTransport.handle x) ->
  handles_ok s -> handles_ok (set_udpTransports (update_lt h f (udpTransports s)) s).
Proof.
  intros Hf [Hnd Hlt]. unfold handles_ok. simpl.
  rewrite map_handle_update_lt by exact Hf. auto.
Qed.

Lemma NoDup_map_removeOne h l :
  List.NoDup (map LocalTransport.handle l) ->
  List.NoDup (map LocalTransport.handle (removeOne h l)).
Proof.
  induction l as [|a l IH]; simpl; intros H; [constructor|].
  inversion H as [|x l' Ha Hl]; subst.
  destruct (Nat.eqb (LocalTransport.handle a) h); [exact Hl|].
  simpl. constructor; [|auto].
  intros Hin. apply Ha. apply in_map_iff in Hin. destruct Hin as (x & Hx & Hin).
  rewrite <- Hx. apply in_map. eapply removeOne_incl. exact Hin.
Qed.

Lemma handles_ok_removeOne h s :
  handles_ok s -> handles_ok (set_udpTransports (removeOne h (udpTransports s)) s).
Proof.
  intros [Hnd Hlt]. split; simpl.
  - apply NoDup_map_removeOne. exact Hnd.
  - apply Forall_map_removeOne. exact Hlt.
Qed.

Lemma handles_ok_nextHandle s :
  handles_ok s -> handles_ok (set_nextHandle (S (nextHandle s)) s).
Proof.
  intros [Hnd Hlt]. split; [exact Hnd|]. simpl.
  revert Hlt. apply List.Forall_impl. intros h Hh. lia.
Qed.

Lemma handles_ok_new s lt :
  handles_ok s -> LocalTransport.handle lt = nextHandle s ->
  handles_ok (set_udpTransports (udpTransports s ++ [lt]) (set_nextHandle (S (nextHandle s)) s)).
Proof.
  intros [Hnd Hlt] Hh. split; simpl; rewrite map_app; simpl.
  - apply NoDup_snoc; [exact Hnd|]. intros Hin.
    rewrite List.Forall_forall in Hlt. specialize (Hlt _ Hin). lia.
  - apply Forall_app. split.
    + revert Hlt. apply List.Forall_impl. intros h Hl. lia.
    + constructor; [lia|constructor].
Qed.

Ltac handles_leaf :=
  let Hok := fresh "Hok" in
  intros Hok;
  first [ exact Hok
        | apply handles_ok_update_lt; [intros; reflexivity|exact Hok]
        | apply handles_ok_removeOne; exact Hok ].

Lemma handles_removeLocalCandidates_from :
  forall fuel sock n, respects keeps_handles_ok (removeLocalCandidates_from fuel sock n).
Proof. respects_induction handles_leaf. Qed.

Lemma handles_update_extAddrs :
  forall hs need_doExt, respects keeps_handles_ok (update_extAddrs hs need_doExt).
Proof. respects_induction handles_leaf. Qed.

Lemma handles_update_localAddrs :
  forall las socketList bindTo,
    respects keeps_handles_ok (update_localAddrs las socketList bindTo).
Proof.
  intros las socketList bindTo. revert socketList.
  induction las as [|la las IH]; intros socketList s a s' evs H Hok; simpl in H.
  - exec H. exact Hok.
  - unfold createLocalTransport in H. exec H.
    all: match goal with
         | Hrec : update_localAddrs _ _ _ _ = Ok _ |- _ => apply IH in Hrec; apply Hrec
         end.
    all: try exact Hok.
    pose proof (handles_ok_new
                 (set_config (Config.set_localAddrs (Config.localAddrs (config s) ++ [la])
                                                    (config s)) s)) as Hnew.
    simpl in Hnew. apply Hnew; [exact Hok|reflexivity].
Qed.

Lemma handles_update_stun : respects keeps_handles_ok update_stun.
Proof. respects_with handles_leaf. Qed.

Lemma handles_update socketList bindTo : respects keeps_handles_ok (update socketList bindTo).
Proof.
  intros s a s' evs H Hok. unfold update in H. exec H.
  all: repeat match goal with
       | Hk : update_stun _ = Ok _ |- _ => apply handles_update_stun in Hk
       | Hk : update_localAddrs _ _ _ _ = Ok _ |- _ => apply handles_update_localAddrs in Hk
       | Hk : update_extAddrs _ _ _ = Ok _ |- _ => apply handles_update_extAddrs in Hk
       end.
  all: repeat match goal with
       | Hk : keeps_handles_ok _ _ _ |- _ =>
           unfold keeps_handles_ok in Hk; simpl in Hk;
           first [specialize (Hk Hok) | specialize (Hk ltac:(assumption))]
       end.
  all: repeat match goal with
       | Hk : handles_ok ?x |- handles_ok ?x => exact Hk
       | |- handles_ok (set_tcpTurn _ ?y) => change (handles_ok y)
       | |- handles_ok (set_sess _ ?y) => change (handles_ok y)
       | |- handles_ok (set_localFinished _ ?y) => change (handles_ok y)
       | |- handles_ok (set_config _ ?y) => change (handles_ok y)
       | |- handles_ok (set_nextHandle (S (nextHandle _)) ?y) =>
           refine (handles_ok_nextHandle y _)
       end.
Qed.

#[global] Hint Resolve handles_removeLocalCandidates_from handles_update_extAddrs
  handles_update : respects.

Lemma keeps_handles_ok_step op : respects keeps_handles_ok (step op).
Proof.
  destruct op; simpl.
  all: respects_with handles_leaf.
Qed.

Lemma reachable_handles_ok cid s : reachable cid s -> handles_ok s.
Proof.
  induction 1 as [|s op s' evs Hreach IH Hstep].
  - split; constructor.
  - eapply keeps_handles_ok_step; eassumption.
Qed.

Lemma find_lt_removeOne_eq h l :
  List.NoDup (map LocalTransport.handle l) -> find_lt h (removeOne h l) = None.
Proof.
  unfold find_lt. induction l as [|a l IH]; simpl; intros H; [reflexivity|].
  inversion H as [|x l' Ha Hl]; subst.
  destruct (Nat.eqb (LocalTransport.handle a) h) eqn:Heq.
  - apply Nat.eqb_eq in Heq. subst h.
    destruct (find (fun x => Nat.eqb (LocalTransport.handle x) (LocalTransport.handle a)) l)
      as [x|] eqn:Hx; [|reflexivity].
    exfalso. apply find_some in Hx. destruct Hx as [Hin Hh]. apply Nat.eqb_eq in Hh.
    apply Ha. rewrite <- Hh. apply in_map. exact Hin.
  - simpl. rewrite Heq. auto.
Qed.
(** ** The data channel: bytes and the reading loop *)


Lemma byte_at_range data i : 0 <= QByteArray.byte_at data i < 2 ^ 8.
Proof.
  unfold QByteArray.byte_at. pose proof (Byte.to_N_bounded (nth i data Byte.x00)) as H.
  change (2 ^ 8) with 256. lia.
Qed.

Lemma qFromBigEndian16_range data off : 0 <= qFromBigEndian16 data off < 2 ^ 16.
Proof.
  unfold qFromBigEndian16.
  pose proof (byte_at_range data off). pose proof (byte_at_range data (off + 1)).
  change (2 ^ 8) with 256 in *. change (2 ^ 16) with 65536. lia.
Qed.

Lemma qFromBigEndian32_range data off : 0 <= qFromBigEndian32 data off < 2 ^ 32.
Proof.
  unfold qFromBigEndian32.
  pose proof (byte_at_range data off). pose proof (byte_at_range data (off + 1)).
  pose proof (byte_at_range data (off + 2)). pose proof (byte_at_range data (off + 3)).
  change (2 ^ 8) with 256 in *. change (2 ^ 16) with 65536.
  change (2 ^ 24) with 16777216. change (2 ^ 32) with 4294967296. lia.
Qed.

Lemma mid_length data pos len :
  0 <= pos -> 0 <= len -> pos + len <= QByteArray.size data ->
  QByteArray.size (QByteArray.mid data pos len) = len.
Proof.
  intros Hp Hl Hs. unfold QByteArray.mid, QByteArray.size in *.
  rewrite length_firstn, length_skipn. lia.
Qed.
Lemma memcpy_length buf a src n :
  0 <= a -> 0 <= n -> n <= QByteArray.size src -> a + n <= QByteArray.size buf ->
  QByteArray.size (WebRTCDataChannel.memcpy buf a src n) = QByteArray.size buf.
Proof.
  unfold WebRTCDataChannel.memcpy, QByteArray.size. intros Ha Hn Hs Hb.
  rewrite !length_app, !length_firstn, length_skipn. lia.
Qed.

Lemma memcpy_whole buf a src :
  0 <= a -> a + QByteArray.size src <= QByteArray.size buf ->
  firstn (Z.to_nat (a + QByteArray.size src))
         (WebRTCDataChannel.memcpy buf a src (QByteArray.size src))
  = firstn (Z.to_nat a) buf ++ src.
Proof.
  unfold WebRTCDataChannel.memcpy, QByteArray.size. intros Ha Hb.
  rewrite Nat2Z.id, firstn_all.
  rewrite app_assoc, firstn_app.
  assert (Hlen : length (firstn (Z.to_nat a) buf ++ src)
                 = Z.to_nat (a + Z.of_nat (length src))).
  { rewrite length_app, length_firstn. lia. }
  rewrite <- Hlen, firstn_all, Nat.sub_diag. simpl. apply app_nil_r.
Qed.

Lemma memcpy_nothing buf a src : WebRTCDataChannel.memcpy buf a src 0 = buf.
Proof.
  unfold WebRTCDataChannel.memcpy. simpl. rewrite Nat.add_0_r. apply firstn_skipn.
Qed.

Lemma firstn_firstn_le {X} (l : list X) i j : (i <= j)%nat -> firstn i (firstn j l) = firstn i l.
Proof. intros Hij. rewrite firstn_firstn. f_equal. lia. Qed.

Lemma size_app (a b : QByteArray.t) :
  QByteArray.size (a ++ b) = QByteArray.size a + QByteArray.size b.
Proof. unfold QByteArray.size. rewrite length_app. lia. Qed.

Lemma size_nonneg (a : QByteArray.t) : 0 <= QByteArray.size a.
Proof. unfold QByteArray.size. lia. Qed.

Lemma size_zero (a : QByteArray.t) : QByteArray.size a = 0 -> a = [].
Proof. unfold QByteArray.size. destruct a; [reflexivity|simpl; lia]. Qed.
Lemma memcpy_prefix buf a src n :
  0 <= a -> a <= QByteArray.size buf ->
  firstn (Z.to_nat a) (WebRTCDataChannel.memcpy buf a src n) = firstn (Z.to_nat a) buf.
Proof.
  unfold WebRTCDataChannel.memcpy, QByteArray.size. intros Ha Hb.
  rewrite firstn_app.
  rewrite length_firstn, Nat.min_l by lia. rewrite Nat.sub_diag. simpl.
  rewrite app_nil_r. apply firstn_firstn_le. lia.
Qed.

Lemma memcpy_beyond buf a src :
  0 <= a -> a + QByteArray.size src <= QByteArray.size buf ->
  skipn (Z.to_nat (a + QByteArray.size src))
        (WebRTCDataChannel.memcpy buf a src (QByteArray.size src))
  = skipn (Z.to_nat (a + QByteArray.size src)) buf.
Proof.
  unfold WebRTCDataChannel.memcpy, QByteArray.size. intros Ha Hb.
  rewrite Nat2Z.id, firstn_all, app_assoc.
  assert (Hlen : length (firstn (Z.to_nat a) buf ++ src)
                 = Z.to_nat (a + Z.of_nat (length src))).
  { rewrite length_app, length_firstn. lia. }
  rewrite skipn_app, <- Hlen, skipn_all, Nat.sub_diag.
  rewrite skipn_O. cbn [app]. rewrite Hlen. f_equal. lia.
Qed.

Lemma skipn_further {X} (l1 l2 : list X) i j :
  skipn i l1 = skipn i l2 -> (i <= j)%nat -> skipn j l1 = skipn j l2.
Proof.
  intros H Hij. replace j with ((j - i) + i)%nat by lia.
  rewrite <- !skipn_skipn, H. reflexivity.
Qed.

(** The loop entered with an empty tail and room for all queued bytes. *)
Lemma readDataInternal_loop_drains ds :
  forall fuel buf a sz ba,
    (length ds <= fuel)%nat -> (1 <= fuel)%nat ->
    QByteArray.size (concat ds) <= sz -> 0 <= a -> a + sz <= QByteArray.size buf ->
    exists ds' buf',
      WebRTCDataChannel.readDataInternal_loop fuel (WebRTCDataChannel.mkInbox ds [] ba) buf a sz
      = (WebRTCDataChannel.mkInbox ds' [] ba, buf', a + QByteArray.size (concat ds))
      /\ concat ds' = []
      /\ firstn (Z.to_nat (a + QByteArray.size (concat ds))) buf'
         = firstn (Z.to_nat a) buf ++ concat ds
      /\ skipn (Z.to_nat (a + QByteArray.size (concat ds))) buf'
         = skipn (Z.to_nat (a + QByteArray.size (concat ds))) buf.
Proof.
  induction ds as [|d rest IH]; intros fuel buf a sz ba Hfuel H1 Hsz Ha Hbuf;
    destruct fuel as [|fuel]; try lia; cbn [WebRTCDataChannel.readDataInternal_loop].
  - cbn [WebRTCDataChannel.datagrams WebRTCDataChannel.tail WebRTCDataChannel._bytesAvailable].
    change (QByteArray.size []) with 0. simpl concat in *. change (QByteArray.size []) with 0 in *.
    rewrite Z.min_r by lia. rewrite Z.eqb_refl, memcpy_nothing.
    cbn [isEmpty negb andb]. rewrite andb_false_r.
    exists [], buf. rewrite Z.add_0_r, app_nil_r. auto.
  - cbn [WebRTCDataChannel.datagrams WebRTCDataChannel.tail WebRTCDataChannel._bytesAvailable
         QByteArray.isEmpty].
    simpl concat in Hsz. rewrite size_app in Hsz.
    pose proof (size_nonneg d) as Hd. pose proof (size_nonneg (concat rest)) as Hrest.
    rewrite Z.min_r by lia. rewrite Z.eqb_refl.
    assert (Hcopy : firstn (Z.to_nat (a + QByteArray.size d))
                           (WebRTCDataChannel.memcpy buf a d (QByteArray.size d))
                    = firstn (Z.to_nat a) buf ++ d) by (apply memcpy_whole; lia).
    assert (Hlen : QByteArray.size (WebRTCDataChannel.memcpy buf a d (QByteArray.size d))
                   = QByteArray.size buf) by (apply memcpy_length; lia).
    assert (Hkeep : skipn (Z.to_nat (a + QByteArray.size d))
                          (WebRTCDataChannel.memcpy buf a d (QByteArray.size d))
                    = skipn (Z.to_nat (a + QByteArray.size d)) buf)
      by (apply memcpy_beyond; lia).
    simpl concat. rewrite size_app.
    cbn [WebRTCDataChannel.datagrams WebRTCDataChannel.tail WebRTCDataChannel._bytesAvailable].
    match goal with |- context [if ?c then _ else _] => destruct c eqn:Hmore end.
    + apply andb_prop in Hmore. destruct Hmore as [Hpos Hne].
      assert (Hfuel' : (1 <= fuel)%nat) by (destruct rest; [discriminate|simpl in Hfuel; lia]).
      destruct (IH fuel (WebRTCDataChannel.memcpy buf a d (QByteArray.size d))
                   (a + QByteArray.size d) (sz - QByteArray.size d) ba)
        as (ds' & buf' & Hrun & Hds' & Hpre & Hpost); try lia.
      { simpl in Hfuel. lia. }
      exists ds', buf'. rewrite Hrun. rewrite Z.add_assoc.
      split; [reflexivity|]. split; [exact Hds'|]. split.
      * rewrite Hpre, Hcopy, <- app_assoc. reflexivity.
      * rewrite Hpost. apply (skipn_further _ _ _ _ Hkeep). lia.
    + assert (Hnil : concat rest = []).
      { apply andb_false_iff in Hmore. destruct Hmore as [Hpos|Hne].
        - apply Z.ltb_ge in Hpos. apply size_zero. lia.
        - destruct rest; [reflexivity|discriminate]. }
      exists rest, (WebRTCDataChannel.memcpy buf a d (QByteArray.size d)).
      rewrite Hnil. change (QByteArray.size []) with 0. rewrite Z.add_0_r, app_nil_r.
      auto.
Qed.

(** A tail that is not empty is read as a datagram at the head of the
    queue would be. *)
Lemma readDataInternal_loop_tail fuel ds t ba buf a sz :
  QByteArray.isEmpty t = false ->
  WebRTCDataChannel.readDataInternal_loop (S fuel) (WebRTCDataChannel.mkInbox ds t ba) buf a sz
  = WebRTCDataChannel.readDataInternal_loop (S fuel)
      (WebRTCDataChannel.mkInbox (t :: ds) [] ba) buf a sz.
Proof.
  intros Ht. cbn [WebRTCDataChannel.readDataInternal_loop WebRTCDataChannel.datagrams
                  WebRTCDataChannel.tail WebRTCDataChannel._bytesAvailable].
  rewrite Ht. cbn [QByteArray.isEmpty]. destruct ds; reflexivity.
Qed.

Lemma pending_bytes_onIncomingData data x :
  pending_bytes (WebRTCDataChannel.onIncomingData data x) = pending_bytes x ++ data.
Proof.
  unfold pending_bytes, WebRTCDataChannel.onIncomingData.
  cbn [WebRTCDataChannel.datagrams WebRTCDataChannel.tail].
  rewrite concat_app. simpl. rewrite app_nil_r, app_assoc. reflexivity.
Qed.

Lemma pending_bytes_incoming datas :
  forall x, pending_bytes (incoming datas x) = pending_bytes x ++ concat datas.
Proof.
  unfold incoming. induction datas as [|d datas IH]; intros x; simpl.
  - rewrite app_nil_r. reflexivity.
  - rewrite IH, pending_bytes_onIncomingData, <- app_assoc. reflexivity.
Qed.

Lemma bytesAvailable_incoming datas :
  forall x, WebRTCDataChannel._bytesAvailable (incoming datas x)
            = WebRTCDataChannel._bytesAvailable x + QByteArray.size (concat datas).
Proof.
  unfold incoming. induction datas as [|d datas IH]; intros x; simpl.
  - change (QByteArray.size []) with 0. lia.
  - rewrite IH, size_app. unfold WebRTCDataChannel.onIncomingData.
    cbn [WebRTCDataChannel._bytesAvailable]. lia.
Qed.

(** [readDataInternal] with room for every pending byte. *)
Lemma readDataInternal_room x buf sz :
  QByteArray.size (pending_bytes x) <= sz -> sz <= QByteArray.size buf ->
  exists x' buf',
    WebRTCDataChannel.readDataInternal x buf sz = (x', buf', QByteArray.size (pending_bytes x))
    /\ pending_bytes x' = []
    /\ firstn (Z.to_nat (QByteArray.size (pending_bytes x))) buf' = pending_bytes x
    /\ skipn (Z.to_nat (QByteArray.size (pending_bytes x))) buf'
       = skipn (Z.to_nat (QByteArray.size (pending_bytes x))) buf
    /\ WebRTCDataChannel._bytesAvailable x'
       = WebRTCDataChannel._bytesAvailable x - QByteArray.size (pending_bytes x).
Proof.
  destruct x as [ds t ba]. unfold pending_bytes, WebRTCDataChannel.readDataInternal.
  cbn [WebRTCDataChannel.datagrams WebRTCDataChannel.tail WebRTCDataChannel._bytesAvailable].
  intros Hsz Hbuf.
  assert (Hrun : exists ds' buf',
             WebRTCDataChannel.readDataInternal_loop (S (length ds))
               (WebRTCDataChannel.mkInbox ds t ba) buf 0 sz
             = (WebRTCDataChannel.mkInbox ds' [] ba, buf', QByteArray.size (t ++ concat ds))
             /\ concat ds' = []
             /\ firstn (Z.to_nat (QByteArray.size (t ++ concat ds))) buf' = t ++ concat ds
             /\ skipn (Z.to_nat (QByteArray.size (t ++ concat ds))) buf'
                = skipn (Z.to_nat (QByteArray.size (t ++ concat ds))) buf).
  { destruct t as [|b t].
    - destruct (readDataInternal_loop_drains ds (S (length ds)) buf 0 sz ba)
        as (ds' & buf' & Hrun & Hds' & Hpre & Hpost);
        try lia; try apply Nat.le_succ_diag_r.
      { exact Hsz. }
      exists ds', buf'. simpl app. rewrite Z.add_0_l in *. auto.
    - rewrite readDataInternal_loop_tail by reflexivity.
      destruct (readDataInternal_loop_drains ((b :: t) :: ds) (S (length ds)) buf 0 sz ba)
        as (ds' & buf' & Hrun & Hds' & Hpre & Hpost);
        try lia; try apply Nat.le_refl.
      { exact Hsz. }
      exists ds', buf'. simpl concat in *. rewrite Z.add_0_l in *. auto. }
  destruct Hrun as (ds' & buf' & Hrun & Hds' & Hpre & Hpost).
  rewrite Hrun. cbn [WebRTCDataChannel.datagrams WebRTCDataChannel.tail
                     WebRTCDataChannel._bytesAvailable].
  eexists _, buf'. split; [reflexivity|].
  cbn [WebRTCDataChannel.datagrams WebRTCDataChannel.tail WebRTCDataChannel._bytesAvailable].
  rewrite Hds'. auto.
Qed.
(** One turn of the loop with more or less fuel behind it: the turns that
    follow start with a queue that is not empty and less waiting than
    before. *)
Lemma readDataInternal_loop_cong f g x buf a sz :
  (forall x2 buf2 a2 sz2,
      WebRTCDataChannel.datagrams x2 <> [] ->
      (chunks_waiting x2 < chunks_waiting x)%nat ->
      WebRTCDataChannel.readDataInternal_loop f x2 buf2 a2 sz2
      = WebRTCDataChannel.readDataInternal_loop g x2 buf2 a2 sz2) ->
  WebRTCDataChannel.readDataInternal_loop (S f) x buf a sz
  = WebRTCDataChannel.readDataInternal_loop (S g) x buf a sz.
Proof.
  intros Hnext. destruct x as [ds t ba].
  cbn [WebRTCDataChannel.readDataInternal_loop WebRTCDataChannel.datagrams
       WebRTCDataChannel.tail WebRTCDataChannel._bytesAvailable].
  destruct ds as [|dg rest]; [|destruct (QByteArray.isEmpty t) eqn:Ht];
    cbn [WebRTCDataChannel.datagrams WebRTCDataChannel.tail WebRTCDataChannel._bytesAvailable];
    repeat match goal with
           | |- (if ?c then _ else _) = (if ?c then _ else _) =>
               destruct c eqn:?; try reflexivity
           end;
    match goal with
    | Hc : (_ && negb (isEmpty ?l)) = true |- _ =>
        apply andb_prop in Hc; destruct Hc as [_ Hc];
        first [ discriminate Hc
              | assert (Hl : l <> []) by (intros El; rewrite El in Hc; discriminate);
                apply Hnext; [exact Hl|] ]
    end;
    unfold chunks_waiting;
    cbn [WebRTCDataChannel.datagrams WebRTCDataChannel.tail length];
    repeat match goal with
           | H : negb ?b = false |- _ => apply negb_false_iff in H
           | H : QByteArray.isEmpty _ = _ |- _ => rewrite H
           end;
    cbn [QByteArray.isEmpty]; try lia.
Qed.
(** Fuel beyond the chunks that wait is not used. *)
Lemma readDataInternal_loop_fuel_S :
  forall f x buf a sz,
    (chunks_waiting x <= S f)%nat ->
    WebRTCDataChannel.readDataInternal_loop (S (S f)) x buf a sz
    = WebRTCDataChannel.readDataInternal_loop (S f) x buf a sz.
Proof.
  induction f as [|f IH]; intros x buf a sz Hx; apply readDataInternal_loop_cong;
    intros x2 buf2 a2 sz2 Hne Hless.
  - exfalso. unfold chunks_waiting in Hless at 1.
    destruct (WebRTCDataChannel.datagrams x2); [congruence|simpl in Hless; lia].
  - apply IH. lia.
Qed.

Lemma readDataInternal_loop_fuel extra :
  forall f x buf a sz,
    (chunks_waiting x <= S f)%nat ->
    WebRTCDataChannel.readDataInternal_loop (S f + extra) x buf a sz
    = WebRTCDataChannel.readDataInternal_loop (S f) x buf a sz.
Proof.
  induction extra as [|extra IH]; intros f x buf a sz Hx.
  - rewrite Nat.add_0_r. reflexivity.
  - replace (S f + S extra)%nat with (S (S f) + extra)%nat by lia.
    rewrite IH by lia. apply readDataInternal_loop_fuel_S. exact Hx.
Qed.

Lemma chunks_waiting_bound x :
  (chunks_waiting x <= S (length (WebRTCDataChannel.datagrams x)))%nat.
Proof.
  unfold chunks_waiting. destruct (QByteArray.isEmpty (WebRTCDataChannel.tail x)); lia.
Qed.

Lemma remove_front_nonempty n (t : QByteArray.t) :
  0 <= n -> n < QByteArray.size t -> QByteArray.isEmpty (QByteArray.remove_front n t) = false.
Proof.
  unfold QByteArray.remove_front, QByteArray.size. intros Hn Hlt.
  destruct (skipn (Z.to_nat n) t) eqn:E; [|reflexivity].
  apply (f_equal (@length _)) in E. rewrite length_skipn in E. simpl in E. lia.
Qed.

Lemma skipn_app_l {X} (l1 l2 : list X) n :
  (n <= length l1)%nat -> skipn n (l1 ++ l2) = skipn n l1 ++ l2.
Proof.
  intros Hn. rewrite skipn_app. replace (n - length l1)%nat with 0%nat by lia.
  rewrite skipn_O. reflexivity.
Qed.

Lemma skipn_app_r {X} (l1 l2 : list X) n :
  skipn (length l1 + n) (l1 ++ l2) = skipn n l2.
Proof.
  rewrite skipn_app, skipn_all2 by lia.
  replace (length l1 + n - length l1)%nat with n by lia. reflexivity.
Qed.

Lemma firstn_app_r {X} (l1 l2 : list X) n :
  firstn (length l1 + n) (l1 ++ l2) = l1 ++ firstn n l2.
Proof.
  rewrite firstn_app, firstn_all2 by lia.
  replace (length l1 + n - length l1)%nat with n by lia. reflexivity.
Qed.

(** What every run of the loop keeps, whatever the room: the bytes counted
    are the first of the pending bytes, in order, behind those counted
    before; what stays pending is a rest of the pending bytes; at most [sz]
    bytes are taken out, and they are all counted unless the loop ends
    inside a chunk. *)
Lemma readDataInternal_loop_safe fuel :
  forall x buf a sz,
    0 <= a -> 0 <= sz -> a + sz <= QByteArray.size buf ->
    exists x' buf' n k,
      WebRTCDataChannel.readDataInternal_loop fuel x buf a sz = (x', buf', a + n)
      /\ 0 <= n /\ n <= k /\ k <= sz
      /\ (n = k \/ (k = sz /\ QByteArray.isEmpty (WebRTCDataChannel.tail x') = false))
      /\ pending_bytes x' = skipn (Z.to_nat k) (pending_bytes x)
      /\ firstn (Z.to_nat (a + n)) buf'
         = firstn (Z.to_nat a) buf ++ firstn (Z.to_nat n) (pending_bytes x)
      /\ QByteArray.size buf' = QByteArray.size buf
      /\ WebRTCDataChannel._bytesAvailable x' = WebRTCDataChannel._bytesAvailable x.
Proof.
  induction fuel as [|fuel IH]; intros x buf a sz Ha Hsz Hbuf.
  - exists x, buf, 0, 0. cbn [WebRTCDataChannel.readDataInternal_loop].
    rewrite Z.add_0_r. simpl. rewrite app_nil_r. repeat split; auto; lia.
  - (* the state after the datagram at the head has become the tail *)
    assert (Hpop : exists t ds,
               (match WebRTCDataChannel.datagrams x with
                | dg :: rest =>
                    if QByteArray.isEmpty (WebRTCDataChannel.tail x)
                    then WebRTCDataChannel.mkInbox rest dg (WebRTCDataChannel._bytesAvailable x)
                    else x
                | [] => x
                end) = WebRTCDataChannel.mkInbox ds t (WebRTCDataChannel._bytesAvailable x)
               /\ pending_bytes x = t ++ concat ds).
    { destruct x as [ds t ba]. unfold pending_bytes.
      cbn [WebRTCDataChannel.datagrams WebRTCDataChannel.tail WebRTCDataChannel._bytesAvailable].
      destruct ds as [|dg rest]; [exists t, []; auto|].
      destruct t as [|b t]; cbn [QByteArray.isEmpty].
      - exists dg, rest. auto.
      - exists (b :: t), (dg :: rest). auto. }
    destruct Hpop as (t & ds & Hpop & Hpending).
    cbn [WebRTCDataChannel.readDataInternal_loop]. rewrite Hpop, Hpending.
    cbn [WebRTCDataChannel.datagrams WebRTCDataChannel.tail WebRTCDataChannel._bytesAvailable].
    set (ba := WebRTCDataChannel._bytesAvailable x).
    pose proof (size_nonneg t) as Ht.
    assert (Hgo : forall buf2,
               firstn (Z.to_nat (a + QByteArray.size t)) buf2 = firstn (Z.to_nat a) buf ++ t ->
               QByteArray.size buf2 = QByteArray.size buf ->
               QByteArray.size t <= sz ->
               exists x' buf' n k,
                 (if (0 <? sz - QByteArray.size t) && negb (isEmpty ds)
                  then WebRTCDataChannel.readDataInternal_loop fuel
                         (WebRTCDataChannel.mkInbox ds [] ba) buf2
                         (a + QByteArray.size t) (sz - QByteArray.size t)
                  else (WebRTCDataChannel.mkInbox ds [] ba, buf2, a + QByteArray.size t))
                 = (x', buf', a + n)
                 /\ 0 <= n /\ n <= k /\ k <= sz
                 /\ (n = k \/ (k = sz /\ QByteArray.isEmpty (WebRTCDataChannel.tail x') = false))
                 /\ pending_bytes x' = skipn (Z.to_nat k) (t ++ concat ds)
                 /\ firstn (Z.to_nat (a + n)) buf'
                    = firstn (Z.to_nat a) buf ++ firstn (Z.to_nat n) (t ++ concat ds)
                 /\ QByteArray.size buf' = QByteArray.size buf
                 /\ WebRTCDataChannel._bytesAvailable x' = ba).
    { intros buf2 Hcopy Hlen Hfits.
      assert (Elen : Z.to_nat (QByteArray.size t) = length t)
        by (unfold QByteArray.size; lia).
      destruct ((0 <? sz - QByteArray.size t) && negb (isEmpty ds)) eqn:Hmore.
      - destruct (IH (WebRTCDataChannel.mkInbox ds [] ba) buf2
                     (a + QByteArray.size t) (sz - QByteArray.size t))
          as (x' & buf' & n & k & Hrun & Hn & Hnk & Hk & Hlost & Hrest & Hpre & Hsize & Hba);
          try lia.
        change (pending_bytes (WebRTCDataChannel.mkInbox ds [] ba)) with (concat ds)
          in Hrest, Hpre.
        exists x', buf', (QByteArray.size t + n), (QByteArray.size t + k).
        rewrite Hrun, Z.add_assoc. split; [reflexivity|].
        do 3 (split; [lia|]).
        split; [destruct Hlost as [Hlost|[Hlost Htail]]; [left|right; split; [|exact Htail]]; lia|].
        split; [|split; [|split; [lia|exact Hba]]].
        + rewrite Hrest. rewrite Z2Nat.inj_add, Elen by lia.
          rewrite skipn_app_r. reflexivity.
        + rewrite Hpre, Hcopy, <- app_assoc. f_equal.
          rewrite Z2Nat.inj_add, Elen by lia. rewrite firstn_app_r. reflexivity.
      - exists (WebRTCDataChannel.mkInbox ds [] ba), buf2, (QByteArray.size t), (QByteArray.size t).
        split; [reflexivity|]. do 3 (split; [lia|]). split; [left; reflexivity|].
        unfold pending_bytes.
        cbn [WebRTCDataChannel.datagrams WebRTCDataChannel.tail WebRTCDataChannel._bytesAvailable app].
        rewrite Elen. split; [|split; [|split; [exact Hlen|reflexivity]]].
        + replace (length t) with (length t + 0)%nat by lia.
          rewrite skipn_app_r. reflexivity.
        + rewrite Hcopy. f_equal.
          replace (length t) with (length t + 0)%nat by lia.
          rewrite firstn_app_r. simpl. rewrite app_nil_r. reflexivity. }
    destruct (Z.min sz (QByteArray.size t) =? QByteArray.size t) eqn:Hall.
    + apply Z.eqb_eq in Hall. assert (Hfits : QByteArray.size t <= sz) by lia.
      rewrite Z.min_r by lia.
      apply Hgo; [apply memcpy_whole; lia|apply memcpy_length; lia|exact Hfits].
    + apply Z.eqb_neq in Hall. assert (Hshort : sz < QByteArray.size t) by lia.
      rewrite Z.min_l by lia. rewrite (remove_front_nonempty sz t) by lia.
      cbn [negb].
      exists (WebRTCDataChannel.mkInbox ds (QByteArray.remove_front sz t) ba),
        (WebRTCDataChannel.memcpy buf a t sz), 0, sz.
      rewrite Z.add_0_r. split; [reflexivity|]. do 3 (split; [lia|]).
      cbn [WebRTCDataChannel.tail].
      split; [right; split; [reflexivity|apply remove_front_nonempty; lia]|].
      unfold pending_bytes.
      cbn [WebRTCDataChannel.datagrams WebRTCDataChannel.tail WebRTCDataChannel._bytesAvailable].
      split; [|split; [|split; [apply memcpy_length; lia|reflexivity]]].
      * unfold QByteArray.remove_front. rewrite skipn_app_l; [reflexivity|].
        unfold QByteArray.size in Hshort. lia.
      * simpl. rewrite app_nil_r. apply memcpy_prefix; lia.
Qed.

(** ** The redundancy scan over the steps *)

Lemma makes_redundant_iff stored c :
  makes_redundant stored c <-> redundant_with c stored = true.
Proof.
  unfold makes_redundant, redundant_with.
  rewrite !andb_true_iff, Z.leb_le. tauto.
Qed.

Lemma stands_before_snoc l c a b :
  stands_before (l ++ [c]) a b -> stands_before l a b \/ (b = c /\ In a l).
Proof.
  intros (l1 & l2 & l3 & H).
  destruct (exists_last (l := b :: l3)) as (front & x & Hx); [discriminate|].
  destruct l3 as [|y l3].
  - right.
    replace (l1 ++ a :: l2 ++ [b]) with ((l1 ++ a :: l2) ++ [b]) in H
      by (rewrite <- app_assoc; reflexivity).
    apply app_inj_tail in H. destruct H as [-> ->].
    split; [reflexivity|]. apply in_or_app. right. left. reflexivity.
  - left. destruct (exists_last (l := y :: l3)) as (front' & x' & Hx'); [discriminate|].
    rewrite Hx' in H.
    replace (l1 ++ a :: l2 ++ b :: front' ++ [x'])
      with ((l1 ++ a :: l2 ++ b :: front') ++ [x']) in H
      by (rewrite <- !app_assoc; simpl; rewrite <- app_assoc; reflexivity).
    apply app_inj_tail in H. destruct H as [-> _].
    exists l1, l2, front'. reflexivity.
Qed.

Lemma filter_app_inv {X} (f : X -> bool) l :
  forall x y, List.filter f l = x ++ y ->
              exists lx ly, l = lx ++ ly /\ List.filter f lx = x /\ List.filter f ly = y.
Proof.
  induction l as [|h t IH]; intros x y H; simpl in H.
  - symmetry in H. apply app_eq_nil in H. destruct H as [-> ->]. exists [], []. auto.
  - destruct (f h) eqn:Hh.
    + destruct x as [|x0 x].
      * exists [], (h :: t). simpl. rewrite Hh. auto.
      * simpl in H. injection H as <- H. destruct (IH x y H) as (lx & ly & -> & Hx & Hy).
        exists (h :: lx), ly. simpl. rewrite Hh, Hx. auto.
    + destruct (IH x y H) as (lx & ly & -> & Hx & Hy).
      exists (h :: lx), ly. simpl. rewrite Hh. auto.
Qed.

Lemma filter_cons_inv {X} (f : X -> bool) l :
  forall a y, List.filter f l = a :: y ->
              exists p q, l = p ++ a :: q /\ List.filter f q = y.
Proof.
  induction l as [|h t IH]; intros a y H; simpl in H; [discriminate|].
  destruct (f h) eqn:Hh.
  - injection H as <- H. exists [], t. auto.
  - destruct (IH a y H) as (p & q & -> & Hq). exists (h :: p), q. auto.
Qed.

Lemma stands_before_filter f l a b :
  stands_before (List.filter f l) a b -> stands_before l a b.
Proof.
  intros (l1 & l2 & l3 & H).
  apply filter_app_inv in H. destruct H as (lx & ly & -> & _ & H).
  apply filter_cons_inv in H. destruct H as (p & q & -> & H).
  apply filter_app_inv in H. destruct H as (qx & qy & -> & _ & H).
  apply filter_cons_inv in H. destruct H as (p' & q' & -> & _).
  exists (lx ++ p), (qx ++ p'), q'. rewrite <- !app_assoc. reflexivity.
Qed.

Lemma ForallOrdPairs_stands_before (R : Candidate.t -> Candidate.t -> Prop) l :
  ForallOrdPairs R l <-> forall a b, stands_before l a b -> R a b.
Proof.
  induction l as [|h t IH].
  - split; [|constructor]. intros _ a b (l1 & l2 & l3 & H). destruct l1; discriminate.
  - split.
    + intros H a b (l1 & l2 & l3 & E). inversion H as [|x l' Hh Ht]; subst.
      destruct l1 as [|x l1]; simpl in E; injection E as -> ->.
      * rewrite List.Forall_forall in Hh. apply Hh. apply in_or_app. right. left. reflexivity.
      * apply (proj1 IH Ht). exists l1, l2, l3. reflexivity.
    + intros H. constructor.
      * apply List.Forall_forall. intros b Hb. apply in_split in Hb.
        destruct Hb as (l2 & l3 & ->). apply H. exists [], l2, l3. reflexivity.
      * apply IH. intros a b (l1 & l2 & l3 & ->). apply H. exists (h :: l1), l2, l3. reflexivity.
Qed.

#[global] Instance stores_after_scan_Transition : Transition stores_after_scan.
Proof.
  split.
  - intros s a b H _ _. exact H.
  - intros s1 s2 s3 e1 e2 H1 H2 a b H Hs Hr. apply H1; auto.
Qed.

#[global] Instance candidates_kept_Transition : Transition candidates_kept.
Proof.
  split.
  - intros s. reflexivity.
  - intros s1 s2 s3 e1 e2 H1 H2. unfold candidates_kept in *. congruence.
Qed.

#[global] Instance candidates_grow_Transition : Transition candidates_grow.
Proof.
  split.
  - intros s. exists []. symmetry. apply app_nil_r.
  - intros s1 s2 s3 e1 e2 [n1 H1] [n2 H2]. exists (n1 ++ n2).
    rewrite H2, H1, app_assoc. reflexivity.
Qed.

Lemma scan_storeLocalNotReduntantCandidate c :
  respects stores_after_scan (storeLocalNotReduntantCandidate c).
Proof.
  intros s a s' evs H. rewrite storeLocalNotReduntantCandidate_eq in H.
  destruct (find (redundant_with c) (localCandidates s)) eqn:Hfind; injection H as _ <- <-.
  - apply transition_refl.
  - intros stored later Hb Hs Hr. simpl in Hb. apply stands_before_snoc in Hb.
    destruct Hb as [Hb|[-> Hin]]; [exact Hb|]. exfalso.
    apply makes_redundant_iff in Hr.
    rewrite (find_none _ _ Hfind stored Hin) in Hr. discriminate.
Qed.

Lemma scan_removeLocalCandidates sock :
  respects stores_after_scan (removeLocalCandidates sock).
Proof.
  intros s a s' evs H. rewrite removeLocalCandidates_eq in H. injection H as _ <- <-.
  intros stored later Hb _ _. simpl in Hb. apply stands_before_filter in Hb. exact Hb.
Qed.

#[global] Hint Resolve scan_storeLocalNotReduntantCandidate scan_removeLocalCandidates
  : respects.

(** The assignments and emissions: the candidates are left alone, or a
    candidate of a kind that is not scanned is appended. *)
Ltac scan_leaf :=
  let Hb := fresh "Hb" in let Hs := fresh "Hs" in
  intros ? ? Hb Hs _;
  first [ exact Hb
        | simpl in Hb; apply stands_before_snoc in Hb;
          destruct Hb as [Hb|[-> _]]; [exact Hb|cbn in Hs; discriminate Hs] ].

Lemma scan_update_localAddrs :
  forall las socketList bindTo,
    respects stores_after_scan (update_localAddrs las socketList bindTo).
Proof. respects_induction scan_leaf. Qed.

Lemma scan_update_extAddrs :
  forall hs need_doExt, respects stores_after_scan (update_extAddrs hs need_doExt).
Proof. respects_induction scan_leaf. Qed.

#[global] Hint Resolve scan_update_localAddrs scan_update_extAddrs : respects.

Lemma scan_step op : respects stores_after_scan (step op).
Proof.
  destruct op; simpl.
  all: respects_with scan_leaf.
Qed.

Lemma reachable_scanned_not_redundant cid s :
  reachable cid s -> scanned_not_redundant (localCandidates s).
Proof.
  unfold scanned_not_redundant.
  induction 1 as [|s op s' evs Hreach IH Hstep].
  - constructor.
  - apply ForallOrdPairs_stands_before. intros a b Hb Hs Hr.
    rewrite ForallOrdPairs_stands_before in IH.
    apply (IH a b); [|exact Hs|exact Hr].
    exact (scan_step op s tt s' evs Hstep a b Hb Hs Hr).
Qed.

(** *** The candidates that are appended without the scan *)

Ltac kept_leaf := reflexivity.

Lemma kept_tryGatheringComplete : respects candidates_kept tryGatheringComplete.
Proof. respects_with kept_leaf. Qed.

Ltac grow_leaf :=
  first [ exists []; symmetry; apply app_nil_r
        | eexists; simpl; reflexivity ].

Lemma grow_ensureExt h addrAt : respects candidates_grow (ensureExt h addrAt).
Proof. respects_with grow_leaf. Qed.

(** A successful [addLocalPeerReflexiveCandidate] appends its candidate. *)
Lemma addLocalPeerReflexiveCandidate_appends addr base priority s s' evs :
  addLocalPeerReflexiveCandidate addr base priority s = Ok (tt, s', evs) ->
  exists c,
    localCandidates s' = localCandidates s ++ [c]
    /\ evs = [Emit (q.candidateAdded c)]
    /\ CandidateInfo.type (Candidate.info c) = PeerReflexiveType
    /\ CandidateInfo.addr (Candidate.info c)
       = TransportAddress.mk (QHostAddress.setScopeId EmptyString (TransportAddress.addr addr))
                             (TransportAddress.port addr)
    /\ CandidateInfo.base (Candidate.info c) = CandidateInfo.addr base
    /\ CandidateInfo.priority (Candidate.info c) = priority.
Proof.
  intros H. unfold addLocalPeerReflexiveCandidate in H. exec H; [|discriminate].
  eexists. split; [reflexivity|]. repeat split.
Qed.

(** A successful [tt_started] appends the relayed candidate of the TCP TURN
    transport. *)
Lemma tt_started_appends s turn s' evs :
  tt_started s = Ok (tt, s', evs) ->
  tcpTurn s = Some turn ->
  exists c,
    localCandidates s' = localCandidates s ++ [c]
    /\ CandidateInfo.type (Candidate.info c) = RelayedType
    /\ Candidate.iceTransport c = TurnRef (IceTurnTransport.handle turn)
    /\ CandidateInfo.addr (Candidate.info c) = IceTurnTransport.relayedAddress turn
    /\ CandidateInfo.base (Candidate.info c) = IceTurnTransport.relayedAddress turn.
Proof.
  intros H Ht. unfold tt_started in H. exec H. use_priority.
  match goal with
  | Hk : tryGatheringComplete _ = Ok _ |- _ =>
      apply kept_tryGatheringComplete in Hk; unfold candidates_kept in Hk; simpl in Hk
  end.
  match goal with Ht' : tcpTurn _ = Some _ |- _ => rewrite Ht in Ht'; injection Ht' as <- end.
  eexists. split; [eassumption|]. repeat split.
Qed.

(** A successful [lt_started] under [use_local] appends the Host candidate
    of the transport, and behind it what [ensureExt] stores. *)
Lemma lt_started_appends h s lt s' evs :
  lt_started h s = Ok (tt, s', evs) ->
  find_lt h (udpTransports s) = Some lt ->
  useLocal s = true ->
  exists host rest,
    localCandidates s' = localCandidates s ++ host :: rest
    /\ CandidateInfo.type (Candidate.info host) = HostType
    /\ Candidate.iceTransport host = LocalRef h
    /\ CandidateInfo.addr (Candidate.info host)
       = IceLocalTransport.localAddress (LocalTransport.sock lt)
    /\ CandidateInfo.base (Candidate.info host)
       = IceLocalTransport.localAddress (LocalTransport.sock lt).
Proof.
  intros H Hf Hlocal. unfold lt_started in H. exec H.
  all: try (simpl in *; congruence).
  all: use_priority.
  all: match goal with Hf' : find_lt _ _ = Some _ |- _ =>
         rewrite Hf in Hf'; injection Hf' as <- end.
  all: repeat match goal with
       | Hk : tryGatheringComplete _ = Ok _ |- _ =>
           apply kept_tryGatheringComplete in Hk; unfold candidates_kept in Hk; simpl in Hk
       | Hk : ensureExt _ _ _ = Ok _ |- _ =>
           apply grow_ensureExt in Hk; destruct Hk as [new Hk]; simpl in Hk
       end.
  all: eexists _, _; split;
    [ simpl; first [ rewrite Hk, Hk0, <- app_assoc | rewrite Hk0, Hk, <- app_assoc ]; reflexivity
    | repeat split ].
Qed.

(** * The claims *)

(** ** C1: gathering completion *)

(** C1.  [gatheringComplete] is emitted at most once in any run of the
    engine, from whatever state and whatever happens (the flag is never
    reset, so also at most once per start/stop cycle; once the flag is set it
    is never emitted again); and a step that emits it ends in a state where
    every local transport is started, has [stun_finished] if it has a
    STUN-bind service, has [turn_finished] if it has a STUN-relay service, and
    the TCP TURN transport, if there is one, has started. *)
Theorem gatheringComplete_once_when_finished :
  (forall s ops s' evs,
      run ops s = Ok (tt, s', evs) ->
      (count_gatheringComplete evs <= 1)%nat
      /\ (gatheringComplete s = true -> count_gatheringComplete evs = 0%nat))
  /\ (forall s op s' evs,
        step op s = Ok (tt, s', evs) ->
        In (Emit q.gatheringComplete) evs ->
        gathering_finished s').
Proof.
  split.
  - intros s ops s' evs H. apply counted_run in H. unfold gathering_counted in H.
    destruct (gatheringComplete s), (gatheringComplete s'); simpl in H; split; intros; try lia;
      discriminate.
  - intros s op s' evs H Hin. apply guarded_step_op in H.
    destruct H as [[_ Hcount]|(_ & _ & _ & Hfin)]; [|exact Hfin].
    exfalso. eapply count_gatheringComplete_In; eassumption.
Qed.

(** Scenario S1: the transport reports [started]; the step emits
    [gatheringComplete]. *)
Lemma gatheringComplete_once_when_finished_witness :
  gathering_finished
    (state_of (step (signal_lt_started 0%nat) (state_of after_update_S1 (IceComponent 1)))
              (IceComponent 1)).
Proof.
  apply (proj2 gatheringComplete_once_when_finished
           (state_of after_update_S1 (IceComponent 1))
           (signal_lt_started 0%nat)
           (state_of (step (signal_lt_started 0%nat) (state_of after_update_S1 (IceComponent 1)))
                     (IceComponent 1))
           (effects_of (step (signal_lt_started 0%nat)
                             (state_of after_update_S1 (IceComponent 1))))).
  - vm_compute. reflexivity.
  - vm_compute. right. right. left. reflexivity.
Defined.

(** ** C2: redundancy elimination *)




(** ** C3: priorities *)

(** C3.  Every Host, ServerReflexive or Relayed candidate a step of the
    engine emits has priority [2^24 * type_pref + 2^8 * local_pref + (256 -
    component id)].  For a candidate of a local transport, [type_pref] is 126
    for a Host (0 on a VPN interface), 100 for a ServerReflexive and 0 for a
    Relayed candidate, and [local_pref] is 65535 minus the position of the
    transport's address in the list of configured local addresses; for the
    candidate of the TCP TURN transport (Relayed), [type_pref] is 0 and the
    position is 1024. *)
Theorem emitted_priority_formula :
  forall cid s op s' evs c,
    reachable cid s ->
    step op s = Ok (tt, s', evs) ->
    In (Emit (q.candidateAdded c)) evs ->
    CandidateInfo.type (Candidate.info c) <> PeerReflexiveType ->
    exists typePref position,
      CandidateInfo.priority (Candidate.info c)
      = 2 ^ 24 * typePref + 2 ^ 8 * (65535 - position) + (256 - cid)
      /\ match Candidate.iceTransport c with
         | LocalRef h =>
             exists lt la,
               find_lt h (udpTransports s) = Some lt
               /\ typePref = type_pref (CandidateInfo.type (Candidate.info c))
                                       (LocalTransport.isVpn lt)
               /\ position = findLocalAddr (LocalTransport.addr lt) s
               /\ 0 <= position
               /\ nth_error (Config.localAddrs (config s)) (Z.to_nat position) = Some la
               /\ QHostAddress.eqb (LocalAddress.addr la) (LocalTransport.addr lt) = true
         | TurnRef h =>
             CandidateInfo.type (Candidate.info c) = RelayedType
             /\ typePref = 0 /\ position = 1024
         end.
Proof.
  intros cid s op s' evs c Hreach Hstep Hin Htype.
  apply reachable_invariant in Hreach. destruct Hreach as [Hwf Hid].
  pose proof (step_emitted_ok _ _ _ _ _ Hstep Hin) as Hok.
  destruct Hok as [Hp|Hok]; [contradiction|].
  destruct (Candidate.iceTransport c) as [h|h].
  - destruct Hok as (lt & Hf & _ & Hprio & _).
    destruct (Hprio Hwf) as [Hrange Hprio'].
    exists (type_pref (CandidateInfo.type (Candidate.info c)) (LocalTransport.isVpn lt)),
           (findLocalAddr (LocalTransport.addr lt) s).
    split; [rewrite Hprio', Hid; reflexivity|].
    destruct (findLocalAddr_from_position 0 (Config.localAddrs (config s))
                (LocalTransport.addr lt)) as (_ & la & Hnth & Hla).
    { fold (findLocalAddr (LocalTransport.addr lt) s). lia. }
    { lia. }
    rewrite Z.sub_0_r in Hnth.
    exists lt, la. repeat split; try assumption; try reflexivity. lia.
  - destruct Hok as (t & _ & _ & _ & Hty & Hprio & _).
    exists 0, 1024. split; [rewrite Hprio, Hid; reflexivity|]. auto.
Qed.

Lemma after_update_S1_reachable : reachable 1 (state_of after_update_S1 (IceComponent 1)).
Proof.
  apply (reachable_run 1 (IceComponent 1)
           [setLocalAddresses [la_192_168_1_5]; call_update None (binds_to 40000); event_loop]
           (state_of after_update_S1 (IceComponent 1)) (effects_of after_update_S1)).
  - apply reachable_init.
  - vm_compute. reflexivity.
Defined.

(** Scenario S1: the Host candidate has priority [126 * 2^24 + 65535 * 2^8 + 255]. *)
Lemma emitted_priority_formula_witness :
  exists typePref position,
    CandidateInfo.priority (Candidate.info S1_host)
    = 2 ^ 24 * typePref + 2 ^ 8 * (65535 - position) + (256 - 1)
    /\ match Candidate.iceTransport S1_host with
       | LocalRef h =>
           exists lt la,
             find_lt h (udpTransports (state_of after_update_S1 (IceComponent 1))) = Some lt
             /\ typePref = type_pref (CandidateInfo.type (Candidate.info S1_host))
                                     (LocalTransport.isVpn lt)
             /\ position = findLocalAddr (LocalTransport.addr lt)
                             (state_of after_update_S1 (IceComponent 1))
             /\ 0 <= position
             /\ nth_error (Config.localAddrs (config (state_of after_update_S1 (IceComponent 1))))
                          (Z.to_nat position) = Some la
             /\ QHostAddress.eqb (LocalAddress.addr la) (LocalTransport.addr lt) = true
       | TurnRef h =>
           CandidateInfo.type (Candidate.info S1_host) = RelayedType
           /\ typePref = 0 /\ position = 1024
       end.
Proof.
  apply (emitted_priority_formula 1 (state_of after_update_S1 (IceComponent 1))
           (signal_lt_started 0%nat)
           (state_of (step (signal_lt_started 0%nat) (state_of after_update_S1 (IceComponent 1)))
                     (IceComponent 1))
           (effects_of (step (signal_lt_started 0%nat)
                             (state_of after_update_S1 (IceComponent 1))))
           S1_host).
  - exact after_update_S1_reachable.
  - vm_compute. reflexivity.
  - vm_compute. left. reflexivity.
  - discriminate.
Defined.

(** ** C4: promoted STUN coordinates and later updates *)

(** C4 (the code departs from the claim).  The claim: once a STUN coordinate
    field is active, no later [update] changes it.  On the code: the STUN-bind
    address [74.125.1.1:3478] is promoted by a first [update]; the caller then
    sets another pending STUN-bind address together with a STUN-relay-UDP
    service; the second [update] finds the relay field unset, copies all
    seven fields, and the active STUN-bind address becomes [74.125.1.2:3478]. *)
Theorem update_overwrites_promoted_stunBindAddr :
  let A := TransportAddress.mk ip_74_125_1_1 3478 in
  let B := TransportAddress.mk ip_74_125_1_2 3478 in
  let R := TransportAddress.mk ip_198_51_100_50 3478 in
  let first := run [setStunBindService A; call_update None (binds_to 40000)] (IceComponent 1) in
  let s1 := state_of first (IceComponent 1) in
  let second := run [setStunBindService B; setStunRelayUdpService R "user" "pass";
                     call_update None (binds_to 40000)] s1 in
  let s2 := state_of second s1 in
  succeeds first = true /\ succeeds second = true
  /\ Config.stunBindAddr (config s1) = A
  /\ Config.stunBindAddr (config s2) = B
  /\ TransportAddress.eqb A B = false.
Proof. vm_compute. repeat split; reflexivity. Qed.

(** ** C5: the candidate of a configured external address *)




(** ** C6: relayed candidates *)

(** C6.  A Relayed candidate a step emits for a local (UDP) transport has
    the relayed address of that transport as address and as base, the
    transport's server-reflexive address (invalid while unknown) as related
    address, and path 1; the Relayed candidate emitted for the TCP TURN
    transport has its relayed address as address and as base, and path 0. *)
Theorem relayed_candidate_shape :
  forall s op s' evs c,
    step op s = Ok (tt, s', evs) ->
    In (Emit (q.candidateAdded c)) evs ->
    CandidateInfo.type (Candidate.info c) = RelayedType ->
    match Candidate.iceTransport c with
    | LocalRef h =>
        exists lt,
          find_lt h (udpTransports s) = Some lt
          /\ CandidateInfo.addr (Candidate.info c)
             = IceLocalTransport.relayedAddress (LocalTransport.sock lt)
          /\ CandidateInfo.base (Candidate.info c) = CandidateInfo.addr (Candidate.info c)
          /\ CandidateInfo.related (Candidate.info c)
             = IceLocalTransport.serverReflexiveAddress (LocalTransport.sock lt)
          /\ Candidate.path c = 1
    | TurnRef h =>
        exists t,
          tcpTurn s = Some t
          /\ IceTurnTransport.handle t = h
          /\ CandidateInfo.addr (Candidate.info c) = IceTurnTransport.relayedAddress t
          /\ CandidateInfo.base (Candidate.info c) = CandidateInfo.addr (Candidate.info c)
          /\ Candidate.path c = 0
    end.
Proof.
  intros s op s' evs c Hstep Hin Htype.
  pose proof (step_emitted_ok _ _ _ _ _ Hstep Hin) as Hok.
  destruct Hok as [Hp|Hok]; [congruence|].
  destruct (Candidate.iceTransport c) as [h|h].
  - destruct Hok as (lt & Hf & _ & _ & Hrel).
    destruct (Hrel Htype) as (Ha & Hb & Hr & Hp).
    exists lt. repeat split; try assumption. congruence.
  - destruct Hok as (t & Ht & Hh & _ & _ & _ & Ha & Hb & Hp).
    exists t. repeat split; try assumption. congruence.
Qed.

(** Scenario S4: the Relayed candidate [198.51.100.50:50000], related to
    [203.0.113.9:40001], on path 1. *)
Lemma relayed_candidate_shape_witness :
  exists lt,
    find_lt 0 (udpTransports (state_of S4_discovered (IceComponent 1))) = Some lt
    /\ CandidateInfo.addr (Candidate.info S4_relayed)
       = IceLocalTransport.relayedAddress (LocalTransport.sock lt)
    /\ CandidateInfo.base (Candidate.info S4_relayed)
       = CandidateInfo.addr (Candidate.info S4_relayed)
    /\ CandidateInfo.related (Candidate.info S4_relayed)
       = IceLocalTransport.serverReflexiveAddress (LocalTransport.sock lt)
    /\ Candidate.path S4_relayed = 1.
Proof.
  apply (relayed_candidate_shape (state_of S4_discovered (IceComponent 1))
           (signal_lt_addressesChanged 0%nat)
           (state_of (step (signal_lt_addressesChanged 0%nat)
                           (state_of S4_discovered (IceComponent 1)))
                     (IceComponent 1))
           (effects_of (step (signal_lt_addressesChanged 0%nat)
                             (state_of S4_discovered (IceComponent 1))))
           S4_relayed).
  - vm_compute. reflexivity.
  - vm_compute. right. right. left. reflexivity.
  - reflexivity.
Defined.

(** ** C7: stop *)

Lemma for_each_invoke_stop ts s :
  for_each ts (fun lt => invoke (sock_stop (LocalTransport.handle lt))) s
  = Ok (tt, s, map (fun lt => Invoke (sock_stop (LocalTransport.handle lt))) ts).
Proof.
  induction ts as [|lt ts IH]; [reflexivity|].
  simpl. unfold bind at 1. simpl. rewrite IH. reflexivity.
Qed.

(** C7, counterexample.  On a fresh component a first [stop] succeeds and a
    second one, issued while the engine is stopping, fails the assertion
    [Q_ASSERT(!stopping)]; with the assertion compiled out the second call
    queues [postStop] again, so [stopped] would be emitted twice. *)
Lemma stop_twice_fails :
  succeeds (run [call_stop] (IceComponent 1)) = true
  /\ run [call_stop; call_stop] (IceComponent 1) = AssertFailed
  /\ sess (state_of (stop_body (IceComponent 1)) (IceComponent 1)) = [defer_postStop]
  /\ sess (state_of ((stop_body;; stop_body) (IceComponent 1)) (IceComponent 1))
     = [defer_postStop; defer_postStop].
Proof. vm_compute. repeat split; reflexivity. Qed.

(** C7, amended.  [stop] is permitted exactly when the engine is not already
    stopping.  Then it sets [stopping] and either queues [postStop] (nothing
    to stop) or calls [stop] on every local transport and on the TCP TURN
    transport; a second [stop] on the resulting state fails the assertion. *)
Theorem stop_once_per_cycle :
  (forall s,
      stop s =
        (if stopping s then AssertFailed
         else if allStopped s
              then Ok (tt, set_sess (sess s ++ [defer_postStop]) (set_stopping true s), [])
              else Ok (tt, set_stopping true s, stop_calls s)))
  /\ (forall s s' evs,
        stop s = Ok (tt, s', evs) -> stopping s' = true /\ stop s' = AssertFailed).
Proof.
  assert (Hstop : forall s, stop s =
      (if stopping s then AssertFailed
       else if allStopped s
            then Ok (tt, set_sess (sess s ++ [defer_postStop]) (set_stopping true s), [])
            else Ok (tt, set_stopping true s, stop_calls s))).
  { intros s. unfold stop, stop_body, bind, gets, Q_ASSERT, modify, defer. simpl.
    destruct (stopping s) eqn:Hs; simpl; [reflexivity|].
    change (allStopped (set_stopping true s)) with (allStopped s).
    destruct (allStopped s); simpl; [reflexivity|].
    rewrite for_each_invoke_stop. unfold stop_calls. simpl.
    destruct (tcpTurn s); reflexivity. }
  split; [exact Hstop|].
  intros s s' evs H. rewrite Hstop in H.
  destruct (stopping s); [discriminate|].
  assert (Hs' : stopping s' = true).
  { destruct (allStopped s); injection H as <- _; reflexivity. }
  split; [exact Hs'|]. rewrite Hstop, Hs'. reflexivity.
Qed.

(** A second [stop] on the fresh component. *)
Lemma stop_once_per_cycle_witness :
  stopping (state_of (stop (IceComponent 1)) (IceComponent 1)) = true
  /\ stop (state_of (stop (IceComponent 1)) (IceComponent 1)) = AssertFailed.
Proof.
  apply (proj2 stop_once_per_cycle (IceComponent 1)
           (state_of (stop (IceComponent 1)) (IceComponent 1))
           (effects_of (stop (IceComponent 1)))).
  vm_compute. reflexivity.
Defined.

(** ** C8: localFinished and gatheringComplete *)

(** C8 (the code departs from the claim).  One local address; [update]
    creates its transport; the transport signals [error(ErrorBind)] before it
    has signalled [started].  The engine erases the transport and
    [tryGatheringComplete] finds no transport left: [gatheringComplete] is
    emitted although [localFinished] was never emitted and its flag is still
    false. *)
Theorem gatheringComplete_without_localFinished :
  let r := run [setLocalAddresses [la_192_168_1_5];
                call_update None (binds_to 40000);
                event_loop;
                signal_lt_error 0%nat ErrorBind] (IceComponent 1) in
  succeeds r = true
  /\ In (Emit q.gatheringComplete) (effects_of r)
  /\ ~ In (Emit q.localFinished) (effects_of r)
  /\ localFinished (state_of r (IceComponent 1)) = false
  /\ gatheringComplete (state_of r (IceComponent 1)) = true.
Proof.
  vm_compute. repeat split; try reflexivity.
  - right. right. right. left. reflexivity.
  - intros H. repeat (destruct H as [H|H]; [discriminate|]). exact H.
Qed.

(** ** C9: channel peers *)

(** C9.  (1) No step other than [flagPathAsLowOverhead] adds to the
    channel-peer table or installs a channel: every entry is unchanged or
    gone.  (2) [flagPathAsLowOverhead(id, addr)] finds the candidate with
    that id; when [addr] is already in its set nothing changes and nothing is
    called; otherwise [addr] joins the set and [addChannelPeer(addr)] is
    called exactly once on the candidate's transport; repeating the call
    then changes nothing.  (3) In every step an entry is deleted exactly when
    the step removes a candidate with that id. *)
Theorem channelPeers_lifecycle :
  (forall s op s' evs,
      step op s = Ok (tt, s', evs) ->
      is_flagPathAsLowOverhead op = false ->
      (forall k, channelPeers s' !! k = None \/ channelPeers s' !! k = channelPeers s !! k)
      /\ existsb is_addChannelPeer evs = false)
  /\ (forall s cid addr s' evs,
        step (call_flagPathAsLowOverhead cid addr) s = Ok (tt, s', evs) ->
        exists c,
          find (fun c => Candidate.id c =? cid) (localCandidates s) = Some c
          /\ (let addrs := default [] (channelPeers s !! cid) in
              if QSet_contains addr addrs
              then s' = s /\ evs = []
              else channelPeers s' !! cid = Some (addrs ++ [addr])
                   /\ (forall k, k <> cid -> channelPeers s' !! k = channelPeers s !! k)
                   /\ evs = [Invoke (iceTransport_addChannelPeer (Candidate.iceTransport c) addr)])
          /\ step (call_flagPathAsLowOverhead cid addr) s' = Ok (tt, s', []))
  /\ (forall s op s' evs k v,
        step op s = Ok (tt, s', evs) ->
        channelPeers s !! k = Some v ->
        (channelPeers s' !! k = None
         <-> exists c, In (Emit (q.candidateRemoved c)) evs /\ Candidate.id c = k)).
Proof.
  split; [|split].
  - intros s op s' evs H Hop. apply (peers_step op Hop) in H. destruct H as [Hk Hadd].
    split; [|exact Hadd]. intros k. rewrite Hk.
    destruct (existsb (is_removed_id k) evs); [left|right]; reflexivity.
  - intros s cid addr s' evs H. simpl in H.
    apply flagPathAsLowOverhead_Ok in H. destruct H as (c & Hfind & Hid & H).
    exists c. split; [exact Hfind|]. simpl in H. simpl.
    destruct (QSet_contains addr (default [] (channelPeers s !! cid))) eqn:Hc.
    + destruct H as [-> ->]. split; [split; reflexivity|].
      simpl. eapply flagPathAsLowOverhead_repeat; eassumption.
    + destruct H as [-> ->]. split.
      * split; [simpl; apply lookup_insert_eq|].
        split; [|reflexivity]. intros k Hne. simpl. apply lookup_insert_ne. congruence.
      * simpl. eapply flagPathAsLowOverhead_repeat; [exact Hfind|].
        simpl. rewrite lookup_insert_eq. simpl. apply QSet_contains_snoc.
  - intros s op s' evs k v H Hlook.
    destruct (is_flagPathAsLowOverhead op) eqn:Hop.
    + destruct op; try discriminate. simpl in H.
      apply flagPathAsLowOverhead_Ok in H. destruct H as (c & Hfind & Hid & H). simpl in H.
      destruct (QSet_contains addr (default [] (channelPeers s !! cid))) eqn:Hc.
      * destruct H as [-> ->]. rewrite Hlook. split; [discriminate|].
        intros (c' & [] & _).
      * destruct H as [-> ->]. simpl. split.
        -- destruct (Z.eq_dec cid k) as [->|Hne].
           ++ rewrite lookup_insert_eq. discriminate.
           ++ rewrite lookup_insert_ne by exact Hne. rewrite Hlook. discriminate.
        -- intros (c' & [He|[]] & _). discriminate.
    + apply (peers_step op Hop) in H. destruct H as [Hk _].
      rewrite Hk, <- existsb_is_removed_id.
      destruct (existsb (is_removed_id k) evs); rewrite ?Hlook; split; intros; congruence.
Qed.

(** Scenario S1 with its Host candidate (id 0): the first
    [flagPathAsLowOverhead(0, 203.0.113.9:40001)]. *)
Lemma channelPeers_lifecycle_witness :
  exists c,
    find (fun c => Candidate.id c =? 0) (localCandidates (state_of S1_started (IceComponent 1)))
    = Some c
    /\ (let addrs := default [] (channelPeers (state_of S1_started (IceComponent 1)) !! 0) in
        if QSet_contains (TransportAddress.mk ip_203_0_113_9 40001) addrs
        then S1_flagged = state_of S1_started (IceComponent 1)
             /\ effects_of (step (call_flagPathAsLowOverhead 0 (TransportAddress.mk ip_203_0_113_9 40001))
                                 (state_of S1_started (IceComponent 1))) = []
        else channelPeers S1_flagged !! 0 = Some (addrs ++ [TransportAddress.mk ip_203_0_113_9 40001])
             /\ (forall k, k <> 0 ->
                            channelPeers S1_flagged !! k
                            = channelPeers (state_of S1_started (IceComponent 1)) !! k)
             /\ effects_of (step (call_flagPathAsLowOverhead 0 (TransportAddress.mk ip_203_0_113_9 40001))
                                 (state_of S1_started (IceComponent 1)))
                = [Invoke (iceTransport_addChannelPeer (Candidate.iceTransport c)
                             (TransportAddress.mk ip_203_0_113_9 40001))])
    /\ step (call_flagPathAsLowOverhead 0 (TransportAddress.mk ip_203_0_113_9 40001)) S1_flagged
       = Ok (tt, S1_flagged, []).
Proof.
  apply (proj1 (proj2 channelPeers_lifecycle)
           (state_of S1_started (IceComponent 1)) 0 (TransportAddress.mk ip_203_0_113_9 40001)
           S1_flagged
           (effects_of (step (call_flagPathAsLowOverhead 0 (TransportAddress.mk ip_203_0_113_9 40001))
                             (state_of S1_started (IceComponent 1))))).
  vm_compute. reflexivity.
Defined.

(** ** C10: peer-reflexive injection *)

(** C10.  [addLocalPeerReflexiveCandidate] succeeds exactly when some live
    Host candidate has the base of [base]; otherwise the lookup ends at
    [localCandidates.end()], the assertion fails and the iterator would be
    dereferenced past the end.  When it succeeds it appends and emits one
    PeerReflexive candidate that shares the transport of the Host candidate
    the lookup finds, has path 0, and carries [addr] without its zone id. *)
Theorem addLocalPeerReflexiveCandidate_needs_host_base :
  forall s addr base priority,
    ((exists hc, In hc (localCandidates s)
                 /\ CandidateInfo.type (Candidate.info hc) = HostType
                 /\ TransportAddress.eqb (CandidateInfo.base (Candidate.info hc))
                                         (CandidateInfo.base base) = true)
     <-> addLocalPeerReflexiveCandidate addr base priority s <> AssertFailed)
    /\ (forall s' evs,
          addLocalPeerReflexiveCandidate addr base priority s = Ok (tt, s', evs) ->
          exists hc c,
            find (is_base_host base) (localCandidates s) = Some hc
            /\ evs = [Emit (q.candidateAdded c)]
            /\ s' = set_localCandidates (localCandidates s ++ [c]) s
            /\ Candidate.iceTransport c = Candidate.iceTransport hc
            /\ Candidate.path c = 0
            /\ CandidateInfo.type (Candidate.info c) = PeerReflexiveType
            /\ CandidateInfo.priority (Candidate.info c) = priority
            /\ CandidateInfo.addr (Candidate.info c)
               = TransportAddress.mk
                   (QHostAddress.setScopeId EmptyString (TransportAddress.addr addr))
                   (TransportAddress.port addr)).
Proof.
  intros s addr base priority. split.
  - unfold addLocalPeerReflexiveCandidate, bind, gets. simpl.
    destruct (find (is_base_host base) (localCandidates s)) as [hc|] eqn:Hfind; simpl.
    + split; [discriminate|]. intros _.
      apply find_some in Hfind. destruct Hfind as [Hin Hb].
      unfold is_base_host in Hb. apply andb_prop in Hb. destruct Hb as [Hbase Hty].
      exists hc. repeat split; auto.
      destruct (CandidateInfo.type (Candidate.info hc)); try discriminate; reflexivity.
    + split; [|intros H; exfalso; apply H; reflexivity].
      intros (hc & Hin & Hty & Hbase). exfalso.
      pose proof (find_none _ _ Hfind hc Hin) as Hno.
      unfold is_base_host in Hno. rewrite Hbase, Hty in Hno. discriminate.
  - intros s' evs H. unfold addLocalPeerReflexiveCandidate in H.
    exec H.
    + eexists _, _. repeat split; reflexivity.
    + discriminate.
Qed.

Lemma addLocalPeerReflexiveCandidate_needs_host_base_witness :
  addLocalPeerReflexiveCandidate (TransportAddress.mk ip_203_0_113_9 40001) S1_host_info 1862270975
    (state_of S1_started (IceComponent 1)) <> AssertFailed.
Proof.
  apply (proj1 (proj1 (addLocalPeerReflexiveCandidate_needs_host_base
                         (state_of S1_started (IceComponent 1))
                         (TransportAddress.mk ip_203_0_113_9 40001) S1_host_info 1862270975))).
  eexists. split; [left; reflexivity|]. split; reflexivity.
Defined.

(** * Further properties of the code *)

(** ** Candidate ids and removal *)

(** X1.  [getId] returns the least number, counted from 0, that is the id
    of no live candidate: no candidate of [localCandidates] carries it and
    every smaller number is the id of one. *)
Theorem getId_fresh_and_least :
  forall s,
    0 <= getId s
    /\ (forall c, In c (localCandidates s) -> Candidate.id c <> getId s)
    /\ (forall k, 0 <= k < getId s ->
          exists c, In c (localCandidates s) /\ Candidate.id c = k).
Proof.
  intros s. destruct (getId_spec s) as (H0 & Hfresh & Hbelow).
  split; [exact H0|]. split.
  - intros c Hin. apply getId_fresh. exact Hin.
  - intros k Hk. specialize (Hbelow k Hk). apply existsb_exists in Hbelow.
    destruct Hbelow as (c & Hin & Heq). exists c. split; [exact Hin|].
    apply Z.eqb_eq. exact Heq.
Qed.

(** X2.  [removeLocalCandidates(sock)] always returns; it takes out of
    [localCandidates] exactly the candidates carried by [sock] and keeps the
    others in their order, emits one [candidateRemoved] per candidate taken
    out, in list order, and nothing else, deletes the channel-peer entries of
    the ids taken out and no other, and leaves the transports alone. *)
Theorem removeLocalCandidates_takes_out_carried :
  forall sock s,
    exists s',
      removeLocalCandidates sock s
      = Ok (tt, s',
            map (fun c => Emit (q.candidateRemoved c))
                (List.filter (carried_by sock) (localCandidates s)))
      /\ localCandidates s'
         = List.filter (fun c => negb (carried_by sock c)) (localCandidates s)
      /\ (forall k,
            channelPeers s' !! k
            = if existsb (fun c => Candidate.id c =? k)
                         (List.filter (carried_by sock) (localCandidates s))
              then None else channelPeers s !! k)
      /\ udpTransports s' = udpTransports s
      /\ tcpTurn s' = tcpTurn s.
Proof.
  intros sock s. eexists. split; [apply removeLocalCandidates_eq|].
  simpl. split; [reflexivity|]. split; [|split; reflexivity].
  intros k. apply remove_peers_lookup.
Qed.

(** X3.  In every reachable state no two live candidates have the same id. *)
Theorem candidate_ids_unique :
  forall cid s,
    reachable cid s ->
    List.NoDup (map Candidate.id (localCandidates s)).
Proof. intros cid s Hreach. exact (proj1 (reachable_candidates_ok cid s Hreach)). Qed.

(** Scenario S4: the four candidates have the ids 0, 1, 2 and 3. *)
Lemma candidate_ids_unique_witness :
  map Candidate.id (localCandidates (state_of S4_gathered (IceComponent 1))) = [0; 1; 2; 3]
  /\ List.NoDup (map Candidate.id (localCandidates (state_of S4_gathered (IceComponent 1)))).
Proof.
  split; [vm_compute; reflexivity|].
  apply (candidate_ids_unique 1). exact S4_gathered_reachable.
Defined.

(** X4.  In every reachable state every live candidate is carried by a
    transport the engine still owns: a local transport of [udpTransports]
    or the TCP TURN transport. *)
Theorem candidates_on_live_transports :
  forall cid s c,
    reachable cid s ->
    In c (localCandidates s) ->
    match Candidate.iceTransport c with
    | LocalRef h => exists lt, find_lt h (udpTransports s) = Some lt
    | TurnRef h => exists turn, tcpTurn s = Some turn /\ IceTurnTransport.handle turn = h
    end.
Proof.
  intros cid s c Hreach Hin.
  pose proof (proj2 (reachable_candidates_ok cid s Hreach) c Hin) as Hlive.
  unfold live in Hlive. destruct (Candidate.iceTransport c) as [h|h].
  - destruct (find_lt h (udpTransports s)) as [lt|]; [|discriminate]. exists lt. reflexivity.
  - destruct (tcpTurn s) as [turn|]; [|discriminate]. exists turn.
    split; [reflexivity|]. apply Nat.eqb_eq. exact Hlive.
Qed.

(** Scenario S4: the Relayed candidate is carried by the local transport 0. *)
Lemma candidates_on_live_transports_witness :
  In S4_relayed (localCandidates (state_of S4_gathered (IceComponent 1)))
  /\ match Candidate.iceTransport S4_relayed with
     | LocalRef h =>
         exists lt, find_lt h (udpTransports (state_of S4_gathered (IceComponent 1))) = Some lt
     | TurnRef h =>
         exists turn, tcpTurn (state_of S4_gathered (IceComponent 1)) = Some turn
                      /\ IceTurnTransport.handle turn = h
     end.
Proof.
  assert (Hin : In S4_relayed (localCandidates (state_of S4_gathered (IceComponent 1)))).
  { vm_compute. do 3 right. left. reflexivity. }
  split; [exact Hin|].
  apply (candidates_on_live_transports 1 _ S4_relayed S4_gathered_reachable Hin).
Defined.

(** ** The local transports *)

(** X5.  In every reachable state the address of every local transport is
    found in [config.localAddrs]: [findLocalAddr] yields a position of that
    list, never -1, so the assertion [addrAt != -1] of [lt_started],
    [lt_addressesChanged] and the deferred call of [update] holds. *)
Theorem transport_address_is_configured :
  forall cid s lt,
    reachable cid s ->
    In lt (udpTransports s) ->
    0 <= findLocalAddr (LocalTransport.addr lt) s
      < Z.of_nat (length (Config.localAddrs (config s))).
Proof.
  intros cid s lt Hreach Hin.
  destruct (reachable_transports_ok cid s Hreach) as (Hknown & _ & _).
  rewrite List.Forall_forall in Hknown.
  specialize (Hknown (address_facts lt) (in_map _ _ _ Hin)).
  unfold known_address in Hknown. simpl in Hknown.
  pose proof (findLocalAddr_from_range 0 _ _ Hknown ltac:(lia)) as Hr.
  unfold findLocalAddr. lia.
Qed.

(** The third transport of the dual-stack scenario is on the fourth
    configured address, which is at position 2 of [config.localAddrs] (the
    repeated address was skipped). *)
Lemma transport_address_is_configured_witness :
  exists lt,
    nth_error (udpTransports (state_of dual_stack_updated (IceComponent 1))) 2 = Some lt
    /\ findLocalAddr (LocalTransport.addr lt) (state_of dual_stack_updated (IceComponent 1)) = 2
    /\ 0 <= findLocalAddr (LocalTransport.addr lt)
              (state_of dual_stack_updated (IceComponent 1))
         < Z.of_nat (length (Config.localAddrs
                               (config (state_of dual_stack_updated (IceComponent 1))))).
Proof.
  destruct (nth_error (udpTransports (state_of dual_stack_updated (IceComponent 1))) 2)
    as [lt|] eqn:Hnth; [|vm_compute in Hnth; discriminate].
  exists lt. split; [reflexivity|]. split.
  - vm_compute in Hnth. injection Hnth as <-. vm_compute. reflexivity.
  - apply (transport_address_is_configured 1 _ lt dual_stack_updated_reachable).
    eapply nth_error_In. exact Hnth.
Defined.

(** X6.  In every reachable state a local transport on an IPv6 address has
    neither a STUN binding service nor a TURN relay service: [update] sets
    the services of IPv4 transports only, and no slot sets them later. *)
Theorem ipv6_transport_has_no_stun :
  forall cid s lt,
    reachable cid s ->
    In lt (udpTransports s) ->
    QHostAddress.protocol (LocalTransport.addr lt) = IPv6Protocol ->
    TransportAddress.isValid
      (IceLocalTransport.stunBindServiceAddress (LocalTransport.sock lt)) = false
    /\ TransportAddress.isValid
         (IceLocalTransport.stunRelayServiceAddress (LocalTransport.sock lt)) = false.
Proof.
  intros cid s lt Hreach Hin Hp.
  destruct (reachable_transports_ok cid s Hreach) as (_ & Hv6 & _).
  rewrite List.Forall_forall in Hv6.
  exact (Hv6 (address_facts lt) (in_map _ _ _ Hin) Hp).
Qed.

(** The second transport of the dual-stack scenario is the IPv6 one. *)
Lemma ipv6_transport_has_no_stun_witness :
  exists lt,
    nth_error (udpTransports (state_of dual_stack_updated (IceComponent 1))) 1 = Some lt
    /\ LocalTransport.addr lt = ip_2001_db8_1
    /\ TransportAddress.isValid
         (IceLocalTransport.stunBindServiceAddress (LocalTransport.sock lt)) = false
    /\ TransportAddress.isValid
         (IceLocalTransport.stunRelayServiceAddress (LocalTransport.sock lt)) = false.
Proof.
  destruct (nth_error (udpTransports (state_of dual_stack_updated (IceComponent 1))) 1)
    as [lt|] eqn:Hnth; [|vm_compute in Hnth; discriminate].
  assert (Ha : LocalTransport.addr lt = ip_2001_db8_1).
  { vm_compute in Hnth. injection Hnth as <-. reflexivity. }
  exists lt. split; [reflexivity|]. split; [exact Ha|].
  apply (ipv6_transport_has_no_stun 1 _ lt dual_stack_updated_reachable).
  - eapply nth_error_In. exact Hnth.
  - rewrite Ha. reflexivity.
Defined.

(** X7.  In every reachable state no two local transports are on the same
    address: [update] skips an address that is already configured. *)
Theorem transport_addresses_distinct :
  forall cid s i j lti ltj,
    reachable cid s ->
    (i < j)%nat ->
    nth_error (udpTransports s) i = Some lti ->
    nth_error (udpTransports s) j = Some ltj ->
    QHostAddress.eqb (LocalTransport.addr lti) (LocalTransport.addr ltj) = false.
Proof.
  intros cid s i j lti ltj Hreach Hij Hi Hj.
  destruct (reachable_transports_ok cid s Hreach) as (_ & _ & Hd).
  unfold distinct_addresses in Hd.
  apply (ForallOrdPairs_nth_error _ _ Hd i j); [exact Hij| |].
  - rewrite nth_error_map, Hi. reflexivity.
  - rewrite nth_error_map, Hj. reflexivity.
Qed.

(** Dual stack: four addresses were given, one of them twice; three
    transports exist and the first and the third are on different addresses. *)
Lemma transport_addresses_distinct_witness :
  length (udpTransports (state_of dual_stack_updated (IceComponent 1))) = 3%nat
  /\ exists lti ltj,
       nth_error (udpTransports (state_of dual_stack_updated (IceComponent 1))) 0 = Some lti
       /\ nth_error (udpTransports (state_of dual_stack_updated (IceComponent 1))) 2 = Some ltj
       /\ QHostAddress.eqb (LocalTransport.addr lti) (LocalTransport.addr ltj) = false.
Proof.
  split; [vm_compute; reflexivity|].
  destruct (nth_error (udpTransports (state_of dual_stack_updated (IceComponent 1))) 0)
    as [lti|] eqn:Hi; [|vm_compute in Hi; discriminate].
  destruct (nth_error (udpTransports (state_of dual_stack_updated (IceComponent 1))) 2)
    as [ltj|] eqn:Hj; [|vm_compute in Hj; discriminate].
  exists lti, ltj. split; [reflexivity|]. split; [reflexivity|].
  apply (transport_addresses_distinct 1 _ 0%nat 2%nat lti ltj dual_stack_updated_reachable);
    [lia|exact Hi|exact Hj].
Defined.

(** ** Priorities and sockets *)

(** X8.  [choose_default_priority] orders candidates first by type
    preference, then by local preference, then by component id (a lower id
    first): whenever it returns for two candidates, the one that is greater
    in this order has the greater priority, so two candidates with the same
    priority agree on all three. *)
Theorem priority_orders_candidates :
  forall t1 lp1 vpn1 id1 s1 p1 s1' e1 t2 lp2 vpn2 id2 s2 p2 s2' e2,
    choose_default_priority t1 lp1 vpn1 id1 s1 = Ok (p1, s1', e1) ->
    choose_default_priority t2 lp2 vpn2 id2 s2 = Ok (p2, s2', e2) ->
    (type_pref t1 vpn1 < type_pref t2 vpn2 -> p1 < p2)
    /\ (type_pref t1 vpn1 = type_pref t2 vpn2 -> lp1 < lp2 -> p1 < p2)
    /\ (type_pref t1 vpn1 = type_pref t2 vpn2 -> lp1 = lp2 -> id2 < id1 -> p1 < p2)
    /\ (p1 = p2 -> type_pref t1 vpn1 = type_pref t2 vpn2 /\ lp1 = lp2 /\ id1 = id2).
Proof.
  intros t1 lp1 vpn1 id1 s1 p1 s1' e1 t2 lp2 vpn2 id2 s2 p2 s2' e2 H1 H2.
  apply choose_default_priority_Ok in H1, H2.
  destruct H1 as (Hl1 & Hc1 & -> & _). destruct H2 as (Hl2 & Hc2 & -> & _).
  unfold priority_formula.
  assert (Ht1 : 0 <= type_pref t1 vpn1 <= 126) by (destruct t1, vpn1; simpl; lia).
  assert (Ht2 : 0 <= type_pref t2 vpn2 <= 126) by (destruct t2, vpn2; simpl; lia).
  change (2 ^ 24) with 16777216. change (2 ^ 8) with 256.
  repeat split; intros; lia.
Qed.

(** A Relayed candidate on the best interface against a ServerReflexive
    one on the worst: the ServerReflexive candidate has the greater
    priority. *)
Lemma priority_orders_candidates_witness :
  choose_default_priority RelayedType 65535 false 1 (IceComponent 1)
  = Ok (16777215, IceComponent 1, [])
  /\ choose_default_priority ServerReflexiveType 0 false 1 (IceComponent 1)
     = Ok (1677721855, IceComponent 1, [])
  /\ 16777215 < 1677721855.
Proof.
  assert (H1 : choose_default_priority RelayedType 65535 false 1 (IceComponent 1)
               = Ok (16777215, IceComponent 1, [])) by (vm_compute; reflexivity).
  assert (H2 : choose_default_priority ServerReflexiveType 0 false 1 (IceComponent 1)
               = Ok (1677721855, IceComponent 1, [])) by (vm_compute; reflexivity).
  split; [exact H1|]. split; [exact H2|].
  apply (proj1 (priority_orders_candidates _ _ _ _ _ _ _ _ _ _ _ _ _ _ _ _ H1 H2)).
  vm_compute. reflexivity.
Defined.

(** X9.  [takeFromSocketList] hands out the first socket of the list that
    is bound to [addr] and takes it, and nothing else, out of the list; it
    returns null, and leaves the list as it is, exactly when no socket of
    the list is bound to [addr]. *)
Theorem takeFromSocketList_first_bound :
  forall socketList addr,
    match takeFromSocketList socketList addr with
    | Some (sock, rest) =>
        exists before after,
          socketList = before ++ sock :: after
          /\ rest = before ++ after
          /\ QHostAddress.eqb (QUdpSocket.localAddress sock) addr = true
          /\ forall x, In x before -> QHostAddress.eqb (QUdpSocket.localAddress x) addr = false
    | None =>
        forall x, In x socketList -> QHostAddress.eqb (QUdpSocket.localAddress x) addr = false
    end.
Proof.
  intros l addr. induction l as [|x l IH]; simpl.
  - intros x [].
  - destruct (QHostAddress.eqb (QUdpSocket.localAddress x) addr) eqn:Hx.
    + exists [], l. repeat split; [exact Hx|]. intros y [].
    + destruct (takeFromSocketList l addr) as [[sock rest]|].
      * destruct IH as (before & after & -> & -> & Hs & Hb).
        exists (x :: before), after. repeat split; [exact Hs|].
        intros y [<-|Hy]; [exact Hx|auto].
      * intros y [<-|Hy]; [exact Hx|auto].
Qed.

(** X10.  [peerReflexivePriority(iceTransport, path)] only reads the
    state.  It returns [110 * 2^24 + (65535 - position) * 2^8 + (256 - id)]
    where, for a local transport, [position] is the place of the transport
    in [udpTransports] (not in the configured addresses), plus 512 when
    [path] is 1, and 1024 for the TCP TURN transport.  It returns exactly
    when the component id is in 1..256, the transport is one the engine
    owns and [position] is at most 65535; otherwise an assertion fails. *)
Theorem peerReflexivePriority_formula :
  forall s iceTransport path p s' evs,
    Z.of_nat (length (udpTransports s)) < 2 ^ 31 - 512 ->
    (peerReflexivePriority iceTransport path s = Ok (p, s', evs)
     <-> s' = s /\ evs = [] /\ 1 <= id s <= 256
         /\ exists position,
              0 <= position <= 65535
              /\ p = 110 * 2 ^ 24 + (65535 - position) * 2 ^ 8 + (256 - id s)
              /\ match iceTransport with
                 | LocalRef h =>
                     exists i lt,
                       first_with_handle h (udpTransports s) i lt
                       /\ position = Z.of_nat i + (if path =? 1 then 512 else 0)
                 | TurnRef h =>
                     position = 1024
                     /\ exists turn, tcpTurn s = Some turn /\ IceTurnTransport.handle turn = h
                 end).
Proof.
  intros s ref path p s' evs Hlen. unfold peerReflexivePriority.
  destruct ref as [h|h].
  - split.
    + intros H. exec H; [|discriminate]. use_priority.
      match goal with Hx : position_of_lt _ _ _ = Some ?z |- _ =>
        apply position_of_lt_Some in Hx; destruct Hx as (k & lt & -> & Hfirst) end.
      assert (Hk : (k < length (udpTransports s))%nat).
      { apply nth_error_Some. destruct Hfirst as (-> & _). discriminate. }
      assert (Harg : (if path =? 1 then wrap_int (0 + Z.of_nat k + 512) else 0 + Z.of_nat k)
                     = Z.of_nat k + (if path =? 1 then 512 else 0)).
      { destruct (path =? 1); [rewrite wrap_int_small|]; lia. }
      rewrite Harg in *. rewrite wrap_int_small in * by (destruct (path =? 1); lia).
      repeat split; try lia.
      exists (Z.of_nat k + (if path =? 1 then 512 else 0)). split; [lia|].
      split; [unfold priority_formula, type_pref; lia|].
      exists k, lt. split; [exact Hfirst|reflexivity].
    + intros (-> & -> & Hid & position & Hrange & -> & k & lt & Hfirst & ->).
      assert (Hk : (k < length (udpTransports s))%nat).
      { apply nth_error_Some. destruct Hfirst as (-> & _). discriminate. }
      assert (Hx : position_of_lt h 0 (udpTransports s) = Some (0 + Z.of_nat k)).
      { apply position_of_lt_Some. exists k, lt. auto. }
      unfold bind at 1 2, gets at 1. cbn beta iota. rewrite Hx.
      unfold ret at 1. cbn beta iota.
      unfold bind at 1, gets at 1. cbn beta iota.
      assert (Harg : (if path =? 1 then wrap_int (0 + Z.of_nat k + 512) else 0 + Z.of_nat k)
                     = Z.of_nat k + (if path =? 1 then 512 else 0)).
      { destruct (path =? 1); [rewrite wrap_int_small|]; lia. }
      rewrite Harg. rewrite wrap_int_small by (destruct (path =? 1); lia).
      rewrite choose_default_priority_eq by lia.
      unfold priority_formula, type_pref. simpl app. do 3 f_equal. lia.
  - split.
    + intros H. exec H.
      all: use_priority.
      all: try match goal with
               | H : context [Nat.eqb ?a ?b] |- _ => destruct (Nat.eqb a b) eqn:Hh
               end.
      all: try (change (wrap_int (65535 - -1)) with 65536 in *; lia).
      change (wrap_int (65535 - 1024)) with 64511 in *.
      split; [reflexivity|]. split; [reflexivity|]. split; [lia|].
      exists 1024. split; [lia|]. split; [unfold priority_formula, type_pref; lia|].
      split; [reflexivity|]. eexists. split; [first [eassumption|reflexivity]|].
      apply Nat.eqb_eq. assumption.
    + intros (-> & -> & Hid & position & Hrange & -> & -> & turn & Ht & Hh).
      unfold bind at 1 2, gets at 1. cbn beta iota. rewrite Ht.
      unfold ret at 1. cbn beta iota.
      unfold bind at 1, gets at 1. cbn beta iota.
      rewrite Hh, Nat.eqb_refl.
      rewrite choose_default_priority_eq by (change (wrap_int (65535 - 1024)) with 64511; lia).
      reflexivity.
Qed.

(** Scenario S4: over path 1 of the only local transport the position is
    512. *)
Lemma peerReflexivePriority_formula_witness :
  peerReflexivePriority (LocalRef 0) 1 (state_of S4_gathered (IceComponent 1))
  = Ok (1862139903, state_of S4_gathered (IceComponent 1), [])
  /\ exists position,
       0 <= position <= 65535
       /\ 1862139903
          = 110 * 2 ^ 24 + (65535 - position) * 2 ^ 8
            + (256 - id (state_of S4_gathered (IceComponent 1)))
       /\ exists i lt,
            first_with_handle 0 (udpTransports (state_of S4_gathered (IceComponent 1))) i lt
            /\ position = Z.of_nat i + 512.
Proof.
  assert (Hrun : peerReflexivePriority (LocalRef 0) 1 (state_of S4_gathered (IceComponent 1))
                 = Ok (1862139903, state_of S4_gathered (IceComponent 1), [])).
  { vm_compute. reflexivity. }
  split; [exact Hrun|].
  assert (Hlen : Z.of_nat (length (udpTransports (state_of S4_gathered (IceComponent 1))))
                 < 2 ^ 31 - 512).
  { vm_compute. reflexivity. }
  exact (proj2 (proj2 (proj2
           (proj1 (peerReflexivePriority_formula (state_of S4_gathered (IceComponent 1))
                     (LocalRef 0) 1 1862139903 (state_of S4_gathered (IceComponent 1)) [] Hlen)
                  Hrun)))).
Defined.

(** ** Signals emitted once *)

(** X11.  Whatever is done to a freshly constructed component, the signal
    [localFinished] is emitted at most once; when it has been emitted the
    flag [localFinished] is set and no further emission is queued. *)
Theorem localFinished_at_most_once :
  forall cid ops s' evs,
    run ops (IceComponent cid) = Ok (tt, s', evs) ->
    count_localFinished evs <= 1
    /\ (count_localFinished evs = 1 ->
        localFinished s' = true /\ queued_localFinished s' = 0).
Proof.
  intros cid ops s' evs H. apply counted_run_localFinished in H.
  unfold localFinished_counted in H. simpl in H.
  change (queued_localFinished (IceComponent cid)) with 0 in H.
  assert (Hq : 0 <= queued_localFinished s') by (unfold queued_localFinished; lia).
  destruct (localFinished s'); simpl in H; split; try lia.
Qed.

(** Scenario S1 with a second [update]: one emission, when the only
    transport has started. *)
Lemma localFinished_at_most_once_witness :
  count_localFinished (effects_of S1_updated_again) = 1
  /\ localFinished (state_of S1_updated_again (IceComponent 1)) = true
  /\ queued_localFinished (state_of S1_updated_again (IceComponent 1)) = 0.
Proof.
  assert (Hcount : count_localFinished (effects_of S1_updated_again) = 1)
    by (vm_compute; reflexivity).
  split; [exact Hcount|].
  refine (proj2 (localFinished_at_most_once 1 S1_updated_again_ops
                   (state_of S1_updated_again (IceComponent 1))
                   (effects_of S1_updated_again) _) Hcount).
  vm_compute. reflexivity.
Defined.
(** X12.  A step from a reachable state either emits no [stopped] and
    leaves a component that is stopping in that state, or it emits [stopped]
    exactly once; then the step is the [stopped] signal of a child or the
    run of a queued call, the flag [stopping] is cleared and neither a
    local transport nor the TCP TURN transport is left.  In particular the
    error of a transport never ends the stopping. *)
Theorem stopped_when_nothing_is_left :
  forall cid s op s' evs,
    reachable cid s ->
    step op s = Ok (tt, s', evs) ->
    (count_stopped evs = 0%nat /\ (stopping s = true -> stopping s' = true))
    \/ (count_stopped evs = 1%nat
        /\ may_stop op = true
        /\ stopping s' = false
        /\ udpTransports s' = [] /\ tcpTurn s' = None).
Proof.
  intros cid s op s' evs Hreach H.
  assert (Hg : stopped_guarded s s' evs /\ (may_stop op = false -> stopped_untouched s s' evs)).
  { destruct (may_stop op) eqn:Hop.
    - split; [|discriminate]. destruct op; try discriminate; simpl in H.
      + unfold connected_lt in H. exec H; [|left; apply transition_refl].
        eapply guarded_lt_stopped. eassumption.
      + unfold connected_tcpTurn in H. exec H; [|left; apply transition_refl].
        eapply guarded_tt_stopped. eassumption.
      + apply guarded_event_loop; [|exact H].
        eapply reachable_stop_pending_ok. exact Hreach.
    - pose proof (untouched_stopped_step op Hop s tt s' evs H) as Hu. split; [left|]; auto. }
  destruct Hg as [[Hu|(Hc & Hs & Hall)] Hother]; [left; exact Hu|].
  right. split; [exact Hc|]. split.
  - destruct (may_stop op); [reflexivity|].
    destruct (Hother eq_refl) as [Hc0 _]. congruence.
  - split; [exact Hs|]. unfold allStopped in Hall.
    destruct (udpTransports s'), (tcpTurn s'); try discriminate. auto.
Qed.

Lemma S1_stopping_reachable : reachable 1 (state_of S1_stopping (IceComponent 1)).
Proof.
  apply (reachable_run 1 (IceComponent 1) S1_stopping_ops
           (state_of S1_stopping (IceComponent 1)) (effects_of S1_stopping)).
  - apply reachable_init.
  - vm_compute. reflexivity.
Defined.

(** Scenario S1 while stopping: when the only transport reports
    [stopped], the component emits [stopped] once and is no longer
    stopping. *)
Lemma stopped_when_nothing_is_left_witness :
  stopping (state_of S1_stopping (IceComponent 1)) = true
  /\ count_stopped
       (effects_of (step (signal_lt_stopped 0%nat)
                         (state_of S1_stopping (IceComponent 1)))) = 1%nat
  /\ may_stop (signal_lt_stopped 0%nat) = true
  /\ stopping
       (state_of (step (signal_lt_stopped 0%nat)
                       (state_of S1_stopping (IceComponent 1))) (IceComponent 1)) = false
  /\ udpTransports
       (state_of (step (signal_lt_stopped 0%nat)
                       (state_of S1_stopping (IceComponent 1))) (IceComponent 1)) = []
  /\ tcpTurn
       (state_of (step (signal_lt_stopped 0%nat)
                       (state_of S1_stopping (IceComponent 1))) (IceComponent 1)) = None.
Proof.
  split; [vm_compute; reflexivity|].
  destruct (stopped_when_nothing_is_left 1 (state_of S1_stopping (IceComponent 1))
              (signal_lt_stopped 0%nat)
              (state_of (step (signal_lt_stopped 0%nat)
                              (state_of S1_stopping (IceComponent 1))) (IceComponent 1))
              (effects_of (step (signal_lt_stopped 0%nat)
                                (state_of S1_stopping (IceComponent 1))))
              S1_stopping_reachable)
    as [[Hc _]|Hstopped].
  - vm_compute. reflexivity.
  - vm_compute in Hc. discriminate Hc.
  - exact Hstopped.
Defined.

(** ** Assertions *)



(** X14.  [update] has one precondition: it runs to completion exactly
    when the component is not stopping, whatever addresses, services and
    sockets it is given. *)
Theorem update_returns_unless_stopping :
  forall socketList bindTo s,
    (exists s' evs, update socketList bindTo s = Ok (tt, s', evs)) <-> stopping s = false.
Proof.
  intros socketList bindTo s. split.
  - intros (s' & evs & H). destruct (stopping s) eqn:Hs; [|reflexivity].
    rewrite update_while_stopping in H by exact Hs. discriminate.
  - intros Hs. destruct (returns_update socketList bindTo s Hs) as ([] & s' & evs & H).
    exists s', evs. exact H.
Qed.

(** ** Installing addresses and erasing transports *)

(** X15.  Local addresses are installed once: an [update] of a component
    that has configured local addresses leaves [config.localAddrs] as it is,
    creates and destroys no local transport and starts none, whatever
    addresses are pending. *)
Theorem local_addresses_installed_once :
  forall socketList bindTo s s' evs,
    update socketList bindTo s = Ok (tt, s', evs) ->
    Config.localAddrs (config s) <> [] ->
    Config.localAddrs (config s') = Config.localAddrs (config s)
    /\ map LocalTransport.handle (udpTransports s')
       = map LocalTransport.handle (udpTransports s)
    /\ forall h qsock, ~ In (Invoke (sock_start h qsock)) evs.
Proof.
  intros socketList bindTo s s' evs H Hne.
  destruct (locals_update _ _ _ _ _ H Hne) as (Hl & Hh & He).
  split; [exact Hl|]. split; [exact Hh|].
  intros h qsock Hin.
  assert (Ht : existsb is_sock_start evs = true).
  { apply existsb_exists. exists (Invoke (sock_start h qsock)). split; [exact Hin|reflexivity]. }
  congruence.
Qed.

(** Scenario S1: the address handed in after the first [update] is
    ignored by the second. *)
Lemma local_addresses_installed_once_witness :
  Config.localAddrs (pending (state_of S1_readdressed (IceComponent 1)))
  = [LocalAddress.mk ip_10_0_0_2 3 true]
  /\ Config.localAddrs
       (config (state_of (update None (binds_to 40001)
                            (state_of S1_readdressed (IceComponent 1))) (IceComponent 1)))
     = [la_192_168_1_5]
  /\ map LocalTransport.handle
       (udpTransports (state_of (update None (binds_to 40001)
                                   (state_of S1_readdressed (IceComponent 1)))
                                (IceComponent 1)))
     = [0%nat].
Proof.
  split; [vm_compute; reflexivity|].
  destruct (local_addresses_installed_once None (binds_to 40001)
              (state_of S1_readdressed (IceComponent 1))
              (state_of (update None (binds_to 40001)
                           (state_of S1_readdressed (IceComponent 1))) (IceComponent 1))
              (effects_of (update None (binds_to 40001)
                             (state_of S1_readdressed (IceComponent 1)))))
    as (Hl & Hh & _).
  - vm_compute. reflexivity.
  - vm_compute. discriminate.
  - split; [rewrite Hl|rewrite Hh]; vm_compute; reflexivity.
Defined.


(** ** The data channel *)

(** X17.  [fromChannelOpen] accepts a message exactly when it has the 12
    bytes of the header and [12 + labelLength + labelLength mod 4 +
    protocolLength] bytes in all.  Then every byte of the label and of the
    protocol it reads lies inside the message, the protocol is read from
    offset [12 + labelLength + labelLength mod 4], and the channel keeps the
    priority of the message as its reliability parameter and the low 16
    bits of the reliability parameter of the message as its priority (the
    two arguments are handed to the constructor in the order priority,
    reliability; its parameters are reliability, priority). *)
Theorem fromChannelOpen_reads_inside_the_message :
  forall data,
    let labelLength := qFromBigEndian16 data 8 in
    let protocolLength := qFromBigEndian16 data 10 in
    let protoOff := 12 + labelLength + labelLength mod 4 in
    match WebRTCDataChannel.fromChannelOpen data with
    | Some channel =>
        12 <= QByteArray.size data
        /\ protoOff + protocolLength <= QByteArray.size data
        /\ WebRTCDataChannel.label channel = fromUtf8 (QByteArray.mid data 12 labelLength)
        /\ QByteArray.size (QByteArray.mid data 12 labelLength) = labelLength
        /\ WebRTCDataChannel.protocol channel
           = fromUtf8 (QByteArray.mid data protoOff protocolLength)
        /\ QByteArray.size (QByteArray.mid data protoOff protocolLength) = protocolLength
        /\ WebRTCDataChannel.channelType channel = QByteArray.byte_at data 1
        /\ WebRTCDataChannel.reliability channel = qFromBigEndian16 data 2
        /\ WebRTCDataChannel.priority channel = qFromBigEndian32 data 4 mod 2 ^ 16
        /\ WebRTCDataChannel.dcepState channel = DcepNegotiated
        /\ WebRTCDataChannel._isRemote channel = true
        /\ WebRTCDataChannel.openMode channel = ReadWrite
    | None =>
        QByteArray.size data < 12 \/ QByteArray.size data < protoOff + protocolLength
    end.
Proof.
  intros data labelLength protocolLength protoOff.
  pose proof (qFromBigEndian16_range data 8) as HL.
  pose proof (qFromBigEndian16_range data 10) as HP.
  pose proof (qFromBigEndian16_range data 2) as Hprio.
  pose proof (byte_at_range data 1) as Hct.
  pose proof (Z.mod_pos_bound labelLength 4 ltac:(lia)) as Hmod.
  fold labelLength in HL. fold protocolLength in HP.
  unfold WebRTCDataChannel.fromChannelOpen.
  destruct (QByteArray.size data <? 12) eqn:H12; [left; apply Z.ltb_lt; exact H12|].
  apply Z.ltb_ge in H12. fold labelLength protocolLength protoOff.
  destruct (QByteArray.size data <? protoOff + protocolLength) eqn:Hoff;
    [right; apply Z.ltb_lt; exact Hoff|].
  apply Z.ltb_ge in Hoff. simpl.
  split; [exact H12|]. split; [exact Hoff|]. split; [reflexivity|].
  split; [apply mid_length; unfold protoOff in *; lia|]. split; [reflexivity|].
  split; [apply mid_length; unfold protoOff in *; lia|].
  split; [apply Z.mod_small; exact Hct|].
  split; [apply Z.mod_small; change (2 ^ 32) with 4294967296;
          change (2 ^ 16) with 65536 in Hprio; lia|].
  repeat split.
Qed.

(** X18.  Reading with room returns what came in: when [sz] is at least
    the number of the pending bytes and of those of the messages [datas]
    that come in, and the buffer has [sz] bytes, [readDataInternal] after
    the messages reports all these bytes as read, has written them to the
    front of the buffer in the order they came in, leaves the rest of the
    buffer as it was and nothing pending, and has taken from
    [_bytesAvailable] what the messages added and the number of the bytes
    that were pending before. *)
Theorem readDataInternal_reads_what_came_in :
  forall x datas buf sz,
    QByteArray.size (pending_bytes x ++ concat datas) <= sz ->
    sz <= QByteArray.size buf ->
    exists x',
      WebRTCDataChannel.readDataInternal (incoming datas x) buf sz
      = (x',
         (pending_bytes x ++ concat datas)
         ++ skipn (Z.to_nat (QByteArray.size (pending_bytes x ++ concat datas))) buf,
         QByteArray.size (pending_bytes x ++ concat datas))
      /\ pending_bytes x' = []
      /\ WebRTCDataChannel._bytesAvailable x'
         = WebRTCDataChannel._bytesAvailable x - QByteArray.size (pending_bytes x).
Proof.
  intros x datas buf sz Hsz Hbuf.
  destruct (readDataInternal_room (incoming datas x) buf sz)
    as (x' & buf' & Hrun & Hnone & Hpre & Hpost & Hba).
  { rewrite pending_bytes_incoming. exact Hsz. }
  { exact Hbuf. }
  rewrite pending_bytes_incoming in Hrun, Hpre, Hpost, Hba.
  exists x'. split; [|split; [exact Hnone|]].
  - rewrite Hrun. f_equal. f_equal.
    rewrite <- (firstn_skipn (Z.to_nat (QByteArray.size (pending_bytes x ++ concat datas))) buf')
      at 1.
    rewrite Hpre, Hpost. reflexivity.
  - rewrite Hba, bytesAvailable_incoming, size_app. lia.
Qed.

(** "hi" and "!" come in on a channel with nothing queued and are read
    into a buffer of four bytes. *)
Lemma readDataInternal_reads_what_came_in_witness :
  exists x',
    WebRTCDataChannel.readDataInternal (incoming hi_and_bang nothing_queued) four_bytes 4
    = (x', [Byte.x68; Byte.x69; Byte.x21; Byte.x00], 3)
    /\ pending_bytes x' = []
    /\ WebRTCDataChannel._bytesAvailable x' = 0.
Proof.
  apply (readDataInternal_reads_what_came_in nothing_queued hi_and_bang four_bytes 4);
    vm_compute; discriminate.
Defined.

(** X19.  A read that ends inside a chunk: when the chunk that is read
    first (the tail, or the first datagram when the tail is empty) has more
    than [sz] bytes, [readDataInternal] copies its first [sz] bytes to the
    buffer and takes them out of the chunk, which becomes the tail, but
    returns 0 and leaves [_bytesAvailable] as it was: the loop is left
    before the bytes are counted. *)
Theorem readDataInternal_inside_a_chunk :
  forall x buf sz chunk rest,
    next_chunk x = Some (chunk, rest) ->
    0 <= sz -> sz < QByteArray.size chunk -> sz <= QByteArray.size buf ->
    WebRTCDataChannel.readDataInternal x buf sz
    = (WebRTCDataChannel.mkInbox rest (QByteArray.remove_front sz chunk)
                                 (WebRTCDataChannel._bytesAvailable x),
       WebRTCDataChannel.memcpy buf 0 chunk sz, 0).
Proof.
  intros [ds t ba] buf sz chunk rest Hnext Hsz Hshort Hbuf.
  unfold next_chunk in Hnext. unfold WebRTCDataChannel.readDataInternal.
  cbn [WebRTCDataChannel.datagrams WebRTCDataChannel.tail WebRTCDataChannel._bytesAvailable]
    in *.
  cbn [WebRTCDataChannel.readDataInternal_loop WebRTCDataChannel.datagrams
       WebRTCDataChannel.tail WebRTCDataChannel._bytesAvailable].
  assert (Hne : (Z.min sz (QByteArray.size chunk) =? QByteArray.size chunk) = false)
    by (apply Z.eqb_neq; lia).
  assert (Hmin : Z.min sz (QByteArray.size chunk) = sz) by lia.
  pose proof (remove_front_nonempty sz chunk Hsz Hshort) as Htail.
  destruct (QByteArray.isEmpty t) eqn:Ht.
  - destruct ds as [|dg ds]; [discriminate|]. injection Hnext as -> ->.
    cbn [WebRTCDataChannel.datagrams WebRTCDataChannel.tail WebRTCDataChannel._bytesAvailable].
    rewrite Hne, Hmin. cbn [WebRTCDataChannel.tail]. rewrite Htail. cbn [negb].
    cbn [WebRTCDataChannel.datagrams WebRTCDataChannel.tail WebRTCDataChannel._bytesAvailable].
    rewrite Z.sub_0_r. reflexivity.
  - injection Hnext as -> ->.
    assert (Hsame : (match rest with
                     | [] => WebRTCDataChannel.mkInbox rest chunk ba
                     | _ :: _ => WebRTCDataChannel.mkInbox rest chunk ba
                     end) = WebRTCDataChannel.mkInbox rest chunk ba)
      by (destruct rest; reflexivity).
    destruct rest as [|dg rest];
      cbn [WebRTCDataChannel.datagrams WebRTCDataChannel.tail WebRTCDataChannel._bytesAvailable];
      rewrite Hne, Hmin; cbn [WebRTCDataChannel.tail]; rewrite Htail; cbn [negb];
      cbn [WebRTCDataChannel.datagrams WebRTCDataChannel.tail WebRTCDataChannel._bytesAvailable];
      rewrite Z.sub_0_r; reflexivity.
Qed.

(** "hi" is queued and one byte is asked for: 'h' is written and taken out,
    0 is returned. *)
Lemma readDataInternal_inside_a_chunk_witness :
  WebRTCDataChannel.readDataInternal (incoming hi_and_bang nothing_queued) four_bytes 1
  = (WebRTCDataChannel.mkInbox [[Byte.x21]] [Byte.x69] 3,
     [Byte.x68; Byte.x00; Byte.x00; Byte.x00], 0).
Proof.
  apply (readDataInternal_inside_a_chunk (incoming hi_and_bang nothing_queued) four_bytes 1
           [Byte.x68; Byte.x69] [[Byte.x21]]);
    vm_compute; try reflexivity; discriminate.
Defined.

(** X20.  What [readDataInternal] keeps whatever the room ([0 <= sz], a
    buffer of at least [sz] bytes): the [n] bytes it reports are the first
    [n] pending bytes, in order, at the front of the buffer; the buffer
    keeps its length; [_bytesAvailable] goes down by [n]; what stays
    pending is the pending bytes without their first [k], with
    [n <= k <= sz]: never more than [sz] bytes are taken out, and bytes are
    taken out without being reported ([n < k]) only when [k = sz] and the
    read ended inside a chunk, whose rest is the tail. *)
Theorem readDataInternal_reports_the_first_pending_bytes :
  forall x buf sz,
    0 <= sz -> sz <= QByteArray.size buf ->
    exists x' buf' n k,
      WebRTCDataChannel.readDataInternal x buf sz = (x', buf', n)
      /\ 0 <= n /\ n <= k /\ k <= sz
      /\ (n = k \/ (k = sz /\ QByteArray.isEmpty (WebRTCDataChannel.tail x') = false))
      /\ firstn (Z.to_nat n) buf' = firstn (Z.to_nat n) (pending_bytes x)
      /\ n <= QByteArray.size (pending_bytes x)
      /\ QByteArray.size buf' = QByteArray.size buf
      /\ pending_bytes x' = skipn (Z.to_nat k) (pending_bytes x)
      /\ WebRTCDataChannel._bytesAvailable x' = WebRTCDataChannel._bytesAvailable x - n.
Proof.
  intros x buf sz Hsz Hbuf.
  destruct (readDataInternal_loop_safe (S (length (WebRTCDataChannel.datagrams x))) x buf 0 sz)
    as (x' & buf' & n & k & Hrun & Hn & Hnk & Hk & Hlost & Hrest & Hpre & Hsize & Hba);
    try lia.
  unfold WebRTCDataChannel.readDataInternal. rewrite Hrun.
  rewrite Z.add_0_l in *. simpl firstn in Hpre. simpl app in Hpre.
  exists (WebRTCDataChannel.mkInbox (WebRTCDataChannel.datagrams x') (WebRTCDataChannel.tail x')
            (WebRTCDataChannel._bytesAvailable x' - n)), buf', n, k.
  split; [reflexivity|]. do 3 (split; [assumption|]).
  cbn [WebRTCDataChannel.tail WebRTCDataChannel._bytesAvailable].
  split; [exact Hlost|]. split; [exact Hpre|].
  split.
  { apply (f_equal (@length _)) in Hpre. rewrite !length_firstn in Hpre.
    unfold QByteArray.size in *. lia. }
  split; [exact Hsize|]. split; [exact Hrest|]. rewrite Hba. reflexivity.
Qed.

(** "hi" and "!" are queued and two bytes are asked for. *)
Lemma readDataInternal_reports_the_first_pending_bytes_witness :
  exists x' buf' n k,
    WebRTCDataChannel.readDataInternal (incoming hi_and_bang nothing_queued) four_bytes 2
    = (x', buf', n)
    /\ 0 <= n /\ n <= k /\ k <= 2
    /\ (n = k \/ (k = 2 /\ QByteArray.isEmpty (WebRTCDataChannel.tail x') = false))
    /\ firstn (Z.to_nat n) buf'
       = firstn (Z.to_nat n) (pending_bytes (incoming hi_and_bang nothing_queued))
    /\ n <= QByteArray.size (pending_bytes (incoming hi_and_bang nothing_queued))
    /\ QByteArray.size buf' = QByteArray.size four_bytes
    /\ pending_bytes x'
       = skipn (Z.to_nat k) (pending_bytes (incoming hi_and_bang nothing_queued))
    /\ WebRTCDataChannel._bytesAvailable x'
       = WebRTCDataChannel._bytesAvailable (incoming hi_and_bang nothing_queued) - n.
Proof.
  apply (readDataInternal_reports_the_first_pending_bytes
           (incoming hi_and_bang nothing_queued) four_bytes 2);
    vm_compute; discriminate.
Defined.

(** X21.  The loop of [readDataInternal] ends: it takes at most one turn
    for the tail and one for every queued datagram, so its result does not
    change when it is allowed more turns than that. *)
Theorem readDataInternal_loop_ends :
  forall extra x buf actualSz sz,
    WebRTCDataChannel.readDataInternal_loop
      (S (length (WebRTCDataChannel.datagrams x)) + extra) x buf actualSz sz
    = WebRTCDataChannel.readDataInternal_loop
        (S (length (WebRTCDataChannel.datagrams x))) x buf actualSz sz.
Proof.
  intros extra x buf actualSz sz.
  apply readDataInternal_loop_fuel. apply chunks_waiting_bound.
Qed.

(** X22.  As long as no read ends inside a chunk, [_bytesAvailable] is the
    number of the bytes queued: when the tail is empty and
    [_bytesAvailable] counts the queued bytes, the same holds after a
    message came in, after [readDatagram], and after [readDataInternal]
    with room for all queued bytes; and then [readDatagram] hands out the
    datagram at the head of the queue. *)
Theorem bytesAvailable_counts_the_queue :
  forall x,
    counts_the_queue x ->
    (forall data, counts_the_queue (WebRTCDataChannel.onIncomingData data x))
    /\ counts_the_queue (snd (WebRTCDataChannel.readDatagram x))
    /\ fst (WebRTCDataChannel.readDatagram x) = hd_error (WebRTCDataChannel.datagrams x)
    /\ (forall buf sz,
           WebRTCDataChannel._bytesAvailable x <= sz -> sz <= QByteArray.size buf ->
           counts_the_queue (fst (fst (WebRTCDataChannel.readDataInternal x buf sz)))
           /\ snd (WebRTCDataChannel.readDataInternal x buf sz)
              = WebRTCDataChannel._bytesAvailable x).
Proof.
  intros [ds t ba] [Htail Hcount].
  cbn [WebRTCDataChannel.datagrams WebRTCDataChannel.tail WebRTCDataChannel._bytesAvailable]
    in *.
  subst t. split; [|split; [|split]].
  - intros data. unfold counts_the_queue, WebRTCDataChannel.onIncomingData.
    cbn [WebRTCDataChannel.datagrams WebRTCDataChannel.tail WebRTCDataChannel._bytesAvailable].
    split; [reflexivity|]. rewrite concat_app, size_app. simpl concat.
    rewrite app_nil_r. lia.
  - unfold counts_the_queue, WebRTCDataChannel.readDatagram.
    cbn [WebRTCDataChannel.datagrams WebRTCDataChannel.tail WebRTCDataChannel._bytesAvailable].
    destruct ds as [|dg rest]; cbn [snd WebRTCDataChannel.datagrams WebRTCDataChannel.tail
                                       WebRTCDataChannel._bytesAvailable].
    + split; [reflexivity|exact Hcount].
    + split; [reflexivity|]. simpl concat in Hcount. rewrite size_app in Hcount. lia.
  - unfold WebRTCDataChannel.readDatagram.
    cbn [WebRTCDataChannel.datagrams]. destruct ds; reflexivity.
  - intros buf sz Hsz Hbuf.
    destruct (readDataInternal_room (WebRTCDataChannel.mkInbox ds [] ba) buf sz)
      as (x' & buf' & Hrun & Hnone & _ & _ & Hba).
    { unfold pending_bytes.
      cbn [WebRTCDataChannel.datagrams WebRTCDataChannel.tail app]. lia. }
    { exact Hbuf. }
    unfold pending_bytes in Hrun, Hba.
    cbn [WebRTCDataChannel.datagrams WebRTCDataChannel.tail WebRTCDataChannel._bytesAvailable
         app] in Hrun, Hba.
    rewrite Hrun. cbn [fst snd]. split; [|lia].
    unfold pending_bytes in Hnone. apply app_eq_nil in Hnone. destruct Hnone as [Ht Hds].
    split; [exact Ht|]. rewrite Hba, Hds. change (QByteArray.size []) with 0. lia.
Qed.

(** "hi" and "!" have come in on a channel with nothing queued. *)
Lemma bytesAvailable_counts_the_queue_witness :
  counts_the_queue (snd (WebRTCDataChannel.readDatagram (incoming hi_and_bang nothing_queued)))
  /\ fst (WebRTCDataChannel.readDatagram (incoming hi_and_bang nothing_queued))
     = Some [Byte.x68; Byte.x69].
Proof.
  destruct (bytesAvailable_counts_the_queue (incoming hi_and_bang nothing_queued))
    as (_ & Hread & Hhead & _).
  - split; vm_compute; reflexivity.
  - split; [exact Hread|exact Hhead].
Defined.
